(** * Sentinel-1 mosaic: the collapse stencil and its chunked driver

    A shallow embedding of [buteo/earth_observation/s1_mosaic.py].

    Numbers.  The arrays of the program hold 32-bit floats; here every
    sample, weight and quantile is an exact rational ([Q]).  Comparisons
    are the boolean comparisons of [Q]; rounding, NaN and infinities are
    not represented.

    Arrays.  A one-dimensional array is a [list Q]; the three-dimensional
    stack is a shape together with an element function (a view), so that
    a row slice is again a view of the same storage.  A read outside the
    shape is an error ([None]). *)

From Stdlib Require Import QArith Qminmax Qabs Lqa ZArith Lia Permutation Sorted.
From stdpp Require Import base option list strings gmap pretty.

Local Open Scope Q_scope.

(** ** The numpy functions the module calls

    They are modelled from numpy's documented behaviour. *)
Module np.

(** Insertion of an (index, value) pair in a list sorted by value;
    a pair is put before the first pair whose value is not smaller, so
    that equal values stay in index order. *)
Fixpoint insert_by_value (p : nat * Q) (l : list (nat * Q)) : list (nat * Q) :=
  match l with
  | [] => [p]
  | q :: l' =>
      if Qle_bool (snd p) (snd q) then p :: q :: l'
      else q :: insert_by_value p l'
  end.

Definition sort_indexed (values : list Q) : list (nat * Q) :=
  foldr insert_by_value [] (zip (seq 0 (length values)) values).

(** [np.argsort(values)]: the indices that sort [values]. *)
Definition argsort (values : list Q) : list nat :=
  (sort_indexed values).*1.

(** [a[idx]] for an index array [idx]. *)
Definition take (a : list Q) (idx : list nat) : option (list Q) :=
  mapM (a !!.) idx.

Fixpoint cumsum_from (acc : Q) (l : list Q) : list Q :=
  match l with
  | [] => []
  | x :: l' => (acc + x) :: cumsum_from (acc + x) l'
  end.

(** [np.cumsum(a)]. *)
Definition cumsum (a : list Q) : list Q := cumsum_from 0 a.

(** The search of [np.interp]: [(x0, f0)] is the last knot known to
    satisfy [x0 <= x]; the scan stops at the first knot beyond [x].
    On increasing knots this is the index numpy's bisection finds. *)
Fixpoint interp_search (x x0 f0 : Q) (rest : list (Q * Q)) : Q :=
  match rest with
  | [] => f0
  | (x1, f1) :: rest' =>
      if Qle_bool x1 x then interp_search x x1 f1 rest'
      else if Qeq_bool x0 x then f0
      else (f1 - f0) / (x1 - x0) * (x - x0) + f0
  end.

(** [np.interp(x, xp, fp)] for a scalar [x], with the default [left] and
    [right] values [fp[0]] and [fp[-1]]. *)
Definition interp (x : Q) (xp fp : list Q) : option Q :=
  if decide (length xp = length fp) then
    match zip xp fp with
    | [] => None
    | (x0, f0) :: rest =>
        let '(xl, fl) := List.last rest (x0, f0) in
        if negb (Qle_bool x xl) then Some fl
        else if negb (Qle_bool x0 x) then Some f0
        else Some (interp_search x x0 f0 rest)
    end
  else None.

Fixpoint insert_value (v : Q) (l : list Q) : list Q :=
  match l with
  | [] => [v]
  | u :: l' => if Qle_bool v u then v :: u :: l' else u :: insert_value v l'
  end.

(** [np.sort(a)]. *)
Definition sort (a : list Q) : list Q := foldr insert_value [] a.

(** [np.median(a)]: the middle element of the sorted data, or the mean
    of the two middle elements; not a number on an empty array. *)
Definition median (a : list Q) : option Q :=
  let s := sort a in
  let n := length s in
  if Nat.even n then
    lo ← s !! (n / 2 - 1)%nat;
    hi ← s !! (n / 2)%nat;
    if decide (n = 0%nat) then None else Some ((lo + hi) / 2)
  else s !! (n / 2)%nat.

(** [np.nonzero(w)] used as an index: the positions of the non-zero
    entries. *)
Definition nonzero (w : list Q) : list nat :=
  (filter (λ p, Qeq_bool (snd p) 0 = false) (zip (seq 0 (length w)) w)).*1.

End np.

(** ** hood_quantile *)

Definition hood_quantile (values weights : list Q) (quant : Q) : option Q :=
  let sort_mask := np.argsort values in
  sorted_data ← np.take values sort_mask;
  sorted_weights ← np.take weights sort_mask;
  let cumsum := np.cumsum sorted_weights in
  total ← last cumsum;
  let intersect :=
    zip_with (λ c w, (c - (1 # 2) * w) / total) cumsum sorted_weights in
  np.interp quant intersect sorted_data.

(** ** Arrays *)

(** The stack: axes (row, column, time). *)
Record ndarray3 := NdArray3 {
  shape0 : nat;
  shape1 : nat;
  shape2 : nat;
  item : nat → nat → nat → Q
}.

(** An integer index on an axis of length [n]: a negative index counts
    from the end, anything else outside the axis is an error. *)
Definition axis_index (n : nat) (i : Z) : option nat :=
  let j := if (i <? 0)%Z then (i + Z.of_nat n)%Z else i in
  if ((0 <=? j) && (j <? Z.of_nat n))%Z then Some (Z.to_nat j) else None.

(** [a[x, y, z]]. *)
Definition getitem3 (a : ndarray3) (x y z : Z) : option Q :=
  i ← axis_index (shape0 a) x;
  j ← axis_index (shape1 a) y;
  k ← axis_index (shape2 a) z;
  Some (item a i j k).

(** A bound of a slice [start:stop] on an axis of length [n], as
    [slice.indices] computes it. *)
Definition slice_bound (n : nat) (i : Z) : nat :=
  if (i <? 0)%Z then Z.to_nat (Z.max 0 (i + Z.of_nat n))
  else Z.to_nat (Z.min i (Z.of_nat n)).

(** [a[start:stop]] on a list of rows. *)
Definition slice_list {A} (l : list A) (start stop : Z) : list A :=
  let s := slice_bound (length l) start in
  let e := slice_bound (length l) stop in
  take (e - s) (drop s l).

(** [a[start:stop]] on the stack: a view of the rows [start..stop). *)
Definition slice_rows (a : ndarray3) (start stop : Z) : ndarray3 :=
  let s := slice_bound (shape0 a) start in
  let e := slice_bound (shape0 a) stop in
  {| shape0 := e - s; shape1 := shape1 a; shape2 := shape2 a;
     item := λ x, item a (s + x)%nat |}.

(** [np.ones_like(a)]. *)
Definition ones_like (a : ndarray3) : ndarray3 :=
  {| shape0 := shape0 a; shape1 := shape1 a; shape2 := shape2 a;
     item := λ _ _ _, 1 |}.

(** [np.full(shape, v)] and [np.zeros(shape)] in two dimensions. *)
Definition full2 (rows cols : nat) (v : Q) : list (list Q) :=
  replicate rows (replicate cols v).

(** The stack given by nested lists [rows][columns][times]; the shape is
    read off the first row and the first cell. *)
Definition of_lists (d : list (list (list Q))) : ndarray3 :=
  {| shape0 := length d;
     shape1 := length (nth 0 d []);
     shape2 := length (nth 0 (nth 0 d []) []);
     item := λ x y z, nth z (nth y (nth x d []) []) 0 |}.

(** ** s1_collapse

    The arrays the function receives are passed by reference; [memory]
    holds them together with the array the function allocates and fills. *)
Record memory := Memory {
  m_arr : ndarray3;
  m_offsets : list (Z * Z * Z);
  m_weights : list Q;
  m_feather : ndarray3;
  m_result : list (list Q)
}.

(** The scratch arrays of one output position. *)
Record hood := Hood {
  hood_values : list Q;
  hood_weights : list Q;
  weight_sum : Q
}.

(** The options of a call. *)
Record options := Options {
  quantile : Q;
  nodata : bool;
  nodata_value : Q;
  weighted : bool
}.

(** [for i in l: s = body(s, i)], stopping at the first error. *)
Fixpoint for_each {S I : Type} (body : S → I → option S) (l : list I) (s : S)
    : option S :=
  match l with
  | [] => Some s
  | i :: l' => s' ← body s i; for_each body l' s'
  end.

(** One of the three [if v < lo: ... elif v > hi: ...] blocks. *)
Definition clamp (v lo hi : Z) (outside : bool) : Z * bool :=
  if (v <? lo)%Z then (lo, true)
  else if (v >? hi)%Z then (hi, true)
  else (v, outside).

(** The candidate of kernel entry [off] at position [(x, y)]: its
    coordinates after clamping and whether it was marked outside. *)
Definition candidate (arr : ndarray3) (x y : nat) (off : Z * Z * Z)
    : Z * Z * Z * bool :=
  let x_adj := (Z.of_nat (shape0 arr) - 1)%Z in
  let y_adj := (Z.of_nat (shape1 arr) - 1)%Z in
  let z_adj := ((Z.of_nat (shape2 arr) - 1) `div` 2)%Z in
  let '(dx, dy, dz) := off in
  let offset_x := (Z.of_nat x + dx)%Z in
  let offset_y := (Z.of_nat y + dy)%Z in
  let offset_z := dz in
  let outside := false in
  let '(offset_z, outside) := clamp offset_z (- z_adj) z_adj outside in
  let '(offset_x, outside) := clamp offset_x 0 x_adj outside in
  let '(offset_y, outside) := clamp offset_y 0 y_adj outside in
  (offset_x, offset_y, offset_z, outside).

(** The body of [for n in range(hood_size)]. *)
Definition hood_step (m : memory) (o : options) (x y : nat) (h : hood) (n : nat)
    : option hood :=
  off ← m_offsets m !! n;
  let '(offset_x, offset_y, offset_z, outside) := candidate (m_arr m) x y off in
  value ← getitem3 (m_arr m) offset_x offset_y offset_z;
  if outside || (nodata o && Qeq_bool value (nodata_value o)) then Some h
  else
    w ← m_weights m !! n;
    f ← getitem3 (m_feather m) offset_x offset_y offset_z;
    let weight := w * f in
    Some {| hood_values := <[n := value]> (hood_values h);
            hood_weights := <[n := weight]> (hood_weights h);
            weight_sum := weight_sum h + weight |}.

(** The neighbourhood gathered at [(x, y)]. *)
Definition gather (m : memory) (o : options) (x y : nat) : option hood :=
  let hood_size := length (m_offsets m) in
  for_each (hood_step m o x y) (seq 0 hood_size)
    {| hood_values := replicate hood_size 0;
       hood_weights := replicate hood_size 0;
       weight_sum := 0 |}.

(** The value written at [(x, y)], if one is written. *)
Definition aggregate (o : options) (h : hood) : option (option Q) :=
  let hood_weights := (λ w, w / weight_sum h) <$> hood_weights h in
  if Qlt_le_dec 0 (weight_sum h) then
    if weighted o then
      Some <$> hood_quantile (hood_values h) hood_weights (quantile o)
    else
      sel ← np.take (hood_values h) (np.nonzero hood_weights);
      Some <$> np.median sel
  else Some None.

(** The body of the two position loops: [result[x, y]] is the only cell
    of the memory that is assigned. *)
Definition pixel_body (o : options) (x : nat) (m : memory) (y : nat)
    : option memory :=
  h ← gather m o x y;
  r ← aggregate o h;
  match r with
  | Some v =>
      Some {| m_arr := m_arr m; m_offsets := m_offsets m;
              m_weights := m_weights m; m_feather := m_feather m;
              m_result := alter (λ row, <[y := v]> row) x (m_result m) |}
  | None => Some m
  end.

Definition row_body (o : options) (m : memory) (x : nat) : option memory :=
  for_each (pixel_body o x) (seq 0 (shape1 (m_arr m))) m.

(** [s1_collapse] as a transformation of the memory. *)
Definition s1_collapse_mem (o : options) (m : memory) : option memory :=
  let rows := shape0 (m_arr m) in
  let cols := shape1 (m_arr m) in
  let result :=
    if nodata o then full2 rows cols (nodata_value o)
    else full2 rows cols 0 in
  for_each (row_body o)
    (seq 0 rows)
    {| m_arr := m_arr m; m_offsets := m_offsets m; m_weights := m_weights m;
       m_feather := m_feather m; m_result := result |}.

(** [s1_collapse(arr, offsets, weights, feather_weights, ...)]: the
    returned array. *)
Definition s1_collapse (arr : ndarray3) (offsets : list (Z * Z * Z))
    (weights : list Q) (feather_weights : ndarray3) (o : options)
    : option (list (list Q)) :=
  m_result <$>
    s1_collapse_mem o
      {| m_arr := arr; m_offsets := offsets; m_weights := weights;
         m_feather := feather_weights; m_result := [] |}.

(** The defaults of [s1_collapse]. *)
Definition default_options : options :=
  {| quantile := 1 # 2; nodata := true; nodata_value := -9999; weighted := true |}.

(** ** sort_rasters *)

(** [l[i] = v] on a Python list. *)
Definition setitem {A} (l : list A) (i : Z) (v : A) : option (list A) :=
  j ← axis_index (length l) i;
  Some (<[j := v]> l).

(** What a slot of [copy] holds: the integer [list(range(n))] put there,
    or a raster. *)
Inductive entry :=
  | Index (i : nat)
  | Raster (r : string).

Section sort_rasters.

(** The acquisition time read from a file name; [os.path] and
    [datetime] are not modelled, the time is a number of seconds. *)
Variable name_to_date : string → Z.

Fixpoint insert_by_date (r : string) (l : list string) : list string :=
  match l with
  | [] => [r]
  | s :: l' =>
      if (name_to_date r <=? name_to_date s)%Z then r :: s :: l'
      else s :: insert_by_date r l'
  end.

(** [sorted(rasters, key=name_to_date)]; the sort is stable. *)
Definition sorted (rasters : list string) : list string :=
  foldr insert_by_date [] rasters.

(** The body of [for idx, raster in enumerate(by_date)]. *)
Definition place (midpoint : Z) (st : list entry * Z * bool)
    (it : nat * string) : option (list entry * Z * bool) :=
  let '(copy, add, left') := st in
  let '(idx, raster) := it in
  if decide (idx = 0%nat) then Some st
  else if left' then
    copy ← setitem copy (midpoint - add)%Z (Raster raster);
    Some (copy, add, false)
  else
    copy ← setitem copy (midpoint + add)%Z (Raster raster);
    Some (copy, (add + 1)%Z, true).

Definition sort_rasters (rasters : list string) : option (list entry) :=
  let by_date := sorted rasters in
  let copy := Index <$> seq 0 (length rasters) in
  let midpoint := (Z.of_nat (length rasters) `div` 2)%Z in
  first ← by_date !! 0%nat;
  copy ← setitem copy midpoint (Raster first);
  st ← for_each (place midpoint) (imap pair by_date) (copy, 1%Z, true);
  Some st.1.1.

End sort_rasters.

(** ** The driver *)

(** [np.ma.masked_array(data, mask)] with its fill value. *)
Record masked_array := MaskedArray {
  ma_data : list (list Q);
  ma_mask : list (list bool);
  ma_fill_value : Q
}.

(** [np.ma.masked_array(a, mask=a == nodata_value)], then
    [fill_value = nodata_value]. *)
Definition mask_nodata (a : list (list Q)) (nodata_value : Q) : masked_array :=
  {| ma_data := a;
     ma_mask := map (map (λ v, Qeq_bool v nodata_value)) a;
     ma_fill_value := nodata_value |}.

(** The exceptions a run can end with. *)
Inductive exn :=
  | Exception (msg : string)
  | TypingError
  | IndexError
  | FileNotFoundError (path : string)
  | UnboundLocalError (name : string)
  | ExternalError (msg : string).

(** The calls to the raster library that change the file system. *)
Inductive call :=
  | Reproject (img master : string)
  | Unlink (raster : string)
  | Clip (raster master out_path : string)
  | Align (rasters : list string) (out_path master : string)
  | Proximity (rasters : list string) (out_path : string).

(** What a run can change: the staged [.npy] files, the rasters written
    by [array_to_raster], the calls made and the lines printed. *)
Record world := World {
  files : gmap string (list (list Q));
  rasters : list (string * string * masked_array);
  calls : list call;
  stdout : list string
}.

(** Computations that change the world and may raise. *)
Definition M (A : Type) : Type := world → (exn + A) * world.

Global Instance M_ret : MRet M := λ A a w, (inr a, w).
Global Instance M_bind : MBind M := λ A B f m w,
  match m w with
  | (inl e, w') => (inl e, w')
  | (inr a, w') => f a w'
  end.

Definition raise {A} (e : exn) : M A := λ w, (inl e, w).

Definition print (s : string) : M unit := λ w,
  (inr (), {| files := files w; rasters := rasters w; calls := calls w;
              stdout := stdout w ++ [s] |}).

Definition record_call (c : call) : M unit := λ w,
  (inr (), {| files := files w; rasters := rasters w; calls := calls w ++ [c];
              stdout := stdout w |}).

(** [np.save(path, a)]. *)
Definition np_save (path : string) (a : list (list Q)) : M unit := λ w,
  (inr (), {| files := <[path := a]> (files w); rasters := rasters w;
              calls := calls w; stdout := stdout w |}).

(** [np.load(path)]. *)
Definition np_load (path : string) : M (list (list Q)) := λ w,
  match files w !! path with
  | Some a => (inr a, w)
  | None => (inl (FileNotFoundError path), w)
  end.

(** [array_to_raster(a, master_raster, out_path=out_path)]. *)
Definition array_to_raster (a : masked_array) (master_raster out_path : string)
    : M unit := λ w,
  (inr (), {| files := files w;
              rasters := rasters w ++ [(out_path, master_raster, a)];
              calls := calls w; stdout := stdout w |}).

(** The result of a library function: a value, or the message of the
    exception raised inside the library. *)
Definition lift {A} (r : string + A) : M A := λ w,
  match r with
  | inl msg => (inl (ExternalError msg), w)
  | inr a => (inr a, w)
  end.

(** [for i in l: s = body(s, i)] in [M]. *)
Fixpoint for_each_M {S I : Type} (body : S → I → M S) (l : list I) (s : S)
    : M S :=
  match l with
  | [] => mret s
  | i :: l' => s' ← body s i; for_each_M body l' s'
  end.

(** A value passed as [feather_weights] to the compiled [s1_collapse]:
    an array, or the rasters the caller was given. *)
Inductive feather_arg :=
  | FeatherArray (a : ndarray3)
  | FeatherRasters (r : list string).

(** The call of the compiled function: indexing with three integers is
    typed for an array only; an index error ends the call. *)
Definition s1_collapse_call (arr : ndarray3) (offsets : list (Z * Z * Z))
    (weights : list Q) (feather_weights : feather_arg) (o : options)
    : M (list (list Q)) :=
  match feather_weights with
  | FeatherArray fw =>
      match s1_collapse arr offsets weights fw o with
      | Some r => mret r
      | None => raise IndexError
      end
  | FeatherRasters _ => raise TypingError
  end.

(** [folder_tmp + f"{uids}_chunk_{chunk}.npy"]. *)
Definition chunk_file (folder_tmp uids : string) (chunk : nat) : string :=
  folder_tmp +:+ uids +:+ "_chunk_" +:+ pretty chunk +:+ ".npy".

Section driver.

(** The collaborators that are not part of the module. *)

(** [create_kernel((3, 3, depth), ...)]: the offsets and the weights. *)
Variable create_kernel : nat → list (Z * Z * Z) * list Q.
(** [raster_to_array(rasters)]. *)
Variable raster_to_array : list string → string + ndarray3.
(** [rasters_are_aligned(rasters)]. *)
Variable rasters_are_aligned : list string → bool.
(** [uuid4()], as the text an f-string makes of it. *)
Variable uuid4 : string.

(** The state of the chunk loop is [chunks_list]. *)
Definition chunk_body (arr_aligned : ndarray3)
    (feather_weights_arr : option ndarray3)
    (offsets : list (Z * Z * Z)) (weights : list Q)
    (folder_tmp : string) (uids : string) (chunks : Z) (nodata_value : Q)
    (chunk_offset : Z)
    (chunks_list : list string) (chunk : nat) : M (list string) :=
  _ ← print ("Chunk " +:+ pretty (chunk + 1)%nat +:+ " of " +:+ pretty chunks);
  let rows := Z.of_nat (shape0 arr_aligned) in
  let '(chunk_start, cut_start) :=
    if decide (chunk = 0%nat) then (0%Z, false)
    else ((Z.of_nat chunk * (rows `div` chunks)) - chunk_offset, true)%Z in
  let '(chunk_end, cut_end) :=
    if decide (Z.of_nat chunk = chunks - 1)%Z then (rows, false)
    else (((Z.of_nat chunk + 1) * (rows `div` chunks)) + chunk_offset, true)%Z in
  let arr_chunk := slice_rows arr_aligned chunk_start chunk_end in
  let weights_chunk :=
    match feather_weights_arr with
    | Some fw => slice_rows fw chunk_start chunk_end
    | None => ones_like arr_chunk
    end in
  _ ← print "    Collapsing...";
  arr_collapsed ← s1_collapse_call arr_chunk offsets weights
                    (FeatherArray weights_chunk)
                    {| quantile := 1 # 2; nodata := true;
                       nodata_value := nodata_value; weighted := true |};
  let offset_start := if cut_start then chunk_offset else 0%Z in
  let offset_end :=
    if cut_end then (Z.of_nat (length arr_collapsed) - chunk_offset)%Z
    else Z.of_nat (length arr_collapsed) in
  let chunk_path := chunk_file folder_tmp uids chunk in
  _ ← np_save chunk_path (slice_list arr_collapsed offset_start offset_end);
  mret (chunks_list ++ [chunk_path]).

Definition process_aligned (aligned_rasters : list string)
    (out_path folder_tmp : string) (chunks : Z) (master_raster : string)
    (nodata_value : Q) (feather_weights : option (list string)) : M string :=
  let kernel_size := 3%Z in
  let chunk_offset := (kernel_size `div` 2)%Z in
  let '(offsets, weights) := create_kernel (length aligned_rasters) in
  arr_aligned ← lift (raster_to_array aligned_rasters);
  feather_weights_arr ←
    match feather_weights with
    | Some f => a ← lift (raster_to_array f); mret (Some a)
    | None => mret None
    end;
  if negb (rasters_are_aligned aligned_rasters) then
    raise (Exception "Rasters not aligned")
  else if (1 <? chunks)%Z then
    _ ← print "Chunking rasters";
    let uids := uuid4 in
    chunks_list ←
      for_each_M
        (chunk_body arr_aligned feather_weights_arr offsets weights
           folder_tmp uids chunks nodata_value chunk_offset)
        (seq 0 (Z.to_nat chunks)) [];
    _ ← print "Merging Chunks";
    merged ←
      for_each_M (λ merged chunk, a ← np_load chunk; mret (merged ++ [a]))
        chunks_list [];
    let merged := concat merged in
    let merged := mask_nodata merged nodata_value in
    _ ← print "Writing raster.";
    _ ← array_to_raster merged master_raster out_path;
    mret out_path
  else
    let weights_borders :=
      match feather_weights with
      | Some f => FeatherRasters f
      | None => FeatherArray (ones_like arr_aligned)
      end in
    _ ← print "Collapsing rasters";
    arr_collapsed ← s1_collapse_call arr_aligned offsets weights
                      weights_borders
                      {| quantile := 1 # 2; nodata := true;
                         nodata_value := nodata_value; weighted := true |};
    let arr_collapsed := mask_nodata arr_collapsed nodata_value in
    _ ← print "Writing raster.";
    _ ← array_to_raster arr_collapsed master_raster out_path;
    mret out_path.

End driver.

(** ** mosaic_s1 *)

(** The values [mosaic_s1] may receive as [vv_or_vv_paths]. *)
Inductive pyobj :=
  | PyList (l : list string)
  | PyTuple (l : list string)
  | PyStr (s : string)
  | PyNone.

Section mosaic.

Variable create_kernel : nat → list (Z * Z * Z) * list Q.
Variable raster_to_array : list string → string + ndarray3.
Variable rasters_are_aligned : list string → bool.
Variable uuid4 : string.

(** [reproject_raster(img, master_raster, ...)]. *)
Variable reproject_raster : string → string → string + string.
(** [rasters_intersect(raster, master_raster)]. *)
Variable rasters_intersect : string → string → bool.
(** [clip_raster(raster, master_raster, out_path=..., ...)]. *)
Variable clip_raster : string → string → string → string + string.
(** [align_rasters(rasters, out_path=..., master=..., skip_existing=...)]. *)
Variable align_rasters : list string → string → string → bool → string + list string.
(** [calc_proximity(rasters, ..., out_path=..., max_dist=..., skip_existing=...)]. *)
Variable calc_proximity : list string → string → Z → bool → string + list string.
(** [os.path.exists(path)]. *)
Variable path_exists : string → bool.
(** [os.path.splitext(os.path.basename(path))[0]]. *)
Variable stem : string → string.

(** [progress(count, total, name)] prints a progress bar. *)
Definition progress (count total : nat) (name : string) : M unit :=
  print (name +:+ " " +:+ pretty count +:+ "/" +:+ pretty total).

(** The body of the clipping loop; its state is [clipped] and the
    variable [reprojected], which is unbound at first. *)
Definition clip_body (total : nat) (folder_tmp master_raster : string)
    (skip_completed : bool)
    (st : list string * option string) (it : nat * string)
    : M (list string * option string) :=
  let '(clipped, reprojected) := st in
  let '(idx, img) := it in
  _ ← progress idx total "Clipping Rasters";
  let name := stem img +:+ "_clipped.tif" in
  let out_name_clip := folder_tmp +:+ name in
  if skip_completed && path_exists out_name_clip then
    let clipped_raster := folder_tmp +:+ name in
    let clipped := clipped ++ [clipped_raster] in
    match reprojected with
    | None => raise (UnboundLocalError "reprojected")
    | Some r =>
        _ ← record_call (Unlink r);
        _ ← progress (idx + 1) total "Clipping Rasters";
        mret (clipped, reprojected)
    end
  else
    r ← lift (reproject_raster img master_raster);
    _ ← record_call (Reproject img master_raster);
    if negb (rasters_intersect r master_raster) then
      _ ← print "";
      _ ← print (img +:+ " does not intersect " +:+ master_raster
                   +:+ ", continuing");
      _ ← progress (idx + 1) total "Clipping Rasters";
      _ ← record_call (Unlink r);
      mret (clipped, Some r)
    else
      let out := folder_tmp +:+ name in
      clipped_raster ← lift (clip_raster r master_raster out);
      _ ← record_call (Clip r master_raster out);
      let clipped := clipped ++ [clipped_raster] in
      _ ← record_call (Unlink r);
      _ ← progress (idx + 1) total "Clipping Rasters";
      mret (clipped, Some r).

Definition mosaic_s1 (vv_or_vv_paths : pyobj) (out_path folder_tmp : string)
    (master_raster : string) (nodata_value : Q) (chunks : Z)
    (feather_borders : bool) (feather_distance : Z) (skip_completed : bool)
    : M string :=
  match vv_or_vv_paths with
  | PyList preprocessed =>
      if decide (length preprocessed < 2)%nat then
        raise (Exception "vv_or_vv_paths must contain more than one file")
      else
        st ← for_each_M
               (clip_body (length preprocessed) folder_tmp master_raster
                  skip_completed)
               (imap pair preprocessed) ([], None);
        let clipped := st.1 in
        _ ← print "Aligning VV rasters to master";
        arr_aligned_rasters ←
          lift (align_rasters clipped folder_tmp master_raster skip_completed);
        _ ← record_call (Align clipped folder_tmp master_raster);
        arr_aligned_rasters_feather ←
          (if feather_borders then
             _ ← print "Feathering VV rasters";
             f ← lift (calc_proximity arr_aligned_rasters folder_tmp
                         feather_distance skip_completed);
             _ ← record_call (Proximity arr_aligned_rasters folder_tmp);
             mret (Some f)
           else mret None);
        _ ← print "Processing VV";
        process_aligned create_kernel raster_to_array rasters_are_aligned
          uuid4 arr_aligned_rasters out_path folder_tmp chunks master_raster
          nodata_value arr_aligned_rasters_feather
  | _ => raise (Exception "vv_or_vv_paths must be a list")
  end.

End mosaic.

(** The two errors of the check of the arguments of [mosaic_s1]. *)
Definition precondition_error (e : exn) : Prop :=
  e = Exception "vv_or_vv_paths must be a list" ∨
  e = Exception "vv_or_vv_paths must contain more than one file".

(** The input is a list of at least two rasters. *)
Definition valid_input (v : pyobj) : Prop :=
  match v with
  | PyList l => (2 ≤ length l)%nat
  | _ => False
  end.

(** ** The value of one output position

    These definitions describe what the two position loops of
    [s1_collapse] leave in the result. *)

Definition set_result (m : memory) (r : list (list Q)) : memory :=
  {| m_arr := m_arr m; m_offsets := m_offsets m; m_weights := m_weights m;
     m_feather := m_feather m; m_result := r |}.

(** The memory at the call. *)
Definition inputs (arr : ndarray3) (offsets : list (Z * Z * Z))
    (weights : list Q) (feather_weights : ndarray3) : memory :=
  {| m_arr := arr; m_offsets := offsets; m_weights := weights;
     m_feather := feather_weights; m_result := [] |}.

(** What the result is filled with before the loops. *)
Definition initial_value (o : options) : Q :=
  if nodata o then nodata_value o else 0.

(** What the body of the loops computes at [(x, y)]: the value it
    assigns, or [None] when it assigns nothing. *)
Definition pixel_out (m : memory) (o : options) (x y : nat) : option (option Q) :=
  h ← gather m o x y; aggregate o h.

(** The assignments of one row, and of all rows. *)
Fixpoint writes (y0 : nat) (vs : list (option Q)) (row : list Q) : list Q :=
  match vs with
  | [] => row
  | v :: vs' =>
      writes (S y0) vs'
        (match v with Some v => <[y0 := v]> row | None => row end)
  end.

Fixpoint row_writes (x0 : nat) (vss : list (list (option Q)))
    (res : list (list Q)) : list (list Q) :=
  match vss with
  | [] => res
  | vs :: vss' => row_writes (S x0) vss' (alter (writes 0 vs) x0 res)
  end.

(** ** Notions used to state the properties of hood_quantile *)

(** The sum of an array. *)
Definition sumQ (l : list Q) : Q := foldr Qplus 0 l.

(** The knots [(x0, f0) :: rest] ascend in both coordinates. *)
Fixpoint ascending (x0 f0 : Q) (rest : list (Q * Q)) : Prop :=
  match rest with
  | [] => True
  | (x1, f1) :: rest' => x0 <= x1 ∧ f0 <= f1 ∧ ascending x1 f1 rest'
  end.

(** A list of numbers ascends. *)
Fixpoint ascendingQ (l : list Q) : Prop :=
  match l with
  | [] => True
  | v :: l' => match l' with [] => True | u :: _ => v <= u end ∧ ascendingQ l'
  end.

(** A natural number as a rational. *)
Definition Qnat (k : nat) : Q := inject_Z (Z.of_nat k).

(** ** Notions used to state the properties of s1_collapse *)

(** What kernel entry [n] contributes at [(x, y)]: [None] when the
    candidate is skipped, its value and combined weight otherwise. *)
Definition slot (m : memory) (o : options) (x y : nat) (n : nat)
    : option (option (Q * Q)) :=
  off ← m_offsets m !! n;
  let '(offset_x, offset_y, offset_z, outside) := candidate (m_arr m) x y off in
  value ← getitem3 (m_arr m) offset_x offset_y offset_z;
  if outside || (nodata o && Qeq_bool value (nodata_value o)) then Some None
  else
    w ← m_weights m !! n;
    f ← getitem3 (m_feather m) offset_x offset_y offset_z;
    Some (Some (value, w * f)).

(** The scratch arrays after the contribution [s] of entry [n]. *)
Definition store_slot (h : hood) (n : nat) (s : option (Q * Q)) : hood :=
  match s with
  | Some (value, weight) =>
      {| hood_values := <[n := value]> (hood_values h);
         hood_weights := <[n := weight]> (hood_weights h);
         weight_sum := weight_sum h + weight |}
  | None => h
  end.

(** The running sum of the weights of the contributions. *)
Definition add_weight (acc : Q) (s : option (Q * Q)) : Q :=
  match s with
  | Some (_, weight) => acc + weight
  | None => acc
  end.

(** The candidate of [off] at [(x, y)] lies outside the stack: its row
    outside [[0, x_max]], its column outside [[0, y_max]], or its time
    offset outside [[-z_adj, z_adj]]. *)
Definition out_of_range (arr : ndarray3) (x y : nat) (off : Z * Z * Z) : Prop :=
  let '(dx, dy, dz) := off in
  let x_max := (Z.of_nat (shape0 arr) - 1)%Z in
  let y_max := (Z.of_nat (shape1 arr) - 1)%Z in
  let z_adj := ((Z.of_nat (shape2 arr) - 1) `div` 2)%Z in
  (¬ (0 ≤ Z.of_nat x + dx ≤ x_max) ∨ ¬ (0 ≤ Z.of_nat y + dy ≤ y_max) ∨
   ¬ (- z_adj ≤ dz ≤ z_adj))%Z.

(** The sample of the stack at the candidate of [off] is the nodata
    value. *)
Definition reads_nodata (arr : ndarray3) (nodata_value : Q) (x y : nat)
    (off : Z * Z * Z) : Prop :=
  let '(dx, dy, dz) := off in
  ∃ v, getitem3 arr (Z.of_nat x + dx) (Z.of_nat y + dy) dz = Some v ∧
       v == nodata_value.

(** The arrays of a call fit together: the stack has at least one time
    step, the feather weights have the shape of the stack, and there is
    one kernel weight per offset. *)
Definition well_shaped (arr : ndarray3) (offsets : list (Z * Z * Z))
    (weights : list Q) (feather_weights : ndarray3) : Prop :=
  (1 ≤ shape2 arr)%nat ∧
  shape0 feather_weights = shape0 arr ∧
  shape1 feather_weights = shape1 arr ∧
  shape2 feather_weights = shape2 arr ∧
  length weights = length offsets.

(** The memory after the result array is created and before the loops. *)
Definition fresh (o : options) (m : memory) : memory :=
  set_result m
    (full2 (shape0 (m_arr m)) (shape1 (m_arr m)) (initial_value o)).

(** [result[x, y]]. *)
Definition result_at (m : memory) (x y : nat) : option Q :=
  row ← m_result m !! x; row !! y.

(** ** Notions used to state the properties of sort_rasters *)

(** The index in the stack of the raster of rank [i] in time order: the
    midpoint for the earliest, then left and right in turn. *)
Definition stack_position (midpoint i : nat) : nat :=
  if decide (i = 0)%nat then midpoint
  else if decide (i `mod` 2 = 1)%nat then (midpoint - (i + 1) / 2)%nat
  else (midpoint + i / 2)%nat.

(** The rank in time order of the raster at index [p] of the stack. *)
Definition stack_rank (midpoint p : nat) : nat :=
  if decide (p = midpoint) then 0%nat
  else if decide (p < midpoint)%nat then (2 * (midpoint - p) - 1)%nat
  else (2 * (p - midpoint))%nat.

(** The state of the loop of [sort_rasters] after the rasters of rank
    below [k] are placed. *)
Definition placed (by_date : list string) (k : nat)
    (st : list entry * Z * bool) : Prop :=
  let midpoint := (length by_date / 2)%nat in
  length st.1.1 = length by_date ∧
  st.1.2 = Z.of_nat ((k + 1) / 2) ∧
  st.2 = bool_decide (k `mod` 2 = 1)%nat ∧
  ∀ i, (i < k)%nat →
    st.1.1 !! stack_position midpoint i = Raster <$> by_date !! i.

(** ** Notions used to state the properties of the driver *)

(** [c] shows the rows of [a] from row [s] on. *)
Definition row_view (s : nat) (c a : ndarray3) : Prop :=
  shape1 c = shape1 a ∧ shape2 c = shape2 a ∧
  (s + shape0 c ≤ shape0 a)%nat ∧
  ∀ lx y z, item c lx y z = item a (s + lx)%nat y z.

(** The kernel reaches one row up and down at most: its radius along
    the rows is the halo of the chunks. *)
Definition radius_one (offsets : list (Z * Z * Z)) : Prop :=
  Forall (λ off, (-1 ≤ off.1.1 ≤ 1)%Z) offsets.

(** The rows [lo..hi) of an array. *)
Definition rows_between {A} (lo hi : nat) (l : list A) : list A :=
  take (hi - lo) (drop lo l).

(** The rows of the stack whose results are kept from chunk [c] of
    [chunks], on a stack of [rows] rows: from [kept_lo] up to [kept_hi],
    which is excluded. *)
Definition kept_lo (chunks : Z) (rows c : nat) : nat :=
  Z.to_nat (Z.of_nat c * (Z.of_nat rows `div` chunks)).

Definition kept_hi (chunks : Z) (rows c : nat) : nat :=
  if decide (Z.of_nat c = chunks - 1)%Z then rows
  else Z.to_nat ((Z.of_nat c + 1) * (Z.of_nat rows `div` chunks)).

(** The world after chunk [c] is collapsed and staged, [res] being the
    result on the whole stack. *)
Definition staged (folder_tmp uids : string) (chunks : Z) (res : list (list Q))
    (w : world) (c : nat) : world :=
  {| files :=
       <[chunk_file folder_tmp uids c :=
           rows_between (kept_lo chunks (length res) c)
             (kept_hi chunks (length res) c) res]> (files w);
     rasters := rasters w;
     calls := calls w;
     stdout :=
       (stdout w ++ ["Chunk " +:+ pretty (c + 1)%nat +:+ " of " +:+ pretty chunks])
       ++ ["    Collapsing..."] |}.

(** The feather weights the stencil is meant to use: the array read
    from the feather rasters, or ones. *)
Definition feather_or_ones (arr : ndarray3) (fw : option ndarray3) : ndarray3 :=
  match fw with
  | Some a => a
  | None => ones_like arr
  end.

(** The options [process_aligned] calls [s1_collapse] with. *)
Definition driver_options (nodata_value : Q) : options :=
  {| quantile := 1 # 2; nodata := true; nodata_value := nodata_value;
     weighted := true |}.

(** ** A small run of the driver

    One raster list, a kernel of the single offset [(0, 0, 0)] with
    weight 1, and raster files that hold the arrays below. *)
Module example.

Definition kernel (depth : nat) : list (Z * Z * Z) * list Q :=
  ([(0, 0, 0)%Z], [1]).

(** A stack of one row, one column and one time step. *)
Definition one_row : ndarray3 := of_lists [[[5]]].

(** A stack of two rows and its feather weights. *)
Definition two_rows : ndarray3 := of_lists [[[5]]; [[7]]].
Definition two_rows_feather : ndarray3 := of_lists [[[1]]; [[3]]].

Definition read_one_row (rasters : list string) : string + ndarray3 :=
  inr one_row.

Definition read_two_rows (rasters : list string) : string + ndarray3 :=
  match rasters with
  | ["feather.tif"] => inr two_rows_feather
  | _ => inr two_rows
  end.

Definition aligned (rasters : list string) : bool := true.

Definition empty_world : world :=
  {| files := ∅; rasters := []; calls := []; stdout := [] |}.

(** Collaborators of [mosaic_s1] that always succeed. *)
Definition reproject (img master : string) : string + string :=
  inr (img +:+ ".vrt").
Definition intersect (raster master : string) : bool := true.
Definition clip (raster master out_path : string) : string + string :=
  inr out_path.
Definition align (rasters : list string) (out_path master : string)
    (skip : bool) : string + list string := inr rasters.
Definition proximity (rasters : list string) (out_path : string)
    (max_dist : Z) (skip : bool) : string + list string :=
  inr ["feather.tif"].
Definition no_file (path : string) : bool := false.
Definition stem (path : string) : string := path.

(** A date read from a name: its length. *)
Definition date (name : string) : Z := Z.of_nat (String.length name).

(** A stack of one position and two time steps, the first of which is
    nodata; only the first time step is in range of a kernel. *)
Definition two_times : ndarray3 := of_lists [[[-9999; 7]]].
Definition three_offsets : list (Z * Z * Z) :=
  [(0, 0, 0); (0, 0, 1); (1, 0, 0)]%Z.

End example.

(** ** Notions used to state the invariance under the scale of the weights *)


(** Two stacks of one shape that agree at every time step but [t]. *)
Definition agree_off_time (t : nat) (a b : ndarray3) : Prop :=
  shape0 a = shape0 b ∧ shape1 a = shape1 b ∧ shape2 a = shape2 b ∧
  ∀ x y z, z ≠ t → item a x y z = item b x y z.

(** A stack of one position and two time steps, and the same stack with
    another sample at the second time step. *)
Definition two_times_a : ndarray3 := of_lists [[[5; 7]]].
Definition two_times_b : ndarray3 := of_lists [[[5; 100]]].


(** ** Notions used to state what a run writes *)

(** A computation that leaves the rasters written so far as they are,
    however it ends. *)
Definition keeps_rasters {A} (m : M A) : Prop :=
  ∀ w r w', m w = (r, w') → rasters w' = rasters w.

(** A computation that writes one raster, [out_path] with the
    georeference of [master_raster], when it returns, which it does with
    [out_path], and writes none when it raises. *)
Definition writes_on_return (m : M string) (out_path master_raster : string)
    : Prop :=
  ∀ w r w', m w = (r, w') →
    match r with
    | inl _ => rasters w' = rasters w
    | inr p => p = out_path ∧
               ∃ a, rasters w' = rasters w ++ [(out_path, master_raster, a)]
    end.

(** A computation that never returns normally. *)
Definition always_raises {A} (m : M A) : Prop :=
  ∀ w, ∃ e w', m w = (inl e, w').

(** ** Notions used to state what the clipping loop keeps *)

Section clipping.

Variable reproject_raster : string → string → string + string.
Variable rasters_intersect : string → string → bool.
Variable clip_raster : string → string → string → string + string.
Variable stem : string → string.




End clipping.

(** ** rasters_are_aligned

    The function of [buteo/raster/core_raster.py].  ([process_aligned]
    takes its check of this name from [buteo.raster.align]; in the driver
    above it stays a parameter.)  Opening a raster, the test that a name
    is a raster and the comparison of two projections are left to GDAL. *)
Module core_raster.

(** The six numbers of [GetGeoTransform]. *)
Record geotransform := GeoTransform {
  gt0 : Q; gt1 : Q; gt2 : Q; gt3 : Q; gt4 : Q; gt5 : Q
}.

(** What [_raster_to_metadata] reads from an opened raster. *)
Record dataset := Dataset {
  ds_name : string;
  ds_transform : geotransform;
  ds_projection : string;
  ds_x_size : Z;
  ds_y_size : Z;
  ds_datatype : string;
  ds_nodata : option Q
}.

(** The entries of the metadata that [rasters_are_aligned] reads. *)
Record metadata := Metadata {
  name : string;
  projection_wkt : string;
  pixel_width : Q;
  pixel_height : Q;
  x_min : Q;
  y_max : Q;
  transform : geotransform;
  width : Z;
  height : Z;
  datatype : string;
  nodata_value : option Q
}.

(** The exceptions of the function. *)
Inductive error :=
  | ValueError (msg : string)
  | TypeError.

(** How a turn of a loop ends: with an exception, with a [return], or
    at the end of its body. *)
Inductive outcome (S : Type) :=
  | Raised (e : error)
  | Returned (b : bool)
  | Continue (s : S).
Arguments Raised {S} e.
Arguments Returned {S} b.
Arguments Continue {S} s.

(** [for i in l: body], with the lines printed. *)
Fixpoint for_each_out {S I : Type} (body : S → I → list string * outcome S)
    (l : list I) (s : S) : list string * outcome S :=
  match l with
  | [] => ([], Continue s)
  | i :: l' =>
      match body s i with
      | (out, Continue s') =>
          let '(out', r) := for_each_out body l' s' in (out ++ out', r)
      | r => r
      end
  end.

(** The entries computed from the opened raster. *)
Definition metadata_of (d : dataset) : metadata :=
  let transform := ds_transform d in
  {| name := ds_name d;
     projection_wkt := ds_projection d;
     pixel_width := Qabs (gt1 transform);
     pixel_height := Qabs (gt5 transform);
     x_min := gt0 transform;
     y_max := gt3 transform;
     transform := transform;
     width := ds_x_size d;
     height := ds_y_size d;
     datatype := ds_datatype d;
     nodata_value := ds_nodata d |}.

(** [a == b] on two transforms, and on two nodata values, which may be
    [None]. *)
Definition transform_eqb (a b : geotransform) : bool :=
  Qeq_bool (gt0 a) (gt0 b) && Qeq_bool (gt1 a) (gt1 b) &&
  Qeq_bool (gt2 a) (gt2 b) && Qeq_bool (gt3 a) (gt3 b) &&
  Qeq_bool (gt4 a) (gt4 b) && Qeq_bool (gt5 a) (gt5 b).

Definition nodata_eqb (a b : option Q) : bool :=
  match a, b with
  | Some x, Some y => Qeq_bool x y
  | None, None => true
  | _, _ => false
  end.

(** [if a != b: if abs(a - b) > threshold: ...]. *)
Definition differs (a b threshold : Q) : bool :=
  negb (Qeq_bool a b) && negb (Qle_bool (Qabs (a - b)) threshold).

(** The state of the loop holds nothing, or metadata read from a
    raster. *)
Definition read_base (s : option metadata) : Prop :=
  ∀ b, s = Some b → ∃ d, b = metadata_of d.

Section rasters_are_aligned.

(** [open_raster(raster)], with the message of its error. *)
Variable open_raster : string → string + dataset.
(** [gdal_utils.is_raster(raster)]. *)
Variable is_raster : string → bool.
(** [a.IsSame(b)] on the projections imported from two WKT texts. *)
Variable is_same : string → string → bool.

(** [_raster_to_metadata(raster)]. *)
Definition raster_to_metadata (raster : string) : error + metadata :=
  match open_raster raster with
  | inl msg => inl (ValueError msg)
  | inr d => inr (metadata_of d)
  end.

(** The comparison of a raster with the first one: the lines printed
    and whether the loop goes on. *)
Definition compare (same_extent same_dtype same_nodata : bool) (threshold : Q)
    (base meta : metadata) : list string * bool :=
  let mismatch field :=
    name base +:+ " did not match " +:+ name meta +:+ " " +:+ field in
  let '(out, same_projection) :=
    if negb (String.eqb (projection_wkt meta) (projection_wkt base)) then
      if is_same (projection_wkt meta) (projection_wkt base) then
        (["WARNING: " +:+ name base +:+ " has the same projection as "
            +:+ name meta
            +:+ " but they are written differently in WKT format. Consider using the same definition."],
         true)
      else ([mismatch "projection"], false)
    else ([], true) in
  if negb same_projection then (out, false)
  else if differs (pixel_width meta) (pixel_width base) threshold then
    (out ++ [mismatch "pixel_width"], false)
  else if differs (pixel_height meta) (pixel_height base) threshold then
    (out ++ [mismatch "pixel_height"], false)
  else if differs (x_min meta) (x_min base) threshold then
    (out ++ [mismatch "x_min"], false)
  else if differs (y_max meta) (y_max base) threshold then
    (out ++ [mismatch "y_max"], false)
  else if same_extent && negb (transform_eqb (transform meta) (transform base)) then
    (out, false)
  else if same_extent && negb (height meta =? height base)%Z then (out, false)
  else if same_extent && negb (width meta =? width base)%Z then (out, false)
  else if same_dtype && negb (String.eqb (datatype meta) (datatype base)) then
    (out, false)
  else if same_nodata && negb (nodata_eqb (nodata_value meta) (nodata_value base)) then
    (out, false)
  else (out, true).

(** The body of [for index, raster in enumerate(rasters)]; its state is
    [base], which has no entry before the first turn. *)
Definition aligned_body (same_extent same_dtype same_nodata : bool)
    (threshold : Q) (base : option metadata) (it : nat * string)
    : list string * outcome (option metadata) :=
  let '(index, raster) := it in
  match raster_to_metadata raster with
  | inl e => ([], Raised e)
  | inr meta =>
      if decide (index = 0%nat) then ([], Continue (Some meta))
      else
        match base with
        | None => ([], Raised TypeError)
        | Some b =>
            let '(out, go_on) :=
              compare same_extent same_dtype same_nodata threshold b meta in
            if go_on then (out, Continue base) else (out, Returned false)
        end
  end.

(** [rasters_are_aligned(rasters, same_extent=..., same_dtype=...,
    same_nodata=..., threshold=...)]: the lines printed and the result. *)
Definition rasters_are_aligned (rasters : list string)
    (same_extent same_dtype same_nodata : bool) (threshold : Q)
    : list string * (error + bool) :=
  match rasters with
  | [raster] =>
      if negb (is_raster raster) then
        ([], inl (ValueError ("Input raster is invalid. " +:+ raster)))
      else ([], inr true)
  | _ =>
      match for_each_out
              (aligned_body same_extent same_dtype same_nodata threshold)
              (imap pair rasters) None with
      | (out, Raised e) => (out, inl e)
      | (out, Returned b) => (out, inr b)
      | (out, Continue _) => (out, inr true)
      end
  end.

End rasters_are_aligned.

(** The pixel sizes and the origins of [m] and [b] differ by [t] at
    most. *)
Definition close (t : Q) (m b : metadata) : Prop :=
  Qabs (pixel_width m - pixel_width b) <= t ∧
  Qabs (pixel_height m - pixel_height b) <= t ∧
  Qabs (x_min m - x_min b) <= t ∧
  Qabs (y_max m - y_max b) <= t.

(** Two rasters of 100 by 100 pixels whose pixel widths differ by a
    tenth of the default threshold, and whose nodata values differ. *)
Definition raster_a : dataset :=
  {| ds_name := "a";
     ds_transform :=
       {| gt0 := 0; gt1 := 10; gt2 := 0; gt3 := 100; gt4 := 0; gt5 := -10 |};
     ds_projection := "EPSG:32632";
     ds_x_size := 100; ds_y_size := 100;
     ds_datatype := "float32"; ds_nodata := Some (-9999) |}.

Definition raster_b : dataset :=
  {| ds_name := "b";
     ds_transform :=
       {| gt0 := 0; gt1 := 100001 # 10000; gt2 := 0; gt3 := 100; gt4 := 0;
          gt5 := -10 |};
     ds_projection := "EPSG:32632";
     ds_x_size := 100; ds_y_size := 100;
     ds_datatype := "float32"; ds_nodata := None |}.

Definition open_example (raster : string) : string + dataset :=
  if String.eqb raster "a.tif" then inr raster_a
  else if String.eqb raster "b.tif" then inr raster_b
  else inl ("Could not open raster: " +:+ raster).

Definition is_raster_example (raster : string) : bool :=
  String.eqb raster "a.tif" || String.eqb raster "b.tif".

End core_raster.

(** ** The call of clip_raster

    [mosaic_s1] imports [clip_raster] from [buteo/raster/clip.py] and
    calls it with two positional arguments and the keywords [out_path],
    [postfix], [adjust_bbox] and [all_touch].  A parameter is a name
    together with whether it has a default; the function has no
    [*args] and no [**kwargs]. *)

(** Why the arguments of a call cannot be bound to the parameters. *)
Inductive call_error :=
  | TooManyPositional
  | UnexpectedKeyword (k : string)
  | MultipleValues (k : string)
  | MissingArgument (p : string).

(** Binding [positional] arguments and the arguments named [keywords]
    to [parameters]: the error, if there is one. *)
Definition bind_arguments (parameters : list (string * bool))
    (positional : nat) (keywords : list string) : option call_error :=
  let names := parameters.*1 in
  match filter (λ k, k ∉ names) keywords with
  | k :: _ => Some (UnexpectedKeyword k)
  | [] =>
      match filter (λ k, k ∈ take positional names) keywords with
      | k :: _ => Some (MultipleValues k)
      | [] =>
          if decide (length parameters < positional)%nat then
            Some TooManyPositional
          else
            match filter (λ p : string * bool, p.2 = false ∧ p.1 ∉ keywords)
                    (drop positional parameters) with
            | p :: _ => Some (MissingArgument p.1)
            | [] => None
            end
      end
  end.

(** The text of the [TypeError]. *)
Definition call_error_message (f : string) (e : call_error) : string :=
  match e with
  | TooManyPositional => f +:+ "() takes too many positional arguments"
  | UnexpectedKeyword k =>
      f +:+ "() got an unexpected keyword argument '" +:+ k +:+ "'"
  | MultipleValues k =>
      f +:+ "() got multiple values for argument '" +:+ k +:+ "'"
  | MissingArgument p =>
      f +:+ "() missing 1 required positional argument: '" +:+ p +:+ "'"
  end.

(** The parameters of [clip_raster]. *)
Definition clip_raster_parameters : list (string * bool) :=
  [("raster", false); ("clip_geom", false); ("out_path", true);
   ("resample_alg", true); ("crop_to_geom", true); ("adjust_bbox", true);
   ("all_touch", true); ("overwrite", true); ("creation_options", true);
   ("dst_nodata", true); ("layer_to_clip", true)].

(** The keywords of the call in [mosaic_s1]. *)
Definition clip_raster_keywords : list string :=
  ["out_path"; "postfix"; "adjust_bbox"; "all_touch"].

(** The call [clip_raster(reprojected, master_raster, out_path=...,
    postfix="", adjust_bbox=True, all_touch=False)], [body] being what
    the function does once its arguments are bound. *)
Definition clip_raster_call (body : string → string → string → string + string)
    (raster clip_geom out_path : string) : string + string :=
  match bind_arguments clip_raster_parameters 2 clip_raster_keywords with
  | Some e => inl (call_error_message "clip_raster" e)
  | None => body raster clip_geom out_path
  end.

(** * Properties *)

(** ** Exceptions of a computation *)

(** Every exception [m] can end with satisfies [P]. *)
Definition raises_only {A} (P : exn → Prop) (m : M A) : Prop :=
  ∀ w e w', m w = (inl e, w') → P e.

Lemma raises_only_ret {A} P (a : A) : raises_only P (mret a).
Proof. intros w e w' H. discriminate. Qed.

Lemma raises_only_raise {A} (P : exn → Prop) e :
  P e → raises_only P (@raise A e).
Proof. intros HP w e' w' H. injection H as <- _. exact HP. Qed.

Lemma raises_only_bind {A B} P (m : M A) (f : A → M B) :
  raises_only P m → (∀ a, raises_only P (f a)) → raises_only P (m ≫= f).
Proof.
  intros Hm Hf w e w'. unfold mbind, M_bind.
  destruct (m w) as [[e0|a] w0] eqn:E.
  - intros H. injection H as <- _. eapply Hm, E.
  - apply Hf.
Qed.

Lemma raises_only_lift {A} (P : exn → Prop) (r : string + A) :
  (∀ msg, P (ExternalError msg)) → raises_only P (lift r).
Proof.
  intros HP w e w'. unfold lift. destruct r; intros H.
  - injection H as <- _. apply HP.
  - discriminate.
Qed.

Lemma raises_only_print P s : raises_only P (print s).
Proof. intros w e w' H. discriminate. Qed.

Lemma raises_only_record_call P c : raises_only P (record_call c).
Proof. intros w e w' H. discriminate. Qed.

Lemma raises_only_np_save P path a : raises_only P (np_save path a).
Proof. intros w e w' H. discriminate. Qed.

Lemma raises_only_np_load (P : exn → Prop) path :
  (∀ p, P (FileNotFoundError p)) → raises_only P (np_load path).
Proof.
  intros HP w e w'. unfold np_load. destruct (files w !! path); intros H.
  - discriminate.
  - injection H as <- _. apply HP.
Qed.

Lemma raises_only_array_to_raster P a m o :
  raises_only P (array_to_raster a m o).
Proof. intros w e w' H. discriminate. Qed.

Lemma raises_only_for_each_M {S I} P (body : S → I → M S) l :
  (∀ s i, raises_only P (body s i)) → ∀ s, raises_only P (for_each_M body l s).
Proof.
  intros Hb. induction l as [|i l IH]; intros s; simpl.
  - apply raises_only_ret.
  - apply raises_only_bind; [apply Hb | apply IH].
Qed.

Lemma raises_only_s1_collapse_call (P : exn → Prop) arr off ws fw o :
  P TypingError → P IndexError →
  raises_only P (s1_collapse_call arr off ws fw o).
Proof.
  intros HT HI. unfold s1_collapse_call. destruct fw.
  - destruct (s1_collapse _ _ _ _ _).
    + apply raises_only_ret.
    + by apply raises_only_raise.
  - by apply raises_only_raise.
Qed.

Create HintDb raises.
#[local] Hint Resolve raises_only_ret raises_only_print raises_only_record_call
  raises_only_np_save raises_only_array_to_raster : raises.

Lemma not_precondition_external msg : ¬ precondition_error (ExternalError msg).
Proof. intros [H|H]; discriminate. Qed.

Lemma raises_only_process_aligned ck rta raa uid al out tmp chunks master nd fw :
  raises_only (λ e, ¬ precondition_error e)
    (process_aligned ck rta raa uid al out tmp chunks master nd fw).
Proof.
  assert (HX : ∀ msg, ¬ precondition_error (ExternalError msg))
    by apply not_precondition_external.
  assert (HT : ¬ precondition_error TypingError) by (intros [H|H]; discriminate).
  assert (HI : ¬ precondition_error IndexError) by (intros [H|H]; discriminate).
  assert (HF : ∀ p, ¬ precondition_error (FileNotFoundError p))
    by (intros p [H|H]; discriminate).
  unfold process_aligned. destruct (ck (length al)) as [offsets weights].
  apply raises_only_bind; [by apply raises_only_lift|intros arr].
  apply raises_only_bind.
  { destruct fw; [|apply raises_only_ret].
    apply raises_only_bind; [by apply raises_only_lift|intros; apply raises_only_ret]. }
  intros fwa. destruct (negb _).
  { apply raises_only_raise. intros [H|H]; discriminate. }
  destruct (1 <? chunks)%Z.
  - apply raises_only_bind; [auto with raises|intros _].
    apply raises_only_bind.
    { apply raises_only_for_each_M. intros cl c. unfold chunk_body.
      apply raises_only_bind; [auto with raises|intros _].
      repeat case_decide; cbv beta iota zeta;
        (apply raises_only_bind; [auto with raises|intros _]);
        (apply raises_only_bind; [by apply raises_only_s1_collapse_call|intros r]);
        (apply raises_only_bind; [auto with raises|intros _]);
        apply raises_only_ret. }
    intros cl. apply raises_only_bind; [auto with raises|intros _].
    apply raises_only_bind.
    { apply raises_only_for_each_M. intros mg c.
      apply raises_only_bind; [by apply raises_only_np_load|intros; apply raises_only_ret]. }
    intros mg. apply raises_only_bind; [auto with raises|intros _].
    apply raises_only_bind; [auto with raises|intros _]. apply raises_only_ret.
  - apply raises_only_bind; [auto with raises|intros _].
    apply raises_only_bind; [by apply raises_only_s1_collapse_call|intros r].
    apply raises_only_bind; [auto with raises|intros _].
    apply raises_only_bind; [auto with raises|intros _]. apply raises_only_ret.
Qed.

Lemma raises_only_clip_body rr ri cr pe stem total tmp master skip st it :
  raises_only (λ e, ¬ precondition_error e)
    (clip_body rr ri cr pe stem total tmp master skip st it).
Proof.
  assert (HX : ∀ msg, ¬ precondition_error (ExternalError msg))
    by apply not_precondition_external.
  unfold clip_body. destruct st as [clipped reprojected], it as [idx img].
  apply raises_only_bind; [apply raises_only_print|intros _].
  destruct (skip && pe _).
  - destruct reprojected.
    + apply raises_only_bind; [auto with raises|intros _].
      apply raises_only_bind; [apply raises_only_print|intros _].
      apply raises_only_ret.
    + apply raises_only_raise. intros [H|H]; discriminate.
  - apply raises_only_bind; [by apply raises_only_lift|intros r].
    apply raises_only_bind; [auto with raises|intros _].
    destruct (negb _).
    + apply raises_only_bind; [auto with raises|intros _].
      apply raises_only_bind; [auto with raises|intros _].
      apply raises_only_bind; [apply raises_only_print|intros _].
      apply raises_only_bind; [auto with raises|intros _].
      apply raises_only_ret.
    + apply raises_only_bind; [by apply raises_only_lift|intros c].
      apply raises_only_bind; [auto with raises|intros _].
      apply raises_only_bind; [auto with raises|intros _].
      apply raises_only_bind; [apply raises_only_print|intros _].
      apply raises_only_ret.
Qed.

(** C9. [mosaic_s1] ends with one of its two argument errors, leaving
    the world as it was (nothing computed, printed or written), when its
    input is not a list or is a list of fewer than two rasters; on a list
    of at least two rasters it never ends with such an error, whatever the
    collaborators do. *)
Theorem mosaic_s1_precondition ck rta raa uid rr ri cr ar cp pe stem
    v out tmp master nd chunks fb fd skip (w : world) :
  let run := mosaic_s1 ck rta raa uid rr ri cr ar cp pe stem
               v out tmp master nd chunks fb fd skip w in
  (¬ valid_input v → ∃ e, precondition_error e ∧ run = (inl e, w)) ∧
  (valid_input v → ∀ e, run.1 = inl e → ¬ precondition_error e).
Proof.
  assert (HX : ∀ msg, ¬ precondition_error (ExternalError msg))
    by apply not_precondition_external.
  simpl. split.
  - intros Hv. destruct v as [l| | |]; simpl in *;
      try (eexists; split; [left; reflexivity|reflexivity]).
    case_decide; [|lia].
    eexists; split; [right; reflexivity|reflexivity].
  - intros Hv e He. destruct v as [l| | |]; simpl in *; try done.
    case_decide; [lia|].
    match type of He with (?m w).1 = _ =>
      destruct (m w) as [r w'] eqn:E; simpl in He; subst r; revert E;
      generalize w, e, w'; change (raises_only (λ e, ¬ precondition_error e) m)
    end.
    apply raises_only_bind.
    { apply raises_only_for_each_M. intros. apply raises_only_clip_body. }
    intros st.
    apply raises_only_bind; [auto with raises|intros _].
    apply raises_only_bind; [by apply raises_only_lift|intros al].
    apply raises_only_bind; [auto with raises|intros _].
    apply raises_only_bind.
    { destruct fb; [|apply raises_only_ret].
      apply raises_only_bind; [auto with raises|intros _].
      apply raises_only_bind; [by apply raises_only_lift|intros f].
      apply raises_only_bind; [auto with raises|intros _]. apply raises_only_ret. }
    intros f. apply raises_only_bind; [auto with raises|intros _].
    apply raises_only_process_aligned.
Qed.

(** ** The position loops of s1_collapse *)

Lemma gather_set_result m r o x y :
  gather (set_result m r) o x y = gather m o x y.
Proof. reflexivity. Qed.

Lemma pixel_out_set_result m r o x y :
  pixel_out (set_result m r) o x y = pixel_out m o x y.
Proof. reflexivity. Qed.

Lemma set_result_id m : set_result m (m_result m) = m.
Proof. by destruct m. Qed.

Lemma set_result_set_result m r r' :
  set_result (set_result m r) r' = set_result m r'.
Proof. reflexivity. Qed.

Lemma pixel_body_eq o x m y :
  pixel_body o x m y =
  r ← pixel_out m o x y;
  Some (set_result m
          (alter (λ row, match r with Some v => <[y := v]> row | None => row end)
             x (m_result m))).
Proof.
  unfold pixel_body, pixel_out.
  destruct (gather m o x y) as [h|]; simpl; [|done].
  destruct (aggregate o h) as [[v|]|]; simpl; try done.
  by rewrite list_alter_id, set_result_id.
Qed.

Lemma inner_loop o x k : ∀ y0 m,
  for_each (pixel_body o x) (seq y0 k) m =
  vs ← mapM (pixel_out m o x) (seq y0 k);
  Some (set_result m (alter (writes y0 vs) x (m_result m))).
Proof.
  induction k as [|k IH]; intros y0 m; simpl.
  - by rewrite list_alter_id, set_result_id.
  - rewrite pixel_body_eq.
    destruct (pixel_out m o x y0) as [r|]; simpl; [|done].
    rewrite IH. simpl.
    erewrite (mapM_ext _ (pixel_out m o x)); [|done].
    destruct (mapM _ _) as [vs|]; simpl; [|done].
    by rewrite list_alter_alter_eq.
Qed.

Lemma row_body_eq o m x :
  row_body o m x =
  vs ← mapM (pixel_out m o x) (seq 0 (shape1 (m_arr m)));
  Some (set_result m (alter (writes 0 vs) x (m_result m))).
Proof. apply inner_loop. Qed.

Lemma outer_loop o k : ∀ x0 m,
  for_each (row_body o) (seq x0 k) m =
  vss ← mapM (λ x, mapM (pixel_out m o x) (seq 0 (shape1 (m_arr m)))) (seq x0 k);
  Some (set_result m (row_writes x0 vss (m_result m))).
Proof.
  induction k as [|k IH]; intros x0 m; simpl.
  - by rewrite set_result_id.
  - rewrite row_body_eq.
    destruct (mapM _ _) as [vs|]; simpl; [|done].
    rewrite IH. simpl.
    by destruct (mapM _ _) as [vss|].
Qed.

Lemma writes_replicate init vs : ∀ pre,
  writes (length pre) vs (pre ++ replicate (length vs) init) =
  pre ++ map (default init) vs.
Proof.
  induction vs as [|v vs IH]; intros pre; simpl; [done|].
  assert (E : match v with
              | Some v0 => <[length pre := v0]> (pre ++ init :: replicate (length vs) init)
              | None => pre ++ init :: replicate (length vs) init
              end = (pre ++ [default init v]) ++ replicate (length vs) init).
  { rewrite <- app_assoc. simpl. destruct v as [v|]; simpl; [|done].
    rewrite insert_app_r_alt by lia. by rewrite Nat.sub_diag. }
  rewrite E. replace (S (length pre)) with (length (pre ++ [default init v]))
    by (rewrite length_app; simpl; lia).
  rewrite IH. by rewrite <- app_assoc.
Qed.

Lemma row_writes_full init cols vss :
  Forall (λ vs, length vs = cols) vss → ∀ pre,
  row_writes (length pre) vss (pre ++ replicate (length vss) (replicate cols init)) =
  pre ++ map (map (default init)) vss.
Proof.
  induction 1 as [|vs vss Hvs _ IH]; intros pre; simpl; [done|].
  assert (E : alter (writes 0 vs) (length pre)
                (pre ++ replicate cols init :: replicate (length vss) (replicate cols init)) =
              (pre ++ [map (default init) vs]) ++
                replicate (length vss) (replicate cols init)).
  { rewrite <- app_assoc. simpl. rewrite alter_app_r_alt by lia.
    rewrite Nat.sub_diag. simpl. f_equal. f_equal.
    rewrite <- Hvs. apply (writes_replicate init vs []). }
  rewrite E. replace (S (length pre)) with (length (pre ++ [map (default init) vs]))
    by (rewrite length_app; simpl; lia).
  rewrite IH. by rewrite <- app_assoc.
Qed.

Lemma mapM_all_length {A B} (f : A → nat → option B) (l : list A) cols vss :
  mapM (λ x, mapM (f x) (seq 0 cols)) l = Some vss →
  length vss = length l ∧ Forall (λ vs, length vs = cols) vss.
Proof.
  intros H. apply mapM_Some in H. split.
  - symmetry. eapply Forall2_length, H.
  - induction H as [|x vs l vss Hx _ IH]; constructor; [|done].
    apply mapM_Some, Forall2_length in Hx. by rewrite length_seq in Hx.
Qed.

(** The result of [s1_collapse]: at every position the value the body
    assigns, or the initial value where it assigns nothing. *)
Lemma s1_collapse_eq arr off ws fw o :
  s1_collapse arr off ws fw o =
  map (map (default (initial_value o))) <$>
    mapM (λ x, mapM (pixel_out (inputs arr off ws fw) o x) (seq 0 (shape1 arr)))
      (seq 0 (shape0 arr)).
Proof.
  unfold s1_collapse, s1_collapse_mem. simpl.
  replace (if nodata o then full2 (shape0 arr) (shape1 arr) (nodata_value o)
           else full2 (shape0 arr) (shape1 arr) 0)
    with (full2 (shape0 arr) (shape1 arr) (initial_value o))
    by (unfold initial_value; by destruct (nodata o)).
  rewrite outer_loop. simpl.
  change (pixel_out _ o) with (pixel_out (inputs arr off ws fw) o).
  destruct (mapM _ _) as [vss|] eqn:E; simpl; [|done].
  apply mapM_all_length in E as [Hl Hc]. rewrite length_seq in Hl.
  f_equal. unfold full2. rewrite <- Hl.
  apply (row_writes_full _ _ _ Hc []).
Qed.

(** ** Sorting *)

Lemma Qle_bool_false a b : Qle_bool a b = false → b < a.
Proof.
  intros H. apply Qnot_le_lt. intros Hle. apply Qle_bool_iff in Hle. congruence.
Qed.

Lemma insert_value_perm v l : np.insert_value v l ≡ₚ v :: l.
Proof.
  induction l as [|u l IH]; simpl; [done|].
  destruct (Qle_bool v u); [done|]. rewrite IH. apply Permutation_swap.
Qed.

Lemma sort_perm a : np.sort a ≡ₚ a.
Proof.
  induction a as [|v a IH]; simpl; [done|].
  unfold np.sort in *. simpl. by rewrite insert_value_perm, IH.
Qed.

Lemma sort_length a : length (np.sort a) = length a.
Proof. apply Permutation_length, sort_perm. Qed.

Lemma insert_value_ascending v l :
  ascendingQ l → ascendingQ (np.insert_value v l).
Proof.
  induction l as [|u l IH]; simpl; [done|]. intros [Hu Hl].
  destruct (Qle_bool v u) eqn:E; simpl.
  - apply Qle_bool_iff in E. done.
  - apply Qle_bool_false in E. split; [|by apply IH].
    destruct l as [|u' l]; simpl.
    + by apply Qlt_le_weak.
    + destruct (Qle_bool v u'); [by apply Qlt_le_weak|done].
Qed.

Lemma sort_ascending a : ascendingQ (np.sort a).
Proof.
  induction a as [|v a IH]; simpl; [done|]. by apply insert_value_ascending.
Qed.

Lemma insert_by_value_perm p l : np.insert_by_value p l ≡ₚ p :: l.
Proof.
  induction l as [|q l IH]; simpl; [done|].
  destruct (Qle_bool _ _); [done|]. rewrite IH. apply Permutation_swap.
Qed.

Lemma sort_indexed_perm values :
  np.sort_indexed values ≡ₚ zip (seq 0 (length values)) values.
Proof.
  unfold np.sort_indexed. generalize (zip (seq 0 (length values)) values).
  induction l as [|p l IH]; simpl; [done|]. by rewrite insert_by_value_perm, IH.
Qed.

Lemma insert_by_value_snd p l :
  (np.insert_by_value p l).*2 = np.insert_value p.2 l.*2.
Proof.
  induction l as [|q l IH]; csimpl; [done|].
  destruct (Qle_bool _ _); csimpl; [done|]. by rewrite IH.
Qed.

Lemma sort_indexed_snd values : (np.sort_indexed values).*2 = np.sort values.
Proof.
  unfold np.sort_indexed, np.sort.
  assert (H : ∀ (idx : list nat) vs, length idx = length vs →
            (foldr np.insert_by_value [] (zip idx vs)).*2 =
            foldr np.insert_value [] vs).
  { intros idx vs. revert idx. induction vs as [|v vs IH]; intros [|i idx] Hl;
      simpl in Hl; try done.
    cbn [zip_with foldr]. rewrite insert_by_value_snd.
    cbn [snd foldr]. rewrite IH; [done|lia]. }
  apply H. by rewrite length_seq.
Qed.

Lemma argsort_perm values : np.argsort values ≡ₚ seq 0 (length values).
Proof.
  unfold np.argsort. rewrite sort_indexed_perm.
  rewrite fst_zip; [done|]. by rewrite length_seq.
Qed.

Lemma argsort_length values : length (np.argsort values) = length values.
Proof. rewrite argsort_perm. apply length_seq. Qed.

Lemma sort_indexed_lookup values i v :
  (i, v) ∈ np.sort_indexed values → values !! i = Some v.
Proof.
  rewrite sort_indexed_perm. intros H.
  apply list_elem_of_lookup in H as [k Hk].
  apply lookup_zip_with_Some in Hk as (i' & v' & E & Hi & Hv).
  injection E as <- <-. apply lookup_seq in Hi as [-> _]. done.
Qed.

(** The data in the order of [argsort] is the sorted data. *)
Lemma take_argsort values :
  np.take values (np.argsort values) = Some (np.sort values).
Proof.
  unfold np.take, np.argsort. rewrite <- sort_indexed_snd.
  apply mapM_Some. apply Forall2_fmap.
  apply Forall_Forall2_diag, Forall_forall. intros [i v] Hin. simpl.
  by apply sort_indexed_lookup.
Qed.

(** An array indexed by a permutation of its indices. *)
Lemma take_perm (a : list Q) idx :
  idx ≡ₚ seq 0 (length a) → ∃ b, np.take a idx = Some b ∧ b ≡ₚ a.
Proof.
  intros Hp. unfold np.take.
  assert (Hall : Forall (λ i, is_Some (a !! i)) idx).
  { rewrite Hp. apply Forall_forall. intros i Hi.
    apply elem_of_seq in Hi. apply lookup_lt_is_Some. lia. }
  assert (Hex : ∃ b, mapM (a !!.) idx = Some b).
  { clear Hp. induction Hall as [|i idx [v Hv] _ [b IH]]; simpl; [by eexists|].
    rewrite Hv, IH. by eexists. }
  destruct Hex as [b Hb]. exists b. split; [done|].
  assert (Hgen : ∀ idx1 idx2 b1 b2, idx1 ≡ₚ idx2 →
            mapM (a !!.) idx1 = Some b1 → mapM (a !!.) idx2 = Some b2 → b1 ≡ₚ b2).
  { intros idx1 idx2 b1 b2 HP. revert b1 b2.
    induction HP as [|i l1 l2 _ IH|i j l|l1 l2 l3 HP1 IH1 _ IH2]; intros b1 b2; simpl.
    - by intros [= <-] [= <-].
    - destruct (a !! i); simpl; [|done].
      destruct (mapM _ l1) as [c1|]; [|done]. destruct (mapM _ l2) as [c2|]; [|done].
      simpl. intros [= <-] [= <-]. constructor. by apply IH.
    - destruct (a !! i), (a !! j); simpl; try done.
      destruct (mapM _ l) as [c|]; [|done]. simpl. intros [= <-] [= <-].
      apply Permutation_swap.
    - intros H1 H3.
      assert (∃ c, mapM (a !!.) l2 = Some c) as [c Hc].
      { apply mapM_is_Some. assert (H1' : is_Some (mapM (a !!.) l1)) by (by eexists).
        apply mapM_is_Some in H1'. by rewrite <- HP1. }
      etrans; [by eapply IH1|by eapply IH2]. }
  eapply Hgen; [exact Hp|exact Hb|].
  clear. apply mapM_Some. apply Forall2_same_length_lookup. split.
  - apply length_seq.
  - intros i j v Hj Hv. apply lookup_seq in Hj as [-> _]. done.
Qed.

(** ** Interpolation *)

Section segment.
Variables x0 x1 f0 f1 : Q.
Hypothesis Hx : x0 < x1.
Hypothesis Hf : f0 <= f1.

Let slope := (f1 - f0) / (x1 - x0).

Lemma slope_nonneg : 0 <= slope.
Proof. apply Qle_shift_div_l; lra. Qed.

Lemma slope_run : slope * (x1 - x0) == f1 - f0.
Proof. unfold slope. field. lra. Qed.

Lemma segment_mono a b :
  a <= b → slope * (a - x0) + f0 <= slope * (b - x0) + f0.
Proof. intros Hab. pose proof slope_nonneg. nra. Qed.

Lemma segment_lower a : x0 <= a → f0 <= slope * (a - x0) + f0.
Proof. intros Ha. pose proof slope_nonneg. nra. Qed.

Lemma segment_upper a : a <= x1 → slope * (a - x0) + f0 <= f1.
Proof. intros Ha. pose proof slope_nonneg. pose proof slope_run. nra. Qed.
End segment.

Lemma interp_search_lower x rest : ∀ x0 f0,
  ascending x0 f0 rest → x0 <= x → f0 <= np.interp_search x x0 f0 rest.
Proof.
  induction rest as [|[x1 f1] rest IH]; intros x0 f0; simpl.
  - intros _ _. lra.
  - intros (Hx & Hf & Hasc) Hx0.
    destruct (Qle_bool x1 x) eqn:E1.
    + apply Qle_bool_iff in E1. specialize (IH _ _ Hasc E1). lra.
    + apply Qle_bool_false in E1. destruct (Qeq_bool x0 x); [lra|].
      apply segment_lower; lra.
Qed.

Lemma interp_search_mono x x' rest : ∀ x0 f0,
  ascending x0 f0 rest → x0 <= x → x <= x' →
  np.interp_search x x0 f0 rest <= np.interp_search x' x0 f0 rest.
Proof.
  induction rest as [|[x1 f1] rest IH]; intros x0 f0; simpl.
  - intros _ _ _. lra.
  - intros (Hx & Hf & Hasc) Hx0 Hxx'.
    destruct (Qle_bool x1 x) eqn:E1.
    + apply Qle_bool_iff in E1.
      assert (E2 : Qle_bool x1 x' = true) by (apply Qle_bool_iff; lra).
      rewrite E2. by apply IH.
    + apply Qle_bool_false in E1.
      assert (Hup : (if Qeq_bool x0 x then f0
                     else (f1 - f0) / (x1 - x0) * (x - x0) + f0) <= f1).
      { destruct (Qeq_bool x0 x); [lra|]. apply segment_upper; lra. }
      destruct (Qle_bool x1 x') eqn:E2.
      * apply Qle_bool_iff in E2.
        pose proof (interp_search_lower x' rest x1 f1 Hasc E2). lra.
      * apply Qle_bool_false in E2.
        destruct (Qeq_bool x0 x) eqn:E3, (Qeq_bool x0 x') eqn:E4.
        -- lra.
        -- apply segment_lower; lra.
        -- apply Qeq_bool_iff in E4. apply Qeq_bool_neq in E3. lra.
        -- apply segment_mono; lra.
Qed.

Lemma last_cons_default {A} (rest : list A) : ∀ p d,
  List.last (p :: rest) d = List.last rest p.
Proof.
  induction rest as [|q rest IH]; intros p d; [done|].
  change (List.last (q :: rest) d = List.last (q :: rest) p).
  by rewrite !IH.
Qed.

Lemma ascending_last x0 f0 rest :
  ascending x0 f0 rest →
  x0 <= (List.last rest (x0, f0)).1 ∧ f0 <= (List.last rest (x0, f0)).2.
Proof.
  revert x0 f0. induction rest as [|[x1 f1] rest IH]; intros x0 f0.
  - simpl. lra.
  - intros (Hx & Hf & Hasc). specialize (IH _ _ Hasc).
    rewrite last_cons_default. lra.
Qed.

Lemma interp_search_upper x rest : ∀ x0 f0,
  ascending x0 f0 rest → x0 <= x →
  np.interp_search x x0 f0 rest <= (List.last rest (x0, f0)).2.
Proof.
  induction rest as [|[x1 f1] rest IH]; intros x0 f0.
  - simpl. intros _ _. lra.
  - intros (Hx & Hf & Hasc) Hx0.
    rewrite last_cons_default. simpl. destruct (Qle_bool x1 x) eqn:E1.
    + apply Qle_bool_iff in E1. by apply IH.
    + apply Qle_bool_false in E1.
      pose proof (ascending_last _ _ _ Hasc) as [_ Hl].
      destruct (Qeq_bool x0 x); [lra|].
      eapply Qle_trans; [apply segment_upper; lra|done].
Qed.

(** [np.interp] on ascending knots does not decrease with the point. *)
Lemma interp_mono xp fp x x' r r' :
  match zip xp fp with
  | [] => True
  | (x0, f0) :: rest => ascending x0 f0 rest
  end →
  x <= x' → np.interp x xp fp = Some r → np.interp x' xp fp = Some r' → r <= r'.
Proof.
  unfold np.interp. intros Hasc Hxx'. case_decide; [|done].
  destruct (zip xp fp) as [|[x0 f0] rest]; [done|].
  pose proof (ascending_last _ _ _ Hasc) as [Hlx Hlf].
  destruct (List.last rest (x0, f0)) as [xl fl] eqn:El. simpl in *.
  destruct (Qle_bool x xl) eqn:E1, (Qle_bool x' xl) eqn:E2; simpl;
    destruct (Qle_bool x0 x) eqn:E3, (Qle_bool x0 x') eqn:E4; simpl;
    intros [= <-] [= <-];
    repeat match goal with
      | H : Qle_bool _ _ = true |- _ => apply Qle_bool_iff in H
      | H : Qle_bool _ _ = false |- _ => apply Qle_bool_false in H
      end; try lra.
  - by apply interp_search_mono.
  - by apply interp_search_lower.
  - pose proof (interp_search_upper x rest x0 f0 Hasc E3) as Hu.
    by rewrite El in Hu.
Qed.

(** ** hood_quantile on well-formed arguments *)

Lemma sumQ_perm l l' : l ≡ₚ l' → sumQ l == sumQ l'.
Proof.
  induction 1 as [|v l l' _ IH|u v l|l1 l2 l3 _ IH1 _ IH2]; simpl.
  - reflexivity.
  - rewrite IH. reflexivity.
  - ring.
  - rewrite IH1. exact IH2.
Qed.

Lemma cumsum_from_length l : ∀ acc, length (np.cumsum_from acc l) = length l.
Proof. induction l as [|v l IH]; intros acc; simpl; [done|]. by rewrite IH. Qed.

Lemma cumsum_from_last l : ∀ acc T,
  last (np.cumsum_from acc l) = Some T → T == acc + sumQ l.
Proof.
  induction l as [|v l IH]; intros acc T; simpl; [done|].
  destruct l as [|u l].
  - simpl. intros [= <-]. ring.
  - intros H. change (last (np.cumsum_from (acc + v) (u :: l)) = Some T) in H.
    apply IH in H. rewrite H. simpl. ring.
Qed.

Lemma cumsum_from_lookup l : ∀ acc i c,
  np.cumsum_from acc l !! i = Some c → c == acc + sumQ (take (S i) l).
Proof.
  induction l as [|v l IH]; intros acc i c; simpl; [done|].
  destruct i as [|i]; simpl.
  - intros [= <-]. destruct l; simpl; ring.
  - intros H. apply IH in H. rewrite H. simpl. ring.
Qed.

(** The parts of [hood_quantile] when there is one weight per value. *)
Lemma hood_quantile_unfold values weights :
  values ≠ [] → length weights = length values →
  ∃ sw T,
    sw ≡ₚ weights ∧
    np.take weights (np.argsort values) = Some sw ∧
    last (np.cumsum sw) = Some T ∧
    T == sumQ weights ∧
    ∀ q, hood_quantile values weights q =
         np.interp q (zip_with (λ c w, (c - (1 # 2) * w) / T) (np.cumsum sw) sw)
           (np.sort values).
Proof.
  intros Hne Hlen.
  destruct (take_perm weights (np.argsort values)) as (sw & Hsw & Hp).
  { rewrite Hlen. apply argsort_perm. }
  assert (Hswl : length sw = length values)
    by (by rewrite (Permutation_length Hp)).
  destruct (last (np.cumsum sw)) as [T|] eqn:HT.
  - exists sw, T. repeat split; try done.
    + apply cumsum_from_last in HT. rewrite HT, (sumQ_perm _ _ Hp). ring.
    + intros q. unfold hood_quantile. rewrite take_argsort, Hsw. simpl.
      by rewrite HT.
  - apply last_None in HT. apply (f_equal length) in HT.
    unfold np.cumsum in HT. rewrite cumsum_from_length in HT. simpl in HT.
    destruct values; [done|]. simpl in *. lia.
Qed.

Lemma interp_is_Some q xp fp :
  length xp = length fp → fp ≠ [] → is_Some (np.interp q xp fp).
Proof.
  intros Hl Hne. unfold np.interp. case_decide; [|done].
  destruct xp as [|x0 xp], fp as [|f0 fp]; try done. simpl.
  destruct (List.last _ _). by repeat case_match.
Qed.

Lemma hood_quantile_is_Some values weights q :
  values ≠ [] → length weights = length values →
  is_Some (hood_quantile values weights q).
Proof.
  intros Hne Hlen.
  destruct (hood_quantile_unfold values weights Hne Hlen)
    as (sw & T & Hp & _ & _ & _ & ->).
  apply interp_is_Some.
  - unfold np.cumsum.
    rewrite length_zip_with, cumsum_from_length, sort_length.
    rewrite (Permutation_length Hp). lia.
  - intros E. apply (f_equal length) in E. rewrite sort_length in E.
    by destruct values.
Qed.

Lemma knots_ascending T :
  0 < T → ∀ ws ds acc x0 f0,
  Forall (λ w, 0 <= w) ws → ascendingQ (f0 :: ds) → x0 <= acc / T →
  ascending x0 f0
    (zip (zip_with (λ c w, (c - (1 # 2) * w) / T) (np.cumsum_from acc ws) ws) ds).
Proof.
  intros HT. induction ws as [|w ws IH]; intros ds acc x0 f0 Hws Hds Hx0.
  - done.
  - destruct ds as [|d ds]; [done|]. simpl.
    apply Forall_cons in Hws as [Hw Hws]. destruct Hds as [Hf Hds].
    assert (Hinv : 0 <= / T) by (apply Qinv_le_0_compat; lra).
    assert (H1 : acc / T <= (acc + w - (1 # 2) * w) / T).
    { unfold Qdiv. apply Qmult_le_compat_r; lra. }
    assert (H2 : (acc + w - (1 # 2) * w) / T <= (acc + w) / T).
    { unfold Qdiv. apply Qmult_le_compat_r; lra. }
    split; [lra|]. split; [done|]. by apply IH.
Qed.

Lemma Forall_perm_nonneg (l l' : list Q) :
  l ≡ₚ l' → Forall (λ w, 0 <= w) l' → Forall (λ w, 0 <= w) l.
Proof. intros Hp H. by rewrite Hp. Qed.

(** C7. For a non-empty array of values and one non-negative weight per
    value, the weights having a positive sum, [hood_quantile] returns a
    value at every quantile and does not decrease with the quantile on
    [0, 1]. *)
Theorem hood_quantile_monotone values weights q1 q2 :
  values ≠ [] → length weights = length values →
  Forall (λ w, 0 <= w) weights → 0 < sumQ weights →
  0 <= q1 → q1 <= q2 → q2 <= 1 →
  ∃ r1 r2, hood_quantile values weights q1 = Some r1 ∧
           hood_quantile values weights q2 = Some r2 ∧ r1 <= r2.
Proof.
  intros Hne Hlen Hw Hsum _ Hq _.
  destruct (hood_quantile_is_Some values weights q1 Hne Hlen) as [r1 H1].
  destruct (hood_quantile_is_Some values weights q2 Hne Hlen) as [r2 H2].
  exists r1, r2. split; [done|]. split; [done|].
  destruct (hood_quantile_unfold values weights Hne Hlen)
    as (sw & T & Hp & _ & HT & HTs & Hq').
  rewrite Hq' in H1, H2. eapply interp_mono; [|exact Hq|exact H1|exact H2].
  assert (HTpos : 0 < T) by lra.
  apply (Forall_perm_nonneg _ _ Hp) in Hw.
  pose proof (sort_ascending values) as Hasc.
  destruct sw as [|w sw]; [done|]. destruct (np.sort values) as [|d ds]; [done|].
  simpl. apply Forall_cons in Hw as [Hw0 Hw].
  apply knots_ascending; try done.
  assert (Hinv : 0 <= / T) by (apply Qinv_le_0_compat; lra).
  unfold Qdiv. apply Qmult_le_compat_r; lra.
Qed.

(** ** hood_quantile with uniform weights *)




Lemma Qnat_add i j : Qnat (i + j) == Qnat i + Qnat j.
Proof. unfold Qnat. by rewrite Nat2Z.inj_add, inject_Z_plus. Qed.



Lemma interp_search_at x : ∀ j rest x0 f0 xj fj,
  ((x0, f0) :: rest) !! j = Some (xj, fj) →
  (∀ i xi fi, (1 ≤ i ≤ j)%nat → ((x0, f0) :: rest) !! i = Some (xi, fi) → xi <= x) →
  match ((x0, f0) :: rest) !! S j with
  | Some (xn, fn) => x < xn
  | None => True
  end →
  np.interp_search x x0 f0 rest =
  match ((x0, f0) :: rest) !! S j with
  | Some (xn, fn) =>
      if Qeq_bool xj x then fj else (fn - fj) / (xn - xj) * (x - xj) + fj
  | None => fj
  end.
Proof.
  induction j as [|j IH]; intros rest x0 f0 xj fj Hj Hle Hnext.
  - injection Hj as <- <-. destruct rest as [|[x1 f1] rest]; simpl in *; [done|].
    destruct (Qle_bool x1 x) eqn:E; [|done].
    apply Qle_bool_iff in E. lra.
  - destruct rest as [|[x1 f1] rest]; [done|].
    simpl. assert (E : Qle_bool x1 x = true).
    { apply Qle_bool_iff. apply (Hle 1%nat x1 f1); [lia|done]. }
    rewrite E. apply IH; [done| |done].
    intros i xi fi Hi. apply (Hle (S i)). lia.
Qed.

Lemma last_default_lookup {A} (rest : list A) : ∀ p,
  (p :: rest) !! length rest = Some (List.last rest p).
Proof.
  induction rest as [|q rest IH]; intros p; [done|].
  rewrite last_cons_default. apply IH.
Qed.

Section uniform.
Variable values : list Q.
Variable w : Q.
Hypothesis Hw : 0 < w.
Hypothesis Hne : values ≠ [].

Local Abbreviation n := (length values).
Local Abbreviation sw := (replicate (length values) w).

Variable T : Q.
Hypothesis HT : last (np.cumsum sw) = Some T.

Local Abbreviation knots :=
  (zip (zip_with (λ c w, (c - (1 # 2) * w) / T) (np.cumsum sw) sw)
     (np.sort values)).







End uniform.


(** ** The neighbourhood loop of s1_collapse *)

Lemma hood_step_eq m o x y h n :
  hood_step m o x y h n = s ← slot m o x y n; Some (store_slot h n s).
Proof.
  unfold hood_step, slot. destruct (m_offsets m !! n) as [off|]; simpl; [|done].
  destruct (candidate (m_arr m) x y off) as [[[ox oy] oz] outside].
  destruct (getitem3 (m_arr m) ox oy oz) as [value|]; simpl; [|done].
  destruct (outside || _); simpl; [done|].
  destruct (m_weights m !! n) as [w|]; simpl; [|done].
  by destruct (getitem3 (m_feather m) ox oy oz).
Qed.

Lemma neighbourhood_loop m o x y k : ∀ n0 h,
  for_each (hood_step m o x y) (seq n0 k) h =
  slots ← mapM (slot m o x y) (seq n0 k);
  Some {| hood_values := writes n0 (map (fmap fst) slots) (hood_values h);
          hood_weights := writes n0 (map (fmap snd) slots) (hood_weights h);
          weight_sum := foldl add_weight (weight_sum h) slots |}.
Proof.
  induction k as [|k IH]; intros n0 h; simpl.
  - by destruct h.
  - rewrite hood_step_eq. destruct (slot m o x y n0) as [s|]; simpl; [|done].
    rewrite IH. destruct (mapM _ _) as [slots|]; simpl; [|done].
    by destruct s as [[v wt]|].
Qed.

(** The neighbourhood gathered at a position, entry by entry. *)
Lemma gather_eq m o x y :
  gather m o x y =
  slots ← mapM (slot m o x y) (seq 0 (length (m_offsets m)));
  Some {| hood_values := map (λ s, default 0 (fst <$> s)) slots;
          hood_weights := map (λ s, default 0 (snd <$> s)) slots;
          weight_sum := foldl add_weight 0 slots |}.
Proof.
  unfold gather. rewrite neighbourhood_loop. simpl.
  destruct (mapM _ _) as [slots|] eqn:E; simpl; [|done].
  apply mapM_Some, Forall2_length in E. rewrite length_seq in E.
  rewrite E. f_equal. f_equal.
  - rewrite <- (length_map (fmap fst) slots).
    etrans; [apply (writes_replicate 0 _ [])|]. simpl. by rewrite map_map.
  - rewrite <- (length_map (fmap snd) slots).
    etrans; [apply (writes_replicate 0 _ [])|]. simpl. by rewrite map_map.
Qed.

Lemma foldl_add_weight slots : ∀ acc,
  foldl add_weight acc slots ==
  acc + sumQ (map (λ s, default 0 (snd <$> s)) slots).
Proof.
  induction slots as [|s slots IH]; intros acc; simpl.
  - ring.
  - rewrite IH. destruct s as [[v wt]|]; simpl; ring.
Qed.

Lemma foldl_add_weight_none slots acc :
  Forall (λ s, s = None) slots → foldl add_weight acc slots = acc.
Proof. induction 1 as [|s slots -> _ IH]; simpl; done. Qed.

(** ** Candidates and reads *)

Arguments candidate : simpl never.
Arguments getitem3 : simpl never.
Arguments axis_index : simpl never.

Lemma axis_index_in_range n i :
  (0 ≤ i < Z.of_nat n)%Z → axis_index n i = Some (Z.to_nat i).
Proof.
  intros H. unfold axis_index.
  destruct (i <? 0)%Z eqn:E; [lia|].
  destruct (0 <=? i)%Z eqn:E1; [|lia]. destruct (i <? Z.of_nat n)%Z eqn:E2; [|lia].
  done.
Qed.

Lemma axis_index_wrap n i :
  (- Z.of_nat n ≤ i < 0)%Z → axis_index n i = Some (Z.to_nat (i + Z.of_nat n)).
Proof.
  intros H. unfold axis_index.
  destruct (i <? 0)%Z eqn:E; [|lia].
  destruct (0 <=? i + Z.of_nat n)%Z eqn:E1; [|lia].
  destruct (i + Z.of_nat n <? Z.of_nat n)%Z eqn:E2; [|lia].
  done.
Qed.

Lemma axis_index_time d z :
  (1 ≤ d)%nat → (- ((Z.of_nat d - 1) `div` 2) ≤ z ≤ (Z.of_nat d - 1) `div` 2)%Z →
  is_Some (axis_index d z).
Proof.
  intros Hd Hz.
  assert (0 ≤ (Z.of_nat d - 1) `div` 2 ∧ 2 * ((Z.of_nat d - 1) `div` 2) ≤ Z.of_nat d - 1)%Z.
  { split; [apply Z.div_pos; lia|]. apply Z.mul_div_le. lia. }
  destruct (decide (z < 0)%Z).
  - rewrite axis_index_wrap by lia. by eexists.
  - rewrite axis_index_in_range by lia. by eexists.
Qed.

Lemma clamp_spec v lo hi outside :
  (lo ≤ hi)%Z →
  (lo ≤ (clamp v lo hi outside).1 ≤ hi)%Z ∧
  ((lo ≤ v ≤ hi)%Z → clamp v lo hi outside = (v, outside)) ∧
  (¬ (lo ≤ v ≤ hi)%Z → (clamp v lo hi outside).2 = true).
Proof.
  intros H. unfold clamp. rewrite Z.gtb_ltb.
  destruct (Z.ltb_spec v lo); [simpl; repeat split; intros; try lia; done|].
  destruct (Z.ltb_spec hi v); simpl; repeat split; intros; try lia; done.
Qed.

(** The candidate at a position of the stack: its clamped coordinates
    are indices of the stack; it is marked outside exactly when it is
    out of range, and otherwise its coordinates are not changed. *)
Lemma candidate_spec arr x y dx dy dz :
  (x < shape0 arr)%nat → (y < shape1 arr)%nat → (1 ≤ shape2 arr)%nat →
  ∃ ox oy oz outside,
    candidate arr x y (dx, dy, dz) = (ox, oy, oz, outside) ∧
    (0 ≤ ox < Z.of_nat (shape0 arr))%Z ∧ (0 ≤ oy < Z.of_nat (shape1 arr))%Z ∧
    is_Some (axis_index (shape2 arr) oz) ∧
    (out_of_range arr x y (dx, dy, dz) → outside = true) ∧
    (¬ out_of_range arr x y (dx, dy, dz) →
       outside = false ∧ ox = (Z.of_nat x + dx)%Z ∧ oy = (Z.of_nat y + dy)%Z ∧
       oz = dz).
Proof.
  intros Hx Hy Hz. unfold candidate, out_of_range. cbv beta iota zeta.
  set (x_adj := (Z.of_nat (shape0 arr) - 1)%Z).
  set (y_adj := (Z.of_nat (shape1 arr) - 1)%Z).
  set (z_adj := ((Z.of_nat (shape2 arr) - 1) `div` 2)%Z).
  assert (0 ≤ z_adj)%Z by (apply Z.div_pos; lia).
  destruct (clamp_spec dz (- z_adj) z_adj false) as (Hz1 & Hz2 & Hz3); [lia|].
  destruct (clamp dz (- z_adj) z_adj false) as [oz out1]. simpl in *.
  destruct (clamp_spec (Z.of_nat x + dx) 0 x_adj out1) as (Hx1 & Hx2 & Hx3);
    [lia|].
  destruct (clamp (Z.of_nat x + dx) 0 x_adj out1) as [ox out2]. simpl in *.
  destruct (clamp_spec (Z.of_nat y + dy) 0 y_adj out2) as (Hy1 & Hy2 & Hy3);
    [lia|].
  destruct (clamp (Z.of_nat y + dy) 0 y_adj out2) as [oy out3]. simpl in *.
  exists ox, oy, oz, out3. split; [done|].
  split; [lia|]. split; [lia|]. split; [by apply axis_index_time|].
  split.
  - intros Hout.
    destruct (decide (0 ≤ Z.of_nat y + dy ≤ y_adj)%Z) as [Hyin|Hyout];
      [|by apply Hy3].
    specialize (Hy2 Hyin). injection Hy2 as -> ->.
    destruct (decide (0 ≤ Z.of_nat x + dx ≤ x_adj)%Z) as [Hxin|Hxout];
      [|by apply Hx3].
    specialize (Hx2 Hxin). injection Hx2 as -> ->.
    apply Hz3. lia.
  - intros Hin.
    assert (Hxin : (0 ≤ Z.of_nat x + dx ≤ x_adj)%Z) by lia.
    assert (Hyin : (0 ≤ Z.of_nat y + dy ≤ y_adj)%Z) by lia.
    assert (Hzin : (- z_adj ≤ dz ≤ z_adj)%Z) by lia.
    specialize (Hx2 Hxin). specialize (Hy2 Hyin). specialize (Hz2 Hzin).
    injection Hz2 as -> ->. injection Hx2 as -> ->. injection Hy2 as -> ->.
    done.
Qed.

Lemma getitem3_is_Some a ox oy oz :
  (0 ≤ ox < Z.of_nat (shape0 a))%Z → (0 ≤ oy < Z.of_nat (shape1 a))%Z →
  is_Some (axis_index (shape2 a) oz) → is_Some (getitem3 a ox oy oz).
Proof.
  intros Hx Hy [k Hk]. unfold getitem3.
  rewrite (axis_index_in_range _ _ Hx), (axis_index_in_range _ _ Hy), Hk.
  by eexists.
Qed.

(** Every entry of the kernel is read without error on arrays that fit
    together. *)
Lemma slot_is_Some arr off ws fw o x y n :
  well_shaped arr off ws fw →
  (x < shape0 arr)%nat → (y < shape1 arr)%nat → (n < length off)%nat →
  is_Some (slot (inputs arr off ws fw) o x y n).
Proof.
  intros (Hd & H0 & H1 & H2 & Hl) Hx Hy Hn. unfold slot. simpl.
  destruct (lookup_lt_is_Some_2 off n Hn) as [[[dx dy] dz] ->]. simpl.
  destruct (candidate_spec arr x y dx dy dz Hx Hy Hd)
    as (ox & oy & oz & outside & -> & Hox & Hoy & Hoz & _).
  destruct (getitem3_is_Some arr ox oy oz Hox Hoy Hoz) as [v ->]. simpl.
  destruct (outside || _); [by eexists|].
  destruct (lookup_lt_is_Some_2 ws n) as [w ->]; [lia|]. simpl.
  destruct (getitem3_is_Some fw ox oy oz) as [f ->];
    [by rewrite H0|by rewrite H1|by rewrite H2|].
  by eexists.
Qed.

Lemma gather_is_Some arr off ws fw o x y :
  well_shaped arr off ws fw →
  (x < shape0 arr)%nat → (y < shape1 arr)%nat →
  is_Some (gather (inputs arr off ws fw) o x y).
Proof.
  intros Hwf Hx Hy. rewrite gather_eq. simpl.
  assert (is_Some (mapM (slot (inputs arr off ws fw) o x y) (seq 0 (length off))))
    as [slots ->]; [|by eexists].
  apply mapM_is_Some, Forall_forall. intros n Hn. apply elem_of_seq in Hn.
  apply slot_is_Some; try done. lia.
Qed.

(** ** The aggregation of a neighbourhood *)

Lemma take_is_Some (a : list Q) idx :
  Forall (λ i, (i < length a)%nat) idx →
  ∃ b, np.take a idx = Some b ∧ length b = length idx.
Proof.
  intros H. unfold np.take.
  assert (is_Some (mapM (a !!.) idx)) as [b Hb].
  { apply mapM_is_Some. eapply Forall_impl; [exact H|].
    intros i Hi. by apply lookup_lt_is_Some_2. }
  exists b. split; [done|]. apply mapM_Some, Forall2_length in Hb. done.
Qed.

Lemma nonzero_from_lt (w : list Q) : ∀ k,
  Forall (λ i, (i < k + length w)%nat)
    (filter (λ p, Qeq_bool p.2 0 = false) (zip (seq k (length w)) w)).*1.
Proof.
  induction w as [|v w IH]; intros k; simpl; [constructor|].
  rewrite filter_cons. specialize (IH (S k)).
  assert (Forall (λ i, (i < k + S (length w))%nat)
            (filter (λ p, Qeq_bool p.2 0 = false) (zip (seq (S k) (length w)) w)).*1).
  { eapply Forall_impl; [exact IH|]. intros; simpl in *; lia. }
  case_decide; [|done]. csimpl. constructor; [lia|done].
Qed.

Lemma nonzero_lt w : Forall (λ i, (i < length w)%nat) (np.nonzero w).
Proof. apply (nonzero_from_lt w 0). Qed.

Lemma nonzero_from_nil (w : list Q) : ∀ k,
  (filter (λ p, Qeq_bool p.2 0 = false) (zip (seq k (length w)) w)).*1 = [] →
  sumQ w == 0.
Proof.
  induction w as [|v w IH]; intros k; simpl; [reflexivity|].
  rewrite filter_cons. case_decide as Hv; csimpl; [done|].
  intros H. simpl in Hv. apply not_false_is_true, Qeq_bool_iff in Hv.
  rewrite Hv, (IH _ H). reflexivity.
Qed.

Lemma nonzero_nonempty w : ¬ sumQ w == 0 → np.nonzero w ≠ [].
Proof. intros H E. apply H. by apply (nonzero_from_nil w 0). Qed.

Lemma sumQ_scale c l : sumQ (map (λ w, w / c) l) == sumQ l / c.
Proof.
  induction l as [|v l IH]; simpl.
  - unfold Qdiv. ring.
  - rewrite IH. unfold Qdiv. ring.
Qed.

Lemma median_is_Some a : a ≠ [] → is_Some (np.median a).
Proof.
  intros Hne. unfold np.median. rewrite sort_length.
  assert (0 < length a)%nat as Hn by (destruct a; [done|simpl; lia]).
  pose proof (Nat.div_mod_eq (length a) 2) as Hdm.
  pose proof (Nat.mod_upper_bound (length a) 2) as Hmod.
  destruct (Nat.even (length a)) eqn:Ev.
  - apply Nat.even_spec in Ev as [k Hk].
    destruct (lookup_lt_is_Some_2 (np.sort a) (length a / 2 - 1)) as [lo ->].
    { rewrite sort_length. lia. }
    destruct (lookup_lt_is_Some_2 (np.sort a) (length a / 2)) as [hi ->].
    { rewrite sort_length. lia. }
    simpl. rewrite decide_False by lia. by eexists.
  - apply lookup_lt_is_Some_2. rewrite sort_length. lia.
Qed.

Lemma aggregate_is_Some o h :
  length (hood_weights h) = length (hood_values h) →
  weight_sum h == sumQ (hood_weights h) →
  is_Some (aggregate o h).
Proof.
  intros Hl Hs. unfold aggregate.
  destruct (Qlt_le_dec 0 (weight_sum h)) as [Hpos|_]; [|by eexists].
  assert (hood_values h ≠ []) as Hne.
  { intros E. rewrite E in Hl. destruct (hood_weights h); [|done].
    simpl in Hs. lra. }
  destruct (weighted o).
  - destruct (hood_quantile_is_Some (hood_values h)
                ((λ w, w / weight_sum h) <$> hood_weights h) (quantile o))
      as [r ->]; [done|by rewrite length_fmap|]. by eexists.
  - destruct (take_is_Some (hood_values h)
                (np.nonzero ((λ w, w / weight_sum h) <$> hood_weights h)))
      as (sel & -> & Hsel).
    { rewrite <- Hl, <- (length_fmap (λ w, w / weight_sum h)).
      apply nonzero_lt. }
    simpl. destruct (median_is_Some sel) as [r ->]; [|by eexists].
    intros ->. simpl in Hsel. symmetry in Hsel. apply nil_length_inv in Hsel.
    revert Hsel. apply nonzero_nonempty.
    change (fmap (λ w, w / weight_sum h) (hood_weights h))
      with (map (λ w, w / weight_sum h) (hood_weights h)).
    rewrite sumQ_scale, <- Hs. intros E.
    assert (weight_sum h / weight_sum h == 1) as E1 by (field; lra).
    lra.
Qed.

(** The loops end without error on arrays that fit together. *)
Lemma pixel_out_is_Some arr off ws fw o x y :
  well_shaped arr off ws fw →
  (x < shape0 arr)%nat → (y < shape1 arr)%nat →
  is_Some (pixel_out (inputs arr off ws fw) o x y).
Proof.
  intros Hwf Hx Hy. unfold pixel_out.
  destruct (gather_is_Some arr off ws fw o x y Hwf Hx Hy) as [h Hh].
  rewrite Hh. simpl. rewrite gather_eq in Hh.
  destruct (mapM _ _) as [slots|]; [|done]. injection Hh as <-.
  apply aggregate_is_Some; simpl.
  - by rewrite !length_map.
  - rewrite foldl_add_weight. ring.
Qed.

Lemma s1_collapse_is_Some arr off ws fw o :
  well_shaped arr off ws fw → is_Some (s1_collapse arr off ws fw o).
Proof.
  intros Hwf. rewrite s1_collapse_eq. apply fmap_is_Some.
  apply mapM_is_Some, Forall_forall. intros x Hx. apply elem_of_seq in Hx.
  apply mapM_is_Some, Forall_forall. intros y Hy. apply elem_of_seq in Hy.
  apply pixel_out_is_Some; try done; lia.
Qed.

(** The value of the returned array at a position. *)
Lemma s1_collapse_lookup arr off ws fw o res x y :
  s1_collapse arr off ws fw o = Some res →
  (x < shape0 arr)%nat → (y < shape1 arr)%nat →
  ∃ r row, pixel_out (inputs arr off ws fw) o x y = Some r ∧
           res !! x = Some row ∧
           row !! y = Some (default (initial_value o) r).
Proof.
  rewrite s1_collapse_eq. intros H Hx Hy.
  apply fmap_Some in H as (vss & Hvss & ->).
  apply mapM_Some in Hvss.
  destruct (Forall2_lookup_l _ _ _ x x Hvss) as (vs & Hvs & Hrow).
  { apply lookup_seq. lia. }
  apply mapM_Some in Hrow.
  destruct (Forall2_lookup_l _ _ _ y y Hrow) as (r & Hr & Hout).
  { apply lookup_seq. lia. }
  exists r, (map (default (initial_value o)) vs). split; [done|].
  split.
  - change (map (map (default (initial_value o))) vss)
      with (fmap (map (default (initial_value o))) vss).
    by rewrite list_lookup_fmap, Hvs.
  - change (map (default (initial_value o)) vs)
      with (fmap (default (initial_value o)) vs).
    by rewrite list_lookup_fmap, Hr.
Qed.

(** The shape of the returned array. *)
Lemma s1_collapse_shape arr off ws fw o res :
  s1_collapse arr off ws fw o = Some res →
  length res = shape0 arr ∧ Forall (λ row, length row = shape1 arr) res.
Proof.
  rewrite s1_collapse_eq. intros H.
  apply fmap_Some in H as (vss & Hvss & ->).
  apply mapM_all_length in Hvss as [Hl Hc]. rewrite length_seq in Hl.
  split; [by rewrite length_map|].
  apply Forall_forall. intros row Hrow.
  apply list_elem_of_In, in_map_iff in Hrow as (vs & <- & Hvs).
  rewrite length_map. rewrite Forall_forall in Hc. apply Hc.
  by apply list_elem_of_In.
Qed.

(** ** Excluded neighbourhoods *)

Lemma slot_out_of_range arr off ws fw o x y n c :
  (1 ≤ shape2 arr)%nat → (x < shape0 arr)%nat → (y < shape1 arr)%nat →
  off !! n = Some c → out_of_range arr x y c →
  slot (inputs arr off ws fw) o x y n = Some None.
Proof.
  intros Hd Hx Hy Hn Hout. unfold slot. simpl. rewrite Hn. simpl.
  destruct c as [[dx dy] dz].
  destruct (candidate_spec arr x y dx dy dz Hx Hy Hd)
    as (ox & oy & oz & outside & -> & Hox & Hoy & Hoz & Ho & _).
  destruct (getitem3_is_Some arr ox oy oz Hox Hoy Hoz) as [v ->]. simpl.
  by rewrite (Ho Hout).
Qed.

Lemma slot_reads_nodata arr off ws fw o x y n c :
  (1 ≤ shape2 arr)%nat → (x < shape0 arr)%nat → (y < shape1 arr)%nat →
  nodata o = true →
  off !! n = Some c → reads_nodata arr (nodata_value o) x y c →
  slot (inputs arr off ws fw) o x y n = Some None.
Proof.
  intros Hd Hx Hy Hnd Hn Hread. unfold slot. simpl. rewrite Hn. simpl.
  destruct c as [[dx dy] dz].
  destruct (candidate_spec arr x y dx dy dz Hx Hy Hd)
    as (ox & oy & oz & outside & -> & Hox & Hoy & Hoz & Ho & Hi).
  destruct (getitem3_is_Some arr ox oy oz Hox Hoy Hoz) as [v Hv].
  rewrite Hv. simpl. destruct outside; [done|]. simpl.
  destruct Hi as (_ & -> & -> & ->).
  { intros Hout. by specialize (Ho Hout). }
  destruct Hread as (v' & Hv' & Heq). rewrite Hv in Hv'. injection Hv' as <-.
  apply Qeq_bool_iff in Heq. by rewrite Hnd, Heq.
Qed.

(** A position all of whose candidates are skipped keeps the initial
    value of the result. *)
Lemma skipped_position arr off ws fw o x y :
  well_shaped arr off ws fw →
  (x < shape0 arr)%nat → (y < shape1 arr)%nat →
  (∀ n, (n < length off)%nat → slot (inputs arr off ws fw) o x y n = Some None) →
  gather (inputs arr off ws fw) o x y =
    Some {| hood_values := replicate (length off) 0;
            hood_weights := replicate (length off) 0;
            weight_sum := 0 |} ∧
  ∃ res row, s1_collapse arr off ws fw o = Some res ∧ res !! x = Some row ∧
             row !! y = Some (initial_value o).
Proof.
  intros Hwf Hx Hy Hall.
  assert (Hm : mapM (slot (inputs arr off ws fw) o x y) (seq 0 (length off)) =
               Some (replicate (length off) None)).
  { apply mapM_Some, Forall2_same_length_lookup. split.
    - by rewrite length_seq, length_replicate.
    - intros i n s Hn Hs. apply lookup_seq in Hn as [-> Hn].
      apply lookup_replicate in Hs as [-> _]. by apply Hall. }
  assert (Hg : gather (inputs arr off ws fw) o x y =
               Some {| hood_values := replicate (length off) 0;
                       hood_weights := replicate (length off) 0;
                       weight_sum := 0 |}).
  { rewrite gather_eq. simpl. rewrite Hm. simpl. f_equal.
    assert (∀ k, foldl add_weight 0 (replicate k None) = 0) as ->
      by (induction k; simpl; done).
    assert (∀ (f : option (Q * Q) → Q) k, map f (replicate k None) = replicate k (f None))
      as Hmap by (intros f k; induction k; simpl; congruence).
    by rewrite !Hmap. }
  split; [done|].
  destruct (s1_collapse_is_Some arr off ws fw o Hwf) as [res Hres].
  destruct (s1_collapse_lookup arr off ws fw o res x y Hres Hx Hy)
    as (r & row & Hr & Hrow & Hy').
  exists res, row. split; [done|]. split; [done|].
  unfold pixel_out in Hr. rewrite Hg in Hr. simpl in Hr.
  unfold aggregate in Hr. simpl in Hr.
  destruct (Qlt_le_dec 0 0) as [Hlt|_]; [lra|].
  injection Hr as <-. done.
Qed.

(** C4. With the nodata flag set, a position every candidate of which is
    out of range or reads the nodata value gathers a weight sum of zero,
    and [s1_collapse] returns an array that holds the nodata value at that
    position. *)
Theorem all_excluded_gives_nodata arr off ws fw o x y :
  well_shaped arr off ws fw → nodata o = true →
  (x < shape0 arr)%nat → (y < shape1 arr)%nat →
  (∀ c, c ∈ off →
     out_of_range arr x y c ∨ reads_nodata arr (nodata_value o) x y c) →
  (∃ h, gather (inputs arr off ws fw) o x y = Some h ∧ weight_sum h = 0) ∧
  ∃ res row, s1_collapse arr off ws fw o = Some res ∧ res !! x = Some row ∧
             row !! y = Some (nodata_value o).
Proof.
  intros Hwf Hnd Hx Hy Hex.
  destruct (skipped_position arr off ws fw o x y Hwf Hx Hy) as [Hg Hres].
  { intros n Hn. destruct (lookup_lt_is_Some_2 off n Hn) as [c Hc].
    destruct Hwf as (Hd & _).
    destruct (Hex c) as [Hout|Hread]; [by eapply list_elem_of_lookup_2| |].
    - by eapply slot_out_of_range.
    - by eapply slot_reads_nodata. }
  split; [by eexists|].
  unfold initial_value in Hres. by rewrite Hnd in Hres.
Qed.

(** C10. With the nodata flag cleared, a position whose gathered weight
    sum is zero is not assigned: [s1_collapse] returns an array that holds
    0 at that position, the value the result is created with. *)
Theorem no_weight_gives_zero arr off ws fw o x y h :
  well_shaped arr off ws fw → nodata o = false →
  (x < shape0 arr)%nat → (y < shape1 arr)%nat →
  gather (inputs arr off ws fw) o x y = Some h → weight_sum h == 0 →
  ∃ res row, s1_collapse arr off ws fw o = Some res ∧ res !! x = Some row ∧
             row !! y = Some 0.
Proof.
  intros Hwf Hnd Hx Hy Hg Hws.
  destruct (s1_collapse_is_Some arr off ws fw o Hwf) as [res Hres].
  destruct (s1_collapse_lookup arr off ws fw o res x y Hres Hx Hy)
    as (r & row & Hr & Hrow & Hy').
  exists res, row. split; [done|]. split; [done|].
  unfold pixel_out in Hr. rewrite Hg in Hr. simpl in Hr.
  unfold aggregate in Hr.
  destruct (Qlt_le_dec 0 (weight_sum h)) as [Hlt|_]; [lra|].
  injection Hr as <-. unfold initial_value in Hy'. by rewrite Hnd in Hy'.
Qed.


(** ** What s1_collapse changes *)

Lemma s1_collapse_mem_eq o m :
  s1_collapse_mem o m =
  vss ← mapM (λ x, mapM (pixel_out m o x) (seq 0 (shape1 (m_arr m))))
         (seq 0 (shape0 (m_arr m)));
  Some (set_result m (map (map (default (initial_value o))) vss)).
Proof.
  unfold s1_collapse_mem.
  replace (if nodata o
           then full2 (shape0 (m_arr m)) (shape1 (m_arr m)) (nodata_value o)
           else full2 (shape0 (m_arr m)) (shape1 (m_arr m)) 0)
    with (full2 (shape0 (m_arr m)) (shape1 (m_arr m)) (initial_value o))
    by (unfold initial_value; by destruct (nodata o)).
  rewrite outer_loop. simpl.
  change (pixel_out _ o) with (pixel_out m o).
  destruct (mapM _ _) as [vss|] eqn:E; simpl; [|done].
  apply mapM_all_length in E as [Hl Hc]. rewrite length_seq in Hl.
  f_equal. unfold set_result. simpl. f_equal.
  unfold full2. rewrite <- Hl. apply (row_writes_full _ _ _ Hc []).
Qed.

(** C8. A call of [s1_collapse] on arrays that fit together ends; it
    leaves the stack, the offsets, the kernel weights and the feather
    weights as they were, and the value of the result at a position is
    the one the loop body, run at that position alone on the newly
    created result, puts there. *)
Theorem s1_collapse_frame o m :
  well_shaped (m_arr m) (m_offsets m) (m_weights m) (m_feather m) →
  ∃ m', s1_collapse_mem o m = Some m' ∧
        m_arr m' = m_arr m ∧ m_offsets m' = m_offsets m ∧
        m_weights m' = m_weights m ∧ m_feather m' = m_feather m ∧
        ∀ x y, (x < shape0 (m_arr m))%nat → (y < shape1 (m_arr m))%nat →
          ∃ m1, pixel_body o x (fresh o m) y = Some m1 ∧
                is_Some (result_at m' x y) ∧
                result_at m' x y = result_at m1 x y.
Proof.
  intros Hwf. rewrite s1_collapse_mem_eq.
  assert (Hin : ∀ x y, pixel_out m o x y =
            pixel_out (inputs (m_arr m) (m_offsets m) (m_weights m) (m_feather m)) o x y)
    by done.
  destruct (s1_collapse_is_Some _ _ _ _ o Hwf) as [res Hres].
  pose proof Hres as Hres'. rewrite s1_collapse_eq in Hres'.
  apply fmap_Some in Hres' as (vss & Hvss & ->).
  erewrite mapM_ext; [rewrite Hvss|]; last first.
  { intros x. apply mapM_ext. intros y. apply Hin. }
  simpl. eexists. split; [done|]. simpl. repeat (split; [done|]).
  intros x y Hx Hy.
  destruct (s1_collapse_lookup _ _ _ _ o _ x y Hres Hx Hy)
    as (r & row & Hr & Hrow & Hy').
  rewrite pixel_body_eq. change (pixel_out (fresh o m) o x y) with (pixel_out m o x y).
  rewrite Hin, Hr. simpl. eexists. split; [done|].
  unfold result_at. simpl. rewrite Hrow. simpl. rewrite Hy'.
  split; [by eexists|].
  rewrite list_lookup_alter_eq. unfold full2.
  rewrite lookup_replicate_2 by done. simpl.
  destruct r as [v|]; simpl.
  - by rewrite list_lookup_insert_eq by (by rewrite length_replicate).
  - by rewrite lookup_replicate_2.
Qed.

(** ** sort_rasters *)

Arguments Nat.div : simpl never.
Arguments Nat.modulo : simpl never.
Arguments Z.div : simpl never.
Arguments stack_position : simpl never.

Lemma strongly_sorted_lookup {A} (R : A → A → Prop) l : ∀ i j a b,
  StronglySorted R l → (i < j)%nat → l !! i = Some a → l !! j = Some b → R a b.
Proof.
  induction l as [|x l IH]; intros i j a b Hs Hij Ha Hb; [done|].
  apply StronglySorted_inv in Hs as [Hs Hx].
  destruct j as [|j]; [lia|]. destruct i as [|i]; simpl in *.
  - injection Ha as <-. rewrite Forall_forall in Hx. apply Hx.
    by eapply list_elem_of_lookup_2.
  - apply (IH i j); try done. lia.
Qed.

Section sort_rasters_facts.
Variable name_to_date : string → Z.

Local Abbreviation sorted' := (sorted name_to_date).
Local Abbreviation key_le := (λ a b, (name_to_date a ≤ name_to_date b)%Z).

Lemma insert_by_date_perm r l : insert_by_date name_to_date r l ≡ₚ r :: l.
Proof.
  induction l as [|s l IH]; simpl; [done|].
  destruct (_ <=? _)%Z; [done|]. rewrite IH. apply Permutation_swap.
Qed.

Lemma sorted_perm l : sorted' l ≡ₚ l.
Proof.
  induction l as [|r l IH]; simpl; [done|].
  unfold sorted in *. simpl. by rewrite insert_by_date_perm, IH.
Qed.

Lemma insert_by_date_sorted r l :
  StronglySorted key_le l → StronglySorted key_le (insert_by_date name_to_date r l).
Proof.
  induction 1 as [|s l Hl IH Hs]; simpl.
  - repeat constructor.
  - destruct (Z.leb_spec (name_to_date r) (name_to_date s)).
    + constructor; [by constructor|]. constructor; [done|].
      eapply Forall_impl; [exact Hs|]. simpl. lia.
    + constructor; [done|]. rewrite insert_by_date_perm.
      constructor; [lia|done].
Qed.

Lemma sorted_sorted l : StronglySorted key_le (sorted' l).
Proof.
  induction l as [|r l IH]; simpl; [constructor|].
  by apply insert_by_date_sorted.
Qed.

(** With distinct dates the sorted list ascends strictly. *)
Lemma sorted_strict l i j a b :
  NoDup (name_to_date <$> l) → (i < j)%nat →
  sorted' l !! i = Some a → sorted' l !! j = Some b →
  (name_to_date a < name_to_date b)%Z.
Proof.
  intros Hnd Hij Ha Hb.
  assert (Hnd' : NoDup (name_to_date <$> sorted' l)) by (by rewrite sorted_perm).
  assert (name_to_date a ≠ name_to_date b) as Hne.
  { intros E. pose proof (proj1 (NoDup_alt _) Hnd') as Halt.
    assert (i = j); [|lia].
    apply (Halt i j (name_to_date a)); rewrite list_lookup_fmap.
    - by rewrite Ha.
    - by rewrite Hb, E. }
  assert (name_to_date a ≤ name_to_date b)%Z; [|lia].
  pose proof (sorted_sorted l) as Hs.
  by apply (strongly_sorted_lookup key_le (sorted' l) i j).
Qed.

Ltac div2 n :=
  pose proof (Nat.div_mod_eq n 2);
  pose proof (Nat.mod_upper_bound n 2 ltac:(lia)).

Lemma stack_position_lt N i :
  (i < N)%nat → (stack_position (N / 2) i < N)%nat.
Proof.
  intros Hi. unfold stack_position. div2 N. div2 i. div2 (i + 1)%nat.
  repeat case_decide; lia.
Qed.

Lemma stack_position_inj N i j :
  (i < N)%nat → (j < N)%nat →
  stack_position (N / 2) i = stack_position (N / 2) j → i = j.
Proof.
  intros Hi Hj. unfold stack_position.
  div2 N. div2 i. div2 (i + 1)%nat. div2 j. div2 (j + 1)%nat.
  repeat case_decide; lia.
Qed.

Lemma stack_rank_spec N p :
  (p < N)%nat →
  (stack_rank (N / 2) p < N)%nat ∧
  stack_position (N / 2) (stack_rank (N / 2) p) = p.
Proof.
  intros Hp. unfold stack_position, stack_rank. div2 N.
  repeat case_decide; subst;
    try (div2 (2 * (N / 2 - p) - 1)%nat; div2 (2 * (N / 2 - p) - 1 + 1)%nat);
    try (div2 (2 * (p - N / 2))%nat; div2 (2 * (p - N / 2) + 1)%nat);
    lia.
Qed.

Lemma setitem_in_range {A} (l : list A) (i : nat) v :
  (i < length l)%nat → setitem l (Z.of_nat i) v = Some (<[i := v]> l).
Proof.
  intros Hi. unfold setitem. rewrite axis_index_in_range by lia. simpl.
  by rewrite Nat2Z.id.
Qed.

(** One turn of the loop places the raster of rank [k]. *)
Lemma place_step by_date k st r :
  (1 ≤ k)%nat → by_date !! k = Some r → placed by_date k st →
  ∃ st', place (Z.of_nat (length by_date) `div` 2) st (k, r) = Some st' ∧
         placed by_date (S k) st'.
Proof.
  intros Hk Hr (Hlen & Hadd & Hleft & Hcopy).
  destruct st as [[copy add] left']. simpl in *. subst add left'.
  assert (k < length by_date)%nat as HkN by (by eapply lookup_lt_Some).
  pose proof (stack_position_lt _ k HkN) as Hpos.
  remember (length by_date) as N eqn:HN.
  div2 N. div2 k. div2 (k + 1)%nat. div2 (S k + 1)%nat. div2 (S k).
  assert (HmidZ : (Z.of_nat N `div` 2 = Z.of_nat (N / 2))%Z)
    by (by rewrite Nat2Z.inj_div).
  rewrite decide_False by lia. rewrite HmidZ.
  assert (Hstep : ∀ copy',
            copy' = <[stack_position (N / 2) k := Raster r]> copy →
            ∀ add' left'',
            add' = Z.of_nat ((S k + 1) / 2) →
            left'' = bool_decide (S k `mod` 2 = 1)%nat →
            placed by_date (S k) (copy', add', left'')).
  { intros copy' -> add' left'' -> ->. unfold placed. simpl. rewrite <- HN.
    split; [by rewrite length_insert|]. split; [done|]. split; [done|].
    intros i Hi. destruct (decide (i = k)) as [->|Hne].
      + rewrite list_lookup_insert_eq by lia. by rewrite Hr.
      + rewrite list_lookup_insert_ne; [apply Hcopy; lia|].
        intros E. apply stack_position_inj in E; lia. }
  unfold stack_position in Hpos, Hstep. rewrite decide_False in Hpos, Hstep by lia.
  destruct (decide (k `mod` 2 = 1)%nat) as [Hodd|Hodd].
  - rewrite bool_decide_eq_true_2 by done.
    replace (Z.of_nat (N / 2) - Z.of_nat ((k + 1) / 2))%Z
      with (Z.of_nat (N / 2 - (k + 1) / 2)) by lia.
    rewrite setitem_in_range by lia. simpl. eexists. split; [done|].
    apply Hstep; [done|f_equal; lia|].
    symmetry. apply bool_decide_eq_false. lia.
  - rewrite bool_decide_eq_false_2 by done.
    replace (Z.of_nat (N / 2) + Z.of_nat ((k + 1) / 2))%Z
      with (Z.of_nat (N / 2 + k / 2)) by lia.
    rewrite setitem_in_range by lia. simpl. eexists. split; [done|].
    apply Hstep; [done|lia|].
    symmetry. apply bool_decide_eq_true. lia.
Qed.

Lemma place_loop by_date l : ∀ k st,
  (1 ≤ k ≤ length by_date)%nat → drop k by_date = l → placed by_date k st →
  ∃ st', for_each (place (Z.of_nat (length by_date) `div` 2))
           (imap (λ i r, ((k + i)%nat, r)) l) st = Some st' ∧
         placed by_date (length by_date) st'.
Proof.
  induction l as [|r l IH]; intros k st Hk Hdrop Hst.
  - simpl. exists st. split; [done|].
    assert (length by_date ≤ k)%nat as Hle.
    { apply (f_equal length) in Hdrop. rewrite length_drop in Hdrop.
      simpl in Hdrop. lia. }
    by replace (length by_date) with k by lia.
  - rewrite imap_cons. cbn [for_each]. rewrite Nat.add_0_r.
    assert (by_date !! k = Some r) as Hr.
    { rewrite <- (Nat.add_0_r k), <- lookup_drop, Hdrop. done. }
    assert (k < length by_date)%nat as HkN by (by eapply lookup_lt_Some).
    destruct (place_step by_date k st r) as (st' & -> & Hst'); [lia|done|done|].
    cbn [mbind option_bind].
    destruct (IH (S k) st') as (st'' & Hloop & Hfinal); [lia| |done|].
    { rewrite (drop_S _ _ _ Hr) in Hdrop. by injection Hdrop. }
    exists st''. split; [|done]. rewrite <- Hloop.
    f_equal. apply imap_ext. intros i x _. simpl. f_equal. lia.
Qed.

(** C5. On at least two rasters with distinct dates [sort_rasters]
    returns a list of rasters of the same length that is a permutation
    of its input; with the input sorted by ascending date, the earliest
    raster is at index [N // 2], and the following ones are put in turn
    at [mid - 1], [mid + 1], [mid - 2], [mid + 2] and so on. *)
Theorem sort_rasters_order rasters :
  let N := length rasters in
  let by_date := sorted' rasters in
  let mid := (N / 2)%nat in
  (2 ≤ N)%nat → NoDup (name_to_date <$> rasters) →
  ∃ out,
    sort_rasters name_to_date rasters = Some (Raster <$> out) ∧
    out ≡ₚ rasters ∧ length out = N ∧
    by_date ≡ₚ rasters ∧
    (∀ i j a b, (i < j)%nat → by_date !! i = Some a → by_date !! j = Some b →
       (name_to_date a < name_to_date b)%Z) ∧
    out !! mid = by_date !! 0%nat ∧
    ∀ j, (1 ≤ j)%nat →
      ((2 * j - 1 < N)%nat → out !! (mid - j)%nat = by_date !! (2 * j - 1)%nat) ∧
      ((2 * j < N)%nat → out !! (mid + j)%nat = by_date !! (2 * j)%nat).
Proof.
  intros N by_date mid HN Hnd. subst mid.
  assert (EN : length rasters = N) by done.
  assert (EB : sorted' rasters = by_date) by done.
  clearbody N by_date.
  assert (Hperm : by_date ≡ₚ rasters) by (rewrite <- EB; apply sorted_perm).
  assert (HlenB : length by_date = N) by (by rewrite Hperm).
  assert (N / 2 < N)%nat as Hmid by (apply Nat.div_lt; lia).
  assert (HmidZ : (Z.of_nat N `div` 2)%Z = Z.of_nat (N / 2))
    by (by rewrite Nat2Z.inj_div).
  destruct by_date as [|first rest] eqn:Eb; [simpl in HlenB; lia|].
  rewrite <- Eb in *.
  (* the run of the function *)
  assert (Hrun : ∃ st, sort_rasters name_to_date rasters = Some st.1.1 ∧
                       placed by_date N st).
  { unfold sort_rasters. rewrite EB, EN, HmidZ.
    assert (by_date !! 0%nat = Some first) as -> by (by rewrite Eb).
    cbn [mbind option_bind].
    rewrite setitem_in_range by (by rewrite length_fmap, length_seq).
    cbn [mbind option_bind].
    destruct (place_loop by_date rest 1
                (<[(N / 2)%nat := Raster first]> (Index <$> seq 0 N), 1%Z, true))
      as (st & Hloop & Hst).
    - rewrite HlenB. lia.
    - by rewrite Eb.
    - unfold placed. cbn [fst snd]. rewrite HlenB.
      split; [by rewrite length_insert, length_fmap, length_seq|].
      split; [done|]. split; [done|].
      intros i Hi. assert (i = 0)%nat as -> by lia.
      unfold stack_position. rewrite decide_True by done.
      rewrite list_lookup_insert_eq by (by rewrite length_fmap, length_seq).
      by rewrite Eb.
    - exists st. rewrite HlenB, HmidZ in Hloop. rewrite HlenB in Hst.
      split; [|done].
      rewrite Eb at 1. rewrite imap_cons. cbn [for_each place].
      rewrite decide_True by done. cbn [mbind option_bind].
      erewrite imap_ext; [rewrite Hloop; done|].
      intros i x _. done. }
  destruct Hrun as ([[copy add] left'] & Hrun & Hlen & _ & _ & Hcopy).
  cbn [fst snd] in *. rewrite HlenB in Hlen, Hcopy.
  (* the list of rasters in the slots *)
  pose (out := (λ p, default first (by_date !! stack_rank (N / 2)%nat p)) <$> seq 0 N).
  assert (Hout : ∀ i, (i < N)%nat → out !! stack_position (N / 2)%nat i = by_date !! i).
  { intros i Hi. subst out. rewrite list_lookup_fmap.
    pose proof (stack_position_lt N i Hi) as Hp.
    rewrite lookup_seq_lt by done. simpl.
    destruct (stack_rank_spec N (stack_position (N / 2)%nat i) Hp) as [Hr1 Hr2].
    apply stack_position_inj in Hr2; [|done..].
    rewrite Hr2. destruct (lookup_lt_is_Some_2 by_date i) as [x ->]; [lia|done]. }
  assert (HlenO : length out = N) by (subst out; by rewrite length_fmap, length_seq).
  assert (Hcopy_out : copy = Raster <$> out).
  { apply list_eq. intros p. destruct (decide (p < N)%nat) as [Hp|Hp].
    - destruct (stack_rank_spec N p Hp) as [Hr1 Hr2].
      rewrite <- Hr2, Hcopy, list_lookup_fmap, Hout by done. done.
    - rewrite !lookup_ge_None_2; [done| |lia].
      rewrite length_fmap. lia. }
  exists out. rewrite Hrun, Hcopy_out. split; [done|].
  assert (Hob : by_date ≡ₚ out).
  { apply Permutation_inj. split; [lia|].
    exists (λ i, if decide (i < N)%nat then stack_position (N / 2)%nat i else i).
    split.
    - intros i j. pose proof (stack_position_lt N i) as Hi.
      pose proof (stack_position_lt N j) as Hj.
      repeat case_decide; intros E; try lia.
      by apply (stack_position_inj N).
    - intros i. case_decide; [by rewrite Hout|].
      rewrite !lookup_ge_None_2; [done|lia..]. }
  split; [by rewrite <- Hob|]. split; [done|]. split; [done|].
  split; [rewrite <- EB; intros i j a b; by apply sorted_strict|].
  split.
  - rewrite <- (Hout 0%nat) by lia. done.
  - intros j Hj. split; intros Hlt.
    + rewrite <- Hout by done. f_equal. unfold stack_position.
      div2 (2 * j - 1)%nat. div2 (2 * j - 1 + 1)%nat.
      repeat case_decide; lia.
    + rewrite <- Hout by done. f_equal. unfold stack_position.
      div2 (2 * j)%nat. repeat case_decide; lia.
Qed.
End sort_rasters_facts.

(** ** A chunk of the stack *)

Lemma candidate_view s c a lx y dx dy dz :
  row_view s c a → (lx < shape0 c)%nat →
  (s = 0%nat ∨ 1 ≤ lx)%nat →
  (s + shape0 c = shape0 a ∨ lx + 1 < shape0 c)%nat →
  (-1 ≤ dx ≤ 1)%Z →
  ∃ ox oy oz outside,
    candidate c lx y (dx, dy, dz) = (ox, oy, oz, outside) ∧
    candidate a (s + lx) y (dx, dy, dz) = ((ox + Z.of_nat s)%Z, oy, oz, outside) ∧
    (0 ≤ ox < Z.of_nat (shape0 c))%Z.
Proof.
  intros (H1 & H2 & Hs & _) Hlx Htop Hbot Hdx. unfold candidate.
  rewrite H1, H2. cbv beta iota zeta.
  destruct (clamp dz _ _ false) as [oz out1].
  assert (Hx : ∃ ox out2,
            clamp (Z.of_nat lx + dx) 0 (Z.of_nat (shape0 c) - 1) out1 = (ox, out2) ∧
            clamp (Z.of_nat (s + lx) + dx) 0 (Z.of_nat (shape0 a) - 1) out1 =
              ((ox + Z.of_nat s)%Z, out2) ∧
            (0 ≤ ox < Z.of_nat (shape0 c))%Z).
  { unfold clamp. rewrite !Z.gtb_ltb.
    destruct (Z.ltb_spec (Z.of_nat lx + dx) 0),
      (Z.ltb_spec (Z.of_nat (s + lx) + dx) 0); try lia.
    - eexists _, _. split; [done|]. split; [f_equal; lia|lia].
    - destruct (Z.ltb_spec (Z.of_nat (shape0 c) - 1) (Z.of_nat lx + dx)),
        (Z.ltb_spec (Z.of_nat (shape0 a) - 1) (Z.of_nat (s + lx) + dx)); try lia.
      + eexists _, _. split; [done|]. split; [f_equal; lia|lia].
      + eexists _, _. split; [done|]. split; [f_equal; lia|lia]. }
  destruct Hx as (ox & out2 & -> & -> & Hox).
  destruct (clamp (Z.of_nat y + dy) _ _ out2) as [oy out3].
  by exists ox, oy, oz, out3.
Qed.

Lemma getitem3_view s c a ox oy oz :
  row_view s c a → (0 ≤ ox < Z.of_nat (shape0 c))%Z →
  getitem3 c ox oy oz = getitem3 a (ox + Z.of_nat s) oy oz.
Proof.
  intros (H1 & H2 & Hs & Hitem) Hox. unfold getitem3.
  rewrite (axis_index_in_range (shape0 c) ox) by lia.
  rewrite (axis_index_in_range (shape0 a) (ox + Z.of_nat s)) by lia.
  rewrite H1, H2. simpl.
  destruct (axis_index (shape1 a) oy) as [j|]; simpl; [|done].
  destruct (axis_index (shape2 a) oz) as [k|]; simpl; [|done].
  rewrite Hitem. do 2 f_equal. lia.
Qed.

Lemma slot_view s c a fc fa off ws o lx y n :
  row_view s c a → row_view s fc fa → shape0 fc = shape0 c →
  radius_one off → (lx < shape0 c)%nat →
  (s = 0%nat ∨ 1 ≤ lx)%nat →
  (s + shape0 c = shape0 a ∨ lx + 1 < shape0 c)%nat →
  slot (inputs c off ws fc) o lx y n = slot (inputs a off ws fa) o (s + lx) y n.
Proof.
  intros Hv Hf Hfc Hrad Hlx Htop Hbot. unfold slot. simpl.
  destruct (off !! n) as [[[dx dy] dz]|] eqn:Hn; simpl; [|done].
  assert (-1 ≤ dx ≤ 1)%Z as Hdx.
  { unfold radius_one in Hrad. rewrite Forall_forall in Hrad.
    apply (Hrad (dx, dy, dz)). by eapply list_elem_of_lookup_2. }
  destruct (candidate_view s c a lx y dx dy dz Hv Hlx Htop Hbot Hdx)
    as (ox & oy & oz & outside & -> & -> & Hox).
  rewrite <- (getitem3_view s c a) by done.
  destruct (getitem3 c ox oy oz) as [v|]; simpl; [|done].
  destruct (outside || _); [done|].
  destruct (ws !! n) as [w|]; simpl; [|done].
  rewrite <- (getitem3_view s fc fa) by (by rewrite ?Hfc). done.
Qed.

Lemma pixel_out_view s c a fc fa off ws o lx y :
  row_view s c a → row_view s fc fa → shape0 fc = shape0 c →
  radius_one off → (lx < shape0 c)%nat →
  (s = 0%nat ∨ 1 ≤ lx)%nat →
  (s + shape0 c = shape0 a ∨ lx + 1 < shape0 c)%nat →
  pixel_out (inputs c off ws fc) o lx y =
  pixel_out (inputs a off ws fa) o (s + lx) y.
Proof.
  intros Hv Hf Hfc Hrad Hlx Htop Hbot. unfold pixel_out.
  rewrite !gather_eq. simpl.
  erewrite mapM_ext; [done|]. intros n. by apply slot_view.
Qed.

(** A row of the array [s1_collapse] returns. *)
Lemma s1_collapse_row arr off ws fw o res x :
  s1_collapse arr off ws fw o = Some res → (x < shape0 arr)%nat →
  ∃ vs, mapM (pixel_out (inputs arr off ws fw) o x) (seq 0 (shape1 arr)) = Some vs ∧
        res !! x = Some (map (default (initial_value o)) vs).
Proof.
  rewrite s1_collapse_eq. intros H Hx.
  apply fmap_Some in H as (vss & Hvss & ->).
  apply mapM_Some in Hvss.
  destruct (Forall2_lookup_l _ _ _ x x Hvss) as (vs & Hvs & Hrow).
  { apply lookup_seq. lia. }
  exists vs. split; [done|].
  change (map (map (default (initial_value o))) vss)
    with (fmap (map (default (initial_value o))) vss).
  by rewrite list_lookup_fmap, Hvs.
Qed.

(** The rows of a chunk that have their neighbours in the chunk, or at
    an edge of the stack, are rows of the result on the whole stack. *)
Lemma chunk_row s c a fc fa off ws o resc res lx :
  row_view s c a → row_view s fc fa → shape0 fc = shape0 c →
  radius_one off →
  s1_collapse c off ws fc o = Some resc →
  s1_collapse a off ws fa o = Some res →
  (lx < shape0 c)%nat →
  (s = 0%nat ∨ 1 ≤ lx)%nat →
  (s + shape0 c = shape0 a ∨ lx + 1 < shape0 c)%nat →
  resc !! lx = res !! (s + lx)%nat.
Proof.
  intros Hv Hf Hfc Hrad Hc Ha Hlx Htop Hbot.
  destruct (s1_collapse_row _ _ _ _ _ _ lx Hc Hlx) as (vs & Hvs & ->).
  destruct (s1_collapse_row _ _ _ _ _ _ (s + lx)%nat Ha) as (vs' & Hvs' & ->).
  { destruct Hv as (_ & _ & Hs & _). lia. }
  destruct Hv as (H1 & Hv').
  assert (Hv : row_view s c a) by done.
  rewrite H1 in Hvs.
  erewrite mapM_ext in Hvs; [rewrite Hvs' in Hvs; by injection Hvs as ->|].
  intros y. by apply pixel_out_view.
Qed.

(** ** File names of the chunks *)

Lemma string_length_app (s t : string) :
  String.length (s +:+ t) = (String.length s + String.length t)%nat.
Proof.
  induction s as [|a s IH]; [done|].
  change (String a s +:+ t) with (String a (s +:+ t)). simpl. by rewrite IH.
Qed.

Lemma string_app_inj_r (t s1 : string) : ∀ s2, s1 +:+ t = s2 +:+ t → s1 = s2.
Proof.
  induction s1 as [|a s1 IH]; intros [|b s2] H.
  - done.
  - apply (f_equal String.length) in H.
    rewrite !string_length_app in H. simpl in H. lia.
  - apply (f_equal String.length) in H.
    rewrite !string_length_app in H. simpl in H. lia.
  - change (String a (s1 +:+ t) = String b (s2 +:+ t)) in H.
    injection H as -> H. f_equal. by apply IH.
Qed.

Lemma chunk_file_inj tmp uid c c' :
  chunk_file tmp uid c = chunk_file tmp uid c' → c = c'.
Proof.
  unfold chunk_file. intros H.
  do 3 apply String.app_inj in H.
  apply string_app_inj_r in H. by apply pretty_nat_inj in H.
Qed.

(** ** The chunks of process_aligned *)

Lemma bind_run {A B} (m : M A) (f : A → M B) w :
  (m ≫= f) w =
  match m w with
  | (inl e, w') => (inl e, w')
  | (inr a, w') => f a w'
  end.
Proof. reflexivity. Qed.

Lemma slice_bound_in_range n i :
  (0 ≤ i ≤ Z.of_nat n)%Z → slice_bound n i = Z.to_nat i.
Proof.
  intros H. unfold slice_bound. destruct (Z.ltb_spec i 0); [lia|].
  f_equal. lia.
Qed.

Lemma slice_rows_view a s e :
  (0 ≤ s ≤ e)%Z → (e ≤ Z.of_nat (shape0 a))%Z →
  shape0 (slice_rows a s e) = Z.to_nat (e - s) ∧
  row_view (Z.to_nat s) (slice_rows a s e) a.
Proof.
  intros Hs He. unfold slice_rows, row_view. simpl.
  rewrite !slice_bound_in_range by lia.
  split; [lia|]. repeat split; try done. lia.
Qed.

Lemma lookup_rows_between {A} (l : list A) lo hi i :
  rows_between lo hi l !! i =
  if decide (i < hi - lo)%nat then l !! (lo + i)%nat else None.
Proof.
  unfold rows_between. case_decide.
  - by rewrite lookup_take_lt, lookup_drop.
  - apply lookup_take_ge. lia.
Qed.

Lemma lookup_slice_list {A} (l : list A) s e i :
  (0 ≤ s ≤ e)%Z → (e ≤ Z.of_nat (length l))%Z →
  slice_list l s e !! i =
  if decide (i < Z.to_nat (e - s))%nat then l !! (Z.to_nat s + i)%nat else None.
Proof.
  intros Hs He. unfold slice_list. rewrite !slice_bound_in_range by lia.
  replace (Z.to_nat e - Z.to_nat s)%nat with (Z.to_nat (e - s)) by lia.
  case_decide.
  - by rewrite lookup_take_lt, lookup_drop.
  - apply lookup_take_ge. lia.
Qed.

Section chunks.
Variables (arr : ndarray3) (fwo : option ndarray3).
Variables (off : list (Z * Z * Z)) (ws : list Q).
Variables (tmp uid : string) (k : Z) (nd : Q).
Variable res : list (list Q).

Local Abbreviation fw := (feather_or_ones arr fwo).
Local Abbreviation o := (driver_options nd).
Local Abbreviation R := (shape0 arr).

Hypothesis Hwf : well_shaped arr off ws fw.
Hypothesis Hrad : radius_one off.
Hypothesis Hk : (2 ≤ k ≤ Z.of_nat R)%Z.
Hypothesis Hres : s1_collapse arr off ws fw o = Some res.

Lemma res_length : length res = R.
Proof. by apply s1_collapse_shape in Hres as [? _]. Qed.

Lemma step_facts (c : nat) :
  (Z.of_nat c < k)%Z →
  let step := (Z.of_nat R `div` k)%Z in
  let P := (Z.of_nat c * step)%Z in
  (1 ≤ step ∧ 0 ≤ P ∧ ((1 ≤ c)%nat → step ≤ P) ∧
   (Z.of_nat c + 1 < k → P + 2 * step ≤ Z.of_nat R) ∧
   P + step ≤ Z.of_nat R)%Z.
Proof.
  intros Hc step P.
  assert (1 ≤ step)%Z as H1.
  { subst step. apply Z.div_le_lower_bound; lia. }
  assert (k * step ≤ Z.of_nat R)%Z as H2.
  { subst step. apply Z.mul_div_le. lia. }
  subst P. repeat split; try nia.
Qed.

(** One turn of the chunk loop collapses the chunk and stages the rows
    it keeps, which are rows of the result on the whole stack. *)
Lemma chunk_body_run cl (c : nat) w :
  (Z.of_nat c < k)%Z →
  chunk_body arr fwo off ws tmp uid k nd 1 cl c w =
  (inr (cl ++ [chunk_file tmp uid c]), staged tmp uid k res w c).
Proof.
  intros Hc. pose proof (step_facts c Hc) as (Hs1 & Hs2 & Hs3 & Hs4 & Hs5).
  cbv zeta in Hs1, Hs2, Hs3, Hs4, Hs5.
  unfold chunk_body. rewrite bind_run. cbn [print].
  unfold staged, kept_lo, kept_hi. rewrite res_length.
  remember (Z.of_nat R `div` k)%Z as step eqn:Hstep in *.
  remember (Z.of_nat c * step)%Z as P eqn:HP in *.
  assert (HP' : ((Z.of_nat c + 1) * step = P + step)%Z) by (subst P; ring).
  assert (HP0 : c = 0%nat → P = 0%Z) by (intros ->; subst P; ring).
  rewrite HP'.
  set (cs := if decide (c = 0%nat) then (0%Z, false) else ((P - 1)%Z, true)).
  set (ce := if decide (Z.of_nat c = (k - 1)%Z) then (Z.of_nat R, false)
             else ((P + step + 1)%Z, true)).
  assert (Hcs : (0 ≤ cs.1 ≤ P ∧ cs.1 < ce.1 ∧ ce.1 ≤ Z.of_nat R)%Z).
  { subst cs ce. clear Hstep HP HP'. repeat case_decide; simpl; lia. }
  destruct cs as [chunk_start cut_start] eqn:Ecs.
  destruct ce as [chunk_end cut_end] eqn:Ece. simpl in Hcs.
  destruct (slice_rows_view arr chunk_start chunk_end) as [Hlen Hview];
    [lia..|].
  set (arr_chunk := slice_rows arr chunk_start chunk_end) in *.
  set (weights_chunk := match fwo with
                        | Some fw0 => slice_rows fw0 chunk_start chunk_end
                        | None => ones_like arr_chunk
                        end).
  destruct Hwf as (Hd & Hf0 & Hf1 & Hf2 & Hlw).
  assert (Hfview : row_view (Z.to_nat chunk_start) weights_chunk fw ∧
                   shape0 weights_chunk = shape0 arr_chunk).
  { subst weights_chunk. destruct fwo as [fw0|]; cbn [feather_or_ones] in *.
    - destruct (slice_rows_view fw0 chunk_start chunk_end) as [Hl Hv];
        [lia|lia|]. split; [done|]. lia.
    - split; [|done]. destruct Hview as (? & ? & ? & ?). by repeat split. }
  destruct Hfview as [Hfview Hfshape].
  assert (Hwfc : well_shaped arr_chunk off ws weights_chunk).
  { destruct Hview as (? & ? & ? & ?), Hfview as (? & ? & ? & ?).
    repeat split; try done; congruence. }
  destruct (s1_collapse_is_Some _ _ _ _ o Hwfc) as [resc Hresc].
  rewrite bind_run. cbn [print]. rewrite bind_run.
  unfold s1_collapse_call. fold o. rewrite Hresc. cbn [mret M_ret].
  rewrite bind_run. cbn [np_save mret M_ret files rasters calls stdout].
  f_equal. f_equal. f_equal.
  pose proof (s1_collapse_shape _ _ _ _ _ _ Hresc) as [Hlc _].
  rewrite Hlen in Hlc.
  apply list_eq. intros i.
  rewrite lookup_rows_between.
  set (os := if cut_start then 1%Z else 0%Z).
  set (oe := if cut_end then (Z.of_nat (length resc) - 1)%Z
             else Z.of_nat (length resc)).
  assert (Hoff : (0 ≤ os ≤ oe)%Z ∧ (oe ≤ Z.of_nat (length resc))%Z ∧
                 (Z.to_nat chunk_start + Z.to_nat os = Z.to_nat P)%nat ∧
                 (Z.to_nat (oe - os) =
                    (if decide (Z.of_nat c = k - 1)%Z then R
                     else Z.to_nat (P + step)) - Z.to_nat P)%nat ∧
                 (Z.to_nat chunk_start = 0%nat ∨ (1 ≤ os)%Z) ∧
                 ((Z.to_nat chunk_start + length resc)%nat = R ∨
                  (oe + 1 ≤ Z.of_nat (length resc))%Z)).
  { subst os oe cs ce. clear Hstep HP HP'. revert Ecs Ece.
    repeat case_decide; intros [= <- <-] [= <- <-];
      rewrite Hlc; repeat split; lia. }
  destruct Hoff as (Ho1 & Ho2 & Ho3 & Ho4 & Ho5 & Ho6).
  rewrite lookup_slice_list by lia. rewrite Ho4.
  destruct (decide (i < _)%nat) as [Hi|Hi]; [|done].
  rewrite <- Ho3, <- Nat.add_assoc.
  apply (chunk_row (Z.to_nat chunk_start) arr_chunk arr weights_chunk fw
           off ws o); try done.
  - rewrite Hlen. lia.
  - lia.
  - rewrite Hlen. lia.
Qed.

Local Abbreviation kept c :=
  (rows_between (kept_lo k (length res) c) (kept_hi k (length res) c) res).

Lemma chunk_loop cs : ∀ cl w,
  Forall (λ c, (Z.of_nat c < k)%Z) cs →
  for_each_M (chunk_body arr fwo off ws tmp uid k nd 1) cs cl w =
  (inr (cl ++ (chunk_file tmp uid <$> cs)), foldl (staged tmp uid k res) w cs).
Proof.
  induction cs as [|c cs IH]; intros cl w Hcs; simpl.
  - by rewrite app_nil_r.
  - apply Forall_cons in Hcs as [Hc Hcs].
    rewrite bind_run, chunk_body_run by done. rewrite IH by done.
    by rewrite <- app_assoc.
Qed.

Lemma staged_rasters cs : ∀ w,
  rasters (foldl (staged tmp uid k res) w cs) = rasters w.
Proof. induction cs as [|c cs IH]; intros w; simpl; [done|]. by rewrite IH. Qed.

Lemma staged_files_ne cs path : ∀ w,
  (∀ c, c ∈ cs → chunk_file tmp uid c ≠ path) →
  files (foldl (staged tmp uid k res) w cs) !! path = files w !! path.
Proof.
  induction cs as [|c cs IH]; intros w Hne; simpl; [done|].
  rewrite IH by (intros c' Hc'; apply Hne; by right). simpl.
  apply lookup_insert_ne, Hne. by left.
Qed.

Lemma staged_files cs c : ∀ w,
  c ∈ cs →
  files (foldl (staged tmp uid k res) w cs) !! chunk_file tmp uid c =
  Some (kept c).
Proof.
  induction cs as [|c' cs IH]; intros w Hin; [by apply elem_of_nil in Hin|].
  simpl. destruct (decide (c ∈ cs)) as [Hc|Hc]; [by apply IH|].
  apply elem_of_cons in Hin as [->|Hin]; [|done].
  rewrite staged_files_ne.
  - simpl. apply lookup_insert_eq.
  - intros c'' Hc'' E. apply chunk_file_inj in E. by subst.
Qed.

Lemma merge_loop cs : ∀ acc w,
  Forall (λ c, files w !! chunk_file tmp uid c = Some (kept c)) cs →
  for_each_M (λ merged chunk, a ← np_load chunk; mret (merged ++ [a]))
    (chunk_file tmp uid <$> cs) acc w =
  (inr (acc ++ ((λ c, kept c) <$> cs)), w).
Proof.
  induction cs as [|c cs IH]; intros acc w Hcs; simpl.
  - by rewrite app_nil_r.
  - apply Forall_cons in Hcs as [Hc Hcs].
    rewrite !bind_run. unfold np_load. rewrite Hc. cbn [mret M_ret].
    rewrite IH by done. by rewrite <- app_assoc.
Qed.

Lemma kept_lo_S c :
  kept_lo k R (S c) = (kept_lo k R c + Z.to_nat (Z.of_nat R `div` k))%nat.
Proof.
  unfold kept_lo. assert (0 ≤ Z.of_nat R `div` k)%Z by (apply Z.div_pos; lia).
  rewrite Nat2Z.inj_succ, Z.mul_succ_l. rewrite Z2Nat.inj_add by nia. done.
Qed.

Lemma kept_hi_inner c :
  (Z.of_nat c + 1 < k)%Z → kept_hi k R c = kept_lo k R (S c).
Proof.
  intros Hc. unfold kept_hi, kept_lo. rewrite decide_False by lia.
  f_equal. lia.
Qed.

Lemma concat_inner n :
  (Z.of_nat n < k)%Z →
  concat ((λ c, kept c) <$> seq 0 n) = take (kept_lo k R n) res.
Proof.
  rewrite res_length. induction n as [|n IH]; intros Hn.
  - done.
  - rewrite seq_S, fmap_app, concat_app. simpl. rewrite app_nil_r.
    rewrite IH by lia. unfold rows_between.
    rewrite kept_hi_inner by lia. rewrite take_take_drop. f_equal.
    rewrite kept_lo_S. lia.
Qed.

(** The staged rows, joined in the order of the chunks, are the result
    on the whole stack. *)
Lemma concat_kept :
  concat ((λ c, kept c) <$> seq 0 (Z.to_nat k)) = res.
Proof.
  destruct (Z.to_nat k) as [|n] eqn:En; [lia|].
  rewrite seq_S, fmap_app, concat_app. simpl. rewrite app_nil_r.
  rewrite concat_inner by lia. rewrite res_length.
  unfold rows_between, kept_hi. rewrite decide_True by lia.
  rewrite take_take_drop. apply take_ge. rewrite res_length.
  pose proof (step_facts n ltac:(lia)) as (_ & _ & _ & _ & H).
  cbv zeta in H. unfold kept_lo. lia.
Qed.
End chunks.

(** A run of the driver in chunks writes the result of the stencil on
    the whole stack. *)
Lemma process_aligned_chunked ck rta raa uid al out tmp k master nd
    fwr arr fwo off ws res w :
  ck (length al) = (off, ws) → rta al = inr arr →
  match fwr, fwo with
  | Some f, Some a => rta f = inr a
  | None, None => True
  | _, _ => False
  end →
  raa al = true →
  well_shaped arr off ws (feather_or_ones arr fwo) → radius_one off →
  (2 ≤ k ≤ Z.of_nat (shape0 arr))%Z →
  s1_collapse arr off ws (feather_or_ones arr fwo) (driver_options nd) = Some res →
  ∃ w', process_aligned ck rta raa uid al out tmp k master nd fwr w = (inr out, w') ∧
        rasters w' = rasters w ++ [(out, master, mask_nodata res nd)].
Proof.
  intros Hck Harr Hfw Haligned Hwf Hrad Hk Hres.
  unfold process_aligned. rewrite Hck. rewrite bind_run. rewrite Harr.
  cbn [lift]. rewrite bind_run.
  assert (Hf : (match fwr with
                | Some f => a ← lift (rta f); mret (Some a)
                | None => mret None
                end) w = (inr fwo, w)).
  { destruct fwr as [f|], fwo as [a|]; try done.
    by rewrite bind_run, Hfw. }
  rewrite Hf. rewrite Haligned. cbn [negb].
  destruct (Z.ltb_spec 1 k) as [_|]; [|lia].
  rewrite bind_run. cbn [print]. rewrite bind_run.
  change (3 `div` 2)%Z with 1%Z.
  rewrite (chunk_loop arr fwo off ws tmp uid k nd res Hwf Hrad Hk Hres); last first.
  { apply Forall_forall. intros c Hc. apply elem_of_seq in Hc. lia. }
  rewrite bind_run. cbn [print]. rewrite bind_run. rewrite app_nil_l.
  rewrite (merge_loop tmp uid k res); last first.
  { apply Forall_forall. intros c Hc. cbn [files]. by apply staged_files. }
  cbn [print array_to_raster mret M_ret]. rewrite !bind_run.
  cbn [print array_to_raster mret M_ret files rasters calls stdout].
  rewrite app_nil_l.
  rewrite (concat_kept arr fwo off ws k nd res) by done.
  eexists. split; [done|]. cbn [rasters]. by rewrite staged_rasters.
Qed.

(** ** Runs of process_aligned *)

(** A run in one piece without feather weights writes the result of the
    stencil on the whole stack, weighted by ones. *)
Lemma process_aligned_unchunked ck rta raa uid al out tmp k master nd
    arr off ws res w :
  ck (length al) = (off, ws) → rta al = inr arr → raa al = true →
  (k ≤ 1)%Z →
  s1_collapse arr off ws (ones_like arr) (driver_options nd) = Some res →
  ∃ w', process_aligned ck rta raa uid al out tmp k master nd None w = (inr out, w') ∧
        rasters w' = rasters w ++ [(out, master, mask_nodata res nd)].
Proof.
  intros Hck Harr Haligned Hk Hres.
  unfold process_aligned. rewrite Hck. rewrite bind_run. rewrite Harr.
  cbn [lift]. rewrite bind_run. cbn [mret M_ret]. rewrite Haligned. cbn [negb].
  destruct (Z.ltb_spec 1 k) as [|_]; [lia|].
  rewrite bind_run. cbn [print]. rewrite bind_run.
  unfold s1_collapse_call. fold (driver_options nd). rewrite Hres.
  cbn [mret M_ret]. rewrite !bind_run.
  cbn [print array_to_raster mret M_ret files rasters calls stdout].
  eexists. split; done.
Qed.

(** C1, as the code has it.  Without feather weights, on a stack of at
    least one time step, with a kernel that reaches one row up and down
    at most and one weight per offset, a run in [k] chunks, for every [k]
    from 1 to the number of rows of the stack, ends and writes the array
    that the run in one piece writes; this array has the rows and the
    columns of the stack. *)
Theorem chunking_preserves_output ck rta raa uid al out tmp k master nd
    arr off ws w :
  ck (length al) = (off, ws) → rta al = inr arr → raa al = true →
  well_shaped arr off ws (ones_like arr) → radius_one off →
  (1 ≤ k ≤ Z.of_nat (shape0 arr))%Z →
  ∃ res w1 wk,
    process_aligned ck rta raa uid al out tmp 1 master nd None w = (inr out, w1) ∧
    process_aligned ck rta raa uid al out tmp k master nd None w = (inr out, wk) ∧
    rasters w1 = rasters w ++ [(out, master, mask_nodata res nd)] ∧
    rasters wk = rasters w ++ [(out, master, mask_nodata res nd)] ∧
    length res = shape0 arr ∧ Forall (λ row, length row = shape1 arr) res.
Proof.
  intros Hck Harr Haligned Hwf Hrad Hk.
  destruct (s1_collapse_is_Some arr off ws (ones_like arr) (driver_options nd) Hwf)
    as [res Hres].
  destruct (process_aligned_unchunked ck rta raa uid al out tmp 1 master nd
              arr off ws res w) as (w1 & Hrun1 & Hw1); try done.
  exists res, w1.
  destruct (decide (k = 1%Z)) as [->|Hne].
  - exists w1. repeat split; try done; by apply s1_collapse_shape in Hres as [? ?].
  - destruct (process_aligned_chunked ck rta raa uid al out tmp k master nd
                None arr None off ws res w) as (wk & Hrunk & Hwk); try done; [lia|].
    exists wk. repeat split; try done; by apply s1_collapse_shape in Hres as [? ?].
Qed.

(** C1 fails as it is stated: on a stack of one row, a run in two chunks
    writes an array without rows, while the run in one piece writes the
    row. *)
Lemma chunking_more_chunks_than_rows :
  let run k :=
    process_aligned example.kernel example.read_one_row example.aligned "u"
      ["a.tif"] "out.tif" "tmp/" k "master.tif" (-9999) None example.empty_world in
  rasters (run 1%Z).2 = [("out.tif", "master.tif", mask_nodata [[5]] (-9999))] ∧
  rasters (run 2%Z).2 = [("out.tif", "master.tif", mask_nodata [] (-9999))] ∧
  rasters (run 1%Z).2 ≠ rasters (run 2%Z).2 ∧
  length (@nil (list Q)) ≠ shape0 example.one_row.
Proof.
  cbv zeta. split; [vm_compute; reflexivity|].
  split; [vm_compute; reflexivity|].
  split; [vm_compute; intros H; discriminate H|vm_compute; lia].
Qed.

(** With feather rasters a run in one piece passes the rasters, not the
    array read from them, to [s1_collapse], and ends with a typing error
    before anything is written. *)
Lemma process_aligned_unchunked_feather ck rta raa uid al out tmp k master nd
    f arr fwa w :
  rta al = inr arr → rta f = inr fwa → raa al = true → (k ≤ 1)%Z →
  ∃ w', process_aligned ck rta raa uid al out tmp k master nd (Some f) w =
          (inl TypingError, w') ∧
        rasters w' = rasters w.
Proof.
  intros Harr Hf Haligned Hk.
  unfold process_aligned. destruct (ck (length al)) as [off ws].
  rewrite bind_run. rewrite Harr. cbn [lift]. rewrite !bind_run. rewrite Hf.
  cbn [mret M_ret]. rewrite Haligned. cbn [negb].
  destruct (Z.ltb_spec 1 k) as [|_]; [lia|].
  cbn [lift mret M_ret]. rewrite bind_run. cbn [print]. rewrite bind_run.
  unfold s1_collapse_call. cbn [raise]. eexists. split; done.
Qed.

(** C6 at a failing input: a stack of two rows with feather rasters.
    The run in one piece raises a typing error and writes nothing; the
    run in two chunks uses the feather array and writes the result. *)
Lemma unchunked_feather_failing_input :
  let run k :=
    process_aligned example.kernel example.read_two_rows example.aligned "u"
      ["a.tif"] "out.tif" "tmp/" k "master.tif" (-9999) (Some ["feather.tif"])
      example.empty_world in
  (run 1%Z).1 = inl TypingError ∧ rasters (run 1%Z).2 = [] ∧
  (run 2%Z).1 = inr "out.tif" ∧
  rasters (run 2%Z).2 =
    [("out.tif", "master.tif", mask_nodata [[5]; [7]] (-9999))].
Proof. cbv zeta. repeat split; vm_compute; reflexivity. Qed.

(** ** The theorems at concrete inputs *)


Lemma hood_quantile_monotone_witness :
  ∃ r1 r2, hood_quantile [30; 10; 20] [1; 2; 1] (1 # 4) = Some r1 ∧
           hood_quantile [30; 10; 20] [1; 2; 1] (3 # 4) = Some r2 ∧ r1 <= r2.
Proof.
  apply (hood_quantile_monotone [30; 10; 20] [1; 2; 1] (1 # 4) (3 # 4)).
  - done.
  - reflexivity.
  - repeat constructor; unfold Qle; simpl; lia.
  - reflexivity.
  - unfold Qle; simpl; lia.
  - unfold Qle; simpl; lia.
  - unfold Qle; simpl; lia.
Defined.

Lemma mosaic_s1_precondition_witness :
  let run v :=
    mosaic_s1 example.kernel example.read_two_rows example.aligned "u"
      example.reproject example.intersect example.clip example.align
      example.proximity example.no_file example.stem
      v "out.tif" "tmp/" "master.tif" (-9999) 2 true 5000 false
      example.empty_world in
  (∃ e, precondition_error e ∧ run (PyList ["a.tif"]) = (inl e, example.empty_world)) ∧
  (∀ e, (run (PyList ["a.tif"; "b.tif"])).1 = inl e → ¬ precondition_error e).
Proof.
  cbv zeta. split.
  - apply (mosaic_s1_precondition example.kernel example.read_two_rows
             example.aligned "u" example.reproject example.intersect example.clip
             example.align example.proximity example.no_file example.stem
             (PyList ["a.tif"])).
    simpl. lia.
  - apply (mosaic_s1_precondition example.kernel example.read_two_rows
             example.aligned "u" example.reproject example.intersect example.clip
             example.align example.proximity example.no_file example.stem
             (PyList ["a.tif"; "b.tif"])).
    simpl. lia.
Defined.

Lemma example_well_shaped :
  well_shaped example.two_times example.three_offsets [1; 1; 1]
    (ones_like example.two_times).
Proof. repeat split; simpl; lia. Defined.

Lemma all_excluded_gives_nodata_witness :
  (∃ h, gather (inputs example.two_times example.three_offsets [1; 1; 1]
                  (ones_like example.two_times)) default_options 0 0 = Some h ∧
        weight_sum h = 0) ∧
  ∃ res row,
    s1_collapse example.two_times example.three_offsets [1; 1; 1]
      (ones_like example.two_times) default_options = Some res ∧
    res !! 0%nat = Some row ∧ row !! 0%nat = Some (-9999).
Proof.
  apply (all_excluded_gives_nodata example.two_times example.three_offsets
           [1; 1; 1] (ones_like example.two_times) default_options 0 0).
  - exact example_well_shaped.
  - reflexivity.
  - simpl; lia.
  - simpl; lia.
  - intros c Hc. apply list_elem_of_In in Hc. simpl in Hc.
    destruct Hc as [<-|[<-|[<-|[]]]].
    + right. exists (-9999). split; reflexivity.
    + left. unfold out_of_range. simpl. Z.div_mod_to_equations. lia.
    + left. unfold out_of_range. simpl. Z.div_mod_to_equations. lia.
Defined.

Lemma no_weight_gives_zero_witness :
  ∃ res row,
    s1_collapse example.one_row [(1, 0, 0)%Z] [1] (ones_like example.one_row)
      {| quantile := 1 # 2; nodata := false; nodata_value := -9999;
         weighted := true |} = Some res ∧
    res !! 0%nat = Some row ∧ row !! 0%nat = Some 0.
Proof.
  apply (no_weight_gives_zero example.one_row [(1, 0, 0)%Z] [1]
           (ones_like example.one_row)
           {| quantile := 1 # 2; nodata := false; nodata_value := -9999;
              weighted := true |} 0 0
           {| hood_values := [0]; hood_weights := [0]; weight_sum := 0 |}).
  - repeat split; simpl; lia.
  - reflexivity.
  - simpl; lia.
  - simpl; lia.
  - vm_compute. reflexivity.
  - reflexivity.
Defined.


Lemma s1_collapse_frame_witness :
  let m := inputs example.two_times example.three_offsets [1; 1; 1]
             (ones_like example.two_times) in
  ∃ m', s1_collapse_mem default_options m = Some m' ∧
        m_arr m' = m_arr m ∧ m_offsets m' = m_offsets m ∧
        m_weights m' = m_weights m ∧ m_feather m' = m_feather m ∧
        ∀ x y, (x < shape0 (m_arr m))%nat → (y < shape1 (m_arr m))%nat →
          ∃ m1, pixel_body default_options x (fresh default_options m) y = Some m1 ∧
                is_Some (result_at m' x y) ∧
                result_at m' x y = result_at m1 x y.
Proof.
  apply (s1_collapse_frame default_options
           (inputs example.two_times example.three_offsets [1; 1; 1]
              (ones_like example.two_times))).
  exact example_well_shaped.
Defined.

Lemma sort_rasters_order_witness :
  let rasters := ["ccc"; "a"; "bb"; "dddd"; "eeeee"] in
  ∃ out,
    sort_rasters example.date rasters = Some (Raster <$> out) ∧
    out ≡ₚ rasters ∧ length out = 5%nat ∧
    sorted example.date rasters ≡ₚ rasters ∧
    (∀ i j a b, (i < j)%nat →
       sorted example.date rasters !! i = Some a →
       sorted example.date rasters !! j = Some b →
       (example.date a < example.date b)%Z) ∧
    out !! 2%nat = sorted example.date rasters !! 0%nat ∧
    ∀ j, (1 ≤ j)%nat →
      ((2 * j - 1 < 5)%nat →
         out !! (2 - j)%nat = sorted example.date rasters !! (2 * j - 1)%nat) ∧
      ((2 * j < 5)%nat →
         out !! (2 + j)%nat = sorted example.date rasters !! (2 * j)%nat).
Proof.
  apply (sort_rasters_order example.date ["ccc"; "a"; "bb"; "dddd"; "eeeee"]).
  - simpl; lia.
  - apply (bool_decide_unpack _). vm_compute. reflexivity.
Defined.

Lemma chunking_preserves_output_witness :
  ∃ res w1 wk,
    process_aligned example.kernel example.read_two_rows example.aligned "u"
      ["a.tif"] "out.tif" "tmp/" 1 "master.tif" (-9999) None example.empty_world =
      (inr "out.tif", w1) ∧
    process_aligned example.kernel example.read_two_rows example.aligned "u"
      ["a.tif"] "out.tif" "tmp/" 2 "master.tif" (-9999) None example.empty_world =
      (inr "out.tif", wk) ∧
    rasters w1 =
      rasters example.empty_world ++ [("out.tif", "master.tif", mask_nodata res (-9999))] ∧
    rasters wk =
      rasters example.empty_world ++ [("out.tif", "master.tif", mask_nodata res (-9999))] ∧
    length res = shape0 example.two_rows ∧
    Forall (λ row, length row = shape1 example.two_rows) res.
Proof.
  apply (chunking_preserves_output example.kernel example.read_two_rows
           example.aligned "u" ["a.tif"] "out.tif" "tmp/" 2 "master.tif" (-9999)
           example.two_rows [(0, 0, 0)%Z] [1] example.empty_world).
  - reflexivity.
  - reflexivity.
  - reflexivity.
  - repeat split; simpl; lia.
  - repeat constructor; simpl; lia.
  - simpl; lia.
Defined.

(** ** A remark on skipped candidates

    The slot of a skipped candidate stays in the arrays that are given to
    [hood_quantile], with value 0 and weight 0.  A knot of weight 0 does
    not move the other knots, but the interpolation passes through it:
    at the first position of a row holding -10 and 30, the third
    candidate is out of range and the median of the two samples of equal
    weight comes out as 0, where the kernel without that candidate gives
    10. *)
Example skipped_slot_is_a_knot :
  let arr := of_lists [[[-10]; [30]]] in
  s1_collapse arr [(0, 0, 0); (0, 1, 0); (0, -1, 0)]%Z [1; 1; 1] (ones_like arr)
    default_options = Some [[0; 0]] ∧
  match s1_collapse arr [(0, 0, 0); (0, 1, 0)]%Z [1; 1] (ones_like arr)
          default_options with
  | Some [[v; _]] => v == 10
  | _ => False
  end.
Proof. split; vm_compute; reflexivity. Qed.

(** ** The range of hood_quantile *)

Lemma hood_knots_ascending values sw T :
  Forall (λ w, 0 <= w) sw → 0 < T →
  match zip (zip_with (λ c w, (c - (1 # 2) * w) / T) (np.cumsum sw) sw)
          (np.sort values) with
  | [] => True
  | (x0, f0) :: rest => ascending x0 f0 rest
  end.
Proof.
  intros Hw HT. pose proof (sort_ascending values) as Hasc.
  destruct sw as [|w sw]; [done|]. destruct (np.sort values) as [|d ds]; [done|].
  simpl. apply Forall_cons in Hw as [Hw0 Hw].
  apply knots_ascending; try done.
  assert (Hinv : 0 <= / T) by (apply Qinv_le_0_compat; lra).
  unfold Qdiv. apply Qmult_le_compat_r; lra.
Qed.

Lemma last_default_elem {A} (rest : list A) : ∀ d, List.last rest d ∈ d :: rest.
Proof.
  induction rest as [|a rest IH]; intros d; [by left|].
  rewrite last_cons_default. right. apply IH.
Qed.

(** On ascending knots [np.interp] stays between the first and the last
    value. *)
Lemma interp_between x xp fp x0 f0 rest r :
  zip xp fp = (x0, f0) :: rest → ascending x0 f0 rest →
  np.interp x xp fp = Some r →
  f0 <= r ∧ r <= (List.last rest (x0, f0)).2.
Proof.
  unfold np.interp. intros Hz Hasc. case_decide; [|done]. rewrite Hz.
  pose proof (ascending_last _ _ _ Hasc) as [Hlx Hlf].
  destruct (List.last rest (x0, f0)) as [xl fl] eqn:El. simpl in *.
  destruct (Qle_bool x xl) eqn:E1; simpl; [|intros [= <-]; lra].
  destruct (Qle_bool x0 x) eqn:E2; simpl; intros [= <-]; [|lra].
  apply Qle_bool_iff in E2. split.
  - by apply interp_search_lower.
  - pose proof (interp_search_upper x rest x0 f0 Hasc E2) as Hu.
    by rewrite El in Hu.
Qed.

Lemma hood_quantile_range values weights q lo hi :
  values ≠ [] → length weights = length values →
  Forall (λ w, 0 <= w) weights → 0 < sumQ weights →
  Forall (λ v, lo <= v ∧ v <= hi) values →
  ∃ r, hood_quantile values weights q = Some r ∧ lo <= r ∧ r <= hi.
Proof.
  intros Hne Hlen Hw Hsum Hv.
  destruct (hood_quantile_is_Some values weights q Hne Hlen) as [r Hr].
  exists r. split; [done|].
  destruct (hood_quantile_unfold values weights Hne Hlen)
    as (sw & T & Hp & _ & HT & HTs & Hq).
  rewrite Hq in Hr.
  assert (HTpos : 0 < T) by lra.
  apply (Forall_perm_nonneg _ _ Hp) in Hw.
  pose proof (hood_knots_ascending values sw T Hw HTpos) as Hasc.
  destruct (zip _ (np.sort values)) as [|[x0 f0] rest] eqn:Hz.
  { unfold np.interp in Hr. case_decide; [|done]. by rewrite Hz in Hr. }
  destruct (interp_between _ _ _ _ _ _ _ Hz Hasc Hr) as [Hlo Hhi].
  assert (Hin : ∀ p, p ∈ (x0, f0) :: rest → lo <= p.2 ∧ p.2 <= hi).
  { intros [x f] Hp'. rewrite <- Hz in Hp'. apply elem_of_zip_r in Hp'.
    rewrite sort_perm in Hp'. by apply (proj1 (Forall_forall _ _) Hv). }
  pose proof (Hin (x0, f0) ltac:(by left)) as [H0 _].
  pose proof (Hin _ (last_default_elem rest (x0, f0))) as [_ Hl].
  simpl in *. split; lra.
Qed.

(** X1. For a non-empty array of values and one non-negative weight per
    value, the weights having a positive sum, [hood_quantile] returns, at
    every quantile, a number between the smallest and the largest value:
    bounds that hold for all the values hold for the result. *)
Theorem hood_quantile_between values weights q lo hi :
  values ≠ [] → length weights = length values →
  Forall (λ w, 0 <= w) weights → 0 < sumQ weights →
  Forall (λ v, lo <= v ∧ v <= hi) values →
  ∃ r, hood_quantile values weights q = Some r ∧ lo <= r ∧ r <= hi.
Proof. apply hood_quantile_range. Qed.

Lemma hood_quantile_between_witness :
  ∃ r, hood_quantile [30; 10; 20] [1; 2; 1] (3 # 4) = Some r ∧
       10 <= r ∧ r <= 30.
Proof.
  apply hood_quantile_between.
  - done.
  - reflexivity.
  - repeat constructor; vm_compute; discriminate.
  - reflexivity.
  - repeat constructor; vm_compute; discriminate.
Defined.

(** ** The extreme quantiles *)

Lemma knots_in_unit T :
  0 < T → ∀ ws (ds : list Q) acc,
  Forall (λ w, 0 < w) ws → 0 <= acc → acc + sumQ ws <= T →
  Forall (λ p, 0 < p.1 ∧ p.1 < 1)
    (zip (zip_with (λ c w, (c - (1 # 2) * w) / T) (np.cumsum_from acc ws) ws) ds).
Proof.
  intros HT. induction ws as [|w ws IH]; intros ds acc Hws Hacc Hsum.
  - constructor.
  - destruct ds as [|d ds]; [constructor|]. simpl in *.
    apply Forall_cons in Hws as [Hw Hws].
    assert (H0 : 0 <= sumQ ws).
    { clear -Hws. induction Hws; simpl; [lra|]. unfold sumQ in *. simpl. lra. }
    constructor.
    + simpl. split.
      * apply Qlt_shift_div_l; lra.
      * apply Qlt_shift_div_r; lra.
    + apply IH; [done|lra|lra].
Qed.

Lemma last_List_last {A} (rest : list A) : ∀ p,
  last (p :: rest) = Some (List.last rest p).
Proof.
  induction rest as [|a rest IH]; intros p; [done|].
  rewrite last_cons_default. rewrite <- IH. done.
Qed.

Lemma ascendingQ_head a l : ascendingQ (a :: l) → Forall (λ v, a <= v) (a :: l).
Proof.
  revert a. induction l as [|b l IH]; intros a H.
  - constructor; [lra|constructor].
  - destruct H as [Hab H]. constructor; [lra|].
    eapply Forall_impl; [apply IH, H|]. simpl. intros; lra.
Qed.

Lemma ascendingQ_last l : ∀ a,
  ascendingQ (a :: l) → Forall (λ v, v <= List.last l a) (a :: l).
Proof.
  induction l as [|b l IH]; intros a H.
  - constructor; [simpl; lra|constructor].
  - destruct H as [Hab H]. rewrite last_cons_default.
    pose proof (IH b H) as Hb. constructor; [|done].
    apply Forall_cons in Hb as [Hb _]. lra.
Qed.

(** X2. With one positive weight per value, [hood_quantile] at a
    quantile of 0 or less is the smallest value, and at a quantile of 1
    or more the largest. *)
Theorem hood_quantile_extremes values weights q :
  values ≠ [] → length weights = length values →
  Forall (λ w, 0 < w) weights →
  ∃ lo hi,
    lo ∈ values ∧ hi ∈ values ∧
    Forall (λ v, lo <= v ∧ v <= hi) values ∧
    (q <= 0 → hood_quantile values weights q = Some lo) ∧
    (1 <= q → hood_quantile values weights q = Some hi).
Proof.
  intros Hne Hlen Hw.
  destruct (hood_quantile_unfold values weights Hne Hlen)
    as (sw & T & Hp & _ & HT & HTs & Hq).
  rewrite Hq. clear Hq.
  assert (Hsw : Forall (λ w, 0 < w) sw) by by rewrite Hp.
  assert (HTpos : 0 < T).
  { rewrite HTs, <- (sumQ_perm _ _ Hp).
    assert (length sw = length values) as Hl by by rewrite Hp.
    destruct sw as [|w sw]; [by destruct values|].
    apply Forall_cons in Hsw as [Hw0 Hsw].
    assert (0 <= sumQ sw).
    { clear -Hsw. induction Hsw; simpl; [lra|]. unfold sumQ in *. simpl. lra. }
    unfold sumQ in *. simpl. lra. }
  assert (Hsum : 0 + sumQ sw <= T) by (rewrite HTs, (sumQ_perm _ _ Hp); lra).
  pose proof (knots_in_unit T HTpos sw (np.sort values) 0 Hsw ltac:(lra) Hsum)
    as Hunit.
  fold (np.cumsum sw) in Hunit.
  assert (Hlsw : length sw = length (np.sort values)).
  { rewrite sort_length, Hp. done. }
  pose proof (sort_ascending values) as Hasc.
  pose proof (sort_perm values) as Hperm.
  set (xp := zip_with (λ c w, (c - (1 # 2) * w) / T) (np.cumsum sw) sw) in *.
  assert (Hlxp : length xp = length (np.sort values)).
  { unfold xp, np.cumsum. rewrite length_zip_with, cumsum_from_length. lia. }
  unfold np.interp. rewrite decide_True by done.
  destruct (zip xp (np.sort values)) as [|[x0 f0] rest] eqn:Hz.
  { destruct xp, (np.sort values) eqn:Es; try done.
    apply Permutation_nil_l in Hperm. done. }
  assert (Hfp : np.sort values = ((x0, f0) :: rest).*2).
  { rewrite <- Hz. rewrite snd_zip; [done|lia]. }
  exists f0, (List.last rest (x0, f0)).2.
  assert (Hl : List.last rest (x0, f0) ∈ (x0, f0) :: rest)
    by apply last_default_elem.
  assert (Hlast : List.last rest.*2 f0 = (List.last rest (x0, f0)).2).
  { clear. revert x0 f0. induction rest as [|[x1 f1] rest IH]; intros x0 f0; [done|].
    rewrite fmap_cons, !last_cons_default. apply IH. }
  split; [|split; [|split; [|split]]].
  - rewrite <- Hperm, Hfp. by left.
  - rewrite <- Hperm, Hfp. by apply (list_elem_of_fmap_2 snd).
  - rewrite <- Hperm, Hfp. rewrite Hfp in Hasc.
    pose proof (ascendingQ_head f0 rest.*2 Hasc) as H1.
    pose proof (ascendingQ_last rest.*2 f0 Hasc) as H2.
    rewrite Hlast in H2.
    apply Forall_forall. intros v Hv.
    apply (proj1 (Forall_forall _ _) H1) in Hv as Hv1.
    apply (proj1 (Forall_forall _ _) H2) in Hv as Hv2. done.
  - intros Hq0.
    pose proof (proj1 (Forall_forall _ _) Hunit _ Hl) as [Hl0 Hl1].
    pose proof (proj1 (Forall_forall _ _) Hunit (x0, f0) ltac:(by left)) as [H00 H01].
    destruct (List.last rest (x0, f0)) as [xl fl]. simpl in *.
    assert (E1 : Qle_bool q xl = true) by (apply Qle_bool_iff; lra).
    rewrite E1. simpl.
    destruct (Qle_bool x0 q) eqn:E2; [apply Qle_bool_iff in E2; lra|done].
  - intros Hq1.
    pose proof (proj1 (Forall_forall _ _) Hunit _ Hl) as [Hl0 Hl1].
    destruct (List.last rest (x0, f0)) as [xl fl]. simpl in *.
    destruct (Qle_bool q xl) eqn:E1; [apply Qle_bool_iff in E1; lra|done].
Qed.

Lemma hood_quantile_extremes_witness :
  ∃ lo hi,
    lo ∈ [30; 10; 20] ∧ hi ∈ [30; 10; 20] ∧
    Forall (λ v, lo <= v ∧ v <= hi) [30; 10; 20] ∧
    (0 <= 0 → hood_quantile [30; 10; 20] [1; 2; 1] 0 = Some lo) ∧
    (1 <= 0 → hood_quantile [30; 10; 20] [1; 2; 1] 0 = Some hi).
Proof.
  apply hood_quantile_extremes; [done|reflexivity|].
  repeat (constructor; [reflexivity|]). constructor.
Defined.

(** ** The scale of the weights *)










(** ** sort_rasters on any list *)

Section sort_rasters_any.
Variable name_to_date : string → Z.

Local Abbreviation by_date_of := (sorted name_to_date).

(** The run of the function on a list that is not empty. *)
Lemma sort_rasters_run rasters :
  rasters ≠ [] →
  ∃ copy, sort_rasters name_to_date rasters = Some copy ∧
          length copy = length rasters ∧
          ∀ i, (i < length rasters)%nat →
            copy !! stack_position (length rasters / 2) i =
            Raster <$> by_date_of rasters !! i.
Proof.
  intros Hne. remember (length rasters) as N eqn:EN.
  remember (by_date_of rasters) as by_date eqn:EB.
  assert (Hperm : by_date ≡ₚ rasters) by (rewrite EB; apply sorted_perm).
  assert (HlenB : length by_date = N) by (by rewrite Hperm).
  assert (1 ≤ N)%nat as HN by (destruct rasters; [done|simpl in EN; lia]).
  assert (N / 2 < N)%nat as Hmid by (apply Nat.div_lt; lia).
  assert (HmidZ : (Z.of_nat N `div` 2)%Z = Z.of_nat (N / 2))
    by (by rewrite Nat2Z.inj_div).
  destruct by_date as [|first rest] eqn:Eb; [simpl in HlenB; lia|].
  rewrite <- Eb in *.
  assert (Hrun : ∃ st, sort_rasters name_to_date rasters = Some st.1.1 ∧
                       placed by_date N st).
  { unfold sort_rasters. rewrite <- EB, <- EN, HmidZ.
    assert (by_date !! 0%nat = Some first) as -> by (by rewrite Eb).
    cbn [mbind option_bind].
    rewrite setitem_in_range by (by rewrite length_fmap, length_seq).
    cbn [mbind option_bind].
    destruct (place_loop by_date rest 1
                (<[(N / 2)%nat := Raster first]> (Index <$> seq 0 N), 1%Z, true))
      as (st & Hloop & Hst).
    - rewrite HlenB. lia.
    - by rewrite Eb.
    - unfold placed. cbn [fst snd]. rewrite HlenB.
      split; [by rewrite length_insert, length_fmap, length_seq|].
      split; [done|]. split; [done|].
      intros i Hi. assert (i = 0)%nat as -> by lia.
      unfold stack_position. rewrite decide_True by done.
      rewrite list_lookup_insert_eq by (by rewrite length_fmap, length_seq).
      by rewrite Eb.
    - exists st. rewrite HlenB, HmidZ in Hloop. rewrite HlenB in Hst.
      split; [|done].
      rewrite Eb at 1. rewrite imap_cons. cbn [for_each place].
      rewrite decide_True by done. cbn [mbind option_bind].
      erewrite imap_ext; [rewrite Hloop; done|].
      intros i x _. done. }
  destruct Hrun as ([[copy add] left'] & Hrun & Hlen & _ & _ & Hcopy).
  cbn [fst snd] in *. rewrite HlenB in Hlen, Hcopy.
  exists copy. done.
Qed.

(** Inserting a raster keeps the order of the rasters of one date. *)
Lemma insert_by_date_stable r l d :
  StronglySorted (λ a b, (name_to_date a ≤ name_to_date b)%Z) l →
  filter (λ s, name_to_date s = d) (insert_by_date name_to_date r l) =
  filter (λ s, name_to_date s = d) (r :: l).
Proof.
  induction 1 as [|s l Hl IH Hs]; [done|]. simpl.
  destruct (Z.leb_spec (name_to_date r) (name_to_date s)) as [Hle|Hlt]; [done|].
  rewrite filter_cons, IH, !filter_cons.
  destruct (decide (name_to_date s = d)) as [Hs'|Hs'];
    destruct (decide (name_to_date r = d)) as [Hr'|Hr']; try done. lia.
Qed.

Lemma sorted_stable l d :
  filter (λ s, name_to_date s = d) (by_date_of l) =
  filter (λ s, name_to_date s = d) l.
Proof.
  induction l as [|r l IH]; [done|]. unfold sorted in *. simpl.
  rewrite insert_by_date_stable by apply sorted_sorted.
  by rewrite !filter_cons, IH.
Qed.

(** X4. [sort_rasters] fails on the empty list, and on every other list,
    dates that repeat included, it returns a list of rasters only: a
    permutation of the input in which the raster of rank [i] in time
    order sits at the midpoint for [i = 0], then left and right of it in
    turn.  The time order does not decrease, and rasters of one date keep
    the order they have in the input. *)
Theorem sort_rasters_any_list rasters :
  let N := length rasters in
  let by_date := by_date_of rasters in
  (rasters = [] → sort_rasters name_to_date rasters = None) ∧
  (rasters ≠ [] →
   ∃ out,
     sort_rasters name_to_date rasters = Some (Raster <$> out) ∧
     out ≡ₚ rasters ∧
     (∀ i, (i < N)%nat → out !! stack_position (N / 2) i = by_date !! i) ∧
     (∀ i j a b, (i ≤ j)%nat → by_date !! i = Some a → by_date !! j = Some b →
        (name_to_date a ≤ name_to_date b)%Z) ∧
     ∀ d, filter (λ r, name_to_date r = d) by_date =
          filter (λ r, name_to_date r = d) rasters).
Proof.
  intros N by_date. split; [by intros ->|]. intros Hne.
  destruct (sort_rasters_run rasters Hne) as (copy & Hrun & Hlen & Hcopy).
  fold N in Hlen, Hcopy. fold by_date in Hcopy.
  assert (Hperm : by_date ≡ₚ rasters) by apply sorted_perm.
  assert (HlenB : length by_date = N) by (by rewrite Hperm).
  destruct by_date as [|first rest] eqn:Eb.
  { destruct rasters; [done|simpl in HlenB; subst N; simpl in *; lia]. }
  rewrite <- Eb in *.
  pose (out := (λ p, default first (by_date !! stack_rank (N / 2)%nat p)) <$> seq 0 N).
  assert (Hout : ∀ i, (i < N)%nat → out !! stack_position (N / 2)%nat i = by_date !! i).
  { intros i Hi. subst out. rewrite list_lookup_fmap.
    pose proof (stack_position_lt N i Hi) as Hp.
    rewrite lookup_seq_lt by done. simpl.
    destruct (stack_rank_spec N (stack_position (N / 2)%nat i) Hp) as [Hr1 Hr2].
    apply stack_position_inj in Hr2; [|done..].
    rewrite Hr2. destruct (lookup_lt_is_Some_2 by_date i) as [x ->]; [lia|done]. }
  assert (HlenO : length out = N) by (subst out; by rewrite length_fmap, length_seq).
  assert (Hcopy_out : copy = Raster <$> out).
  { apply list_eq. intros p. destruct (decide (p < N)%nat) as [Hp|Hp].
    - destruct (stack_rank_spec N p Hp) as [Hr1 Hr2].
      rewrite <- Hr2, Hcopy, list_lookup_fmap, Hout by done. done.
    - rewrite !lookup_ge_None_2; [done| |lia].
      rewrite length_fmap. lia. }
  exists out. rewrite Hrun, Hcopy_out. split; [done|].
  assert (Hob : by_date ≡ₚ out).
  { apply Permutation_inj. split; [lia|].
    exists (λ i, if decide (i < N)%nat then stack_position (N / 2)%nat i else i).
    split.
    - intros i j. pose proof (stack_position_lt N i) as Hi.
      pose proof (stack_position_lt N j) as Hj.
      repeat case_decide; intros E; try lia.
      by apply (stack_position_inj N).
    - intros i. case_decide; [by rewrite Hout|].
      rewrite !lookup_ge_None_2; [done|lia..]. }
  split; [by rewrite <- Hob|]. split; [done|]. split.
  - intros i j a b Hij Ha Hb. destruct (decide (i = j)) as [->|Hne'].
    { rewrite Ha in Hb. injection Hb as ->. lia. }
    apply (strongly_sorted_lookup
             (λ a b, (name_to_date a ≤ name_to_date b)%Z) _ i j a b
             (sorted_sorted name_to_date rasters)); [lia|done..].
  - intros d. apply sorted_stable.
Qed.

End sort_rasters_any.

Lemma sort_rasters_any_list_witness :
  sort_rasters example.date [] = None ∧
  ∃ out,
    sort_rasters example.date ["ccc"; "a"; "bb"; "dd"] = Some (Raster <$> out) ∧
    out ≡ₚ ["ccc"; "a"; "bb"; "dd"] ∧
    (∀ i, (i < 4)%nat →
       out !! stack_position (4 / 2) i =
       sorted example.date ["ccc"; "a"; "bb"; "dd"] !! i) ∧
    (∀ i j a b, (i ≤ j)%nat →
       sorted example.date ["ccc"; "a"; "bb"; "dd"] !! i = Some a →
       sorted example.date ["ccc"; "a"; "bb"; "dd"] !! j = Some b →
       (example.date a ≤ example.date b)%Z) ∧
    ∀ d, filter (λ r, example.date r = d)
           (sorted example.date ["ccc"; "a"; "bb"; "dd"]) =
         filter (λ r, example.date r = d) ["ccc"; "a"; "bb"; "dd"].
Proof.
  split.
  - by apply (sort_rasters_any_list example.date []).
  - by apply (sort_rasters_any_list example.date ["ccc"; "a"; "bb"; "dd"]).
Defined.

(** ** The reads of s1_collapse *)

(** X5. On arrays that fit together every read of [s1_collapse] is
    inside the arrays, whatever the offsets of the kernel are: the call
    returns, and the result has the rows and the columns of the stack. *)
Theorem s1_collapse_returns_shape arr off ws fw o :
  well_shaped arr off ws fw →
  ∃ res, s1_collapse arr off ws fw o = Some res ∧
         length res = shape0 arr ∧
         Forall (λ row, length row = shape1 arr) res.
Proof.
  intros Hwf. destruct (s1_collapse_is_Some arr off ws fw o Hwf) as [res Hres].
  exists res. split; [done|]. by apply s1_collapse_shape in Hres.
Qed.

Lemma s1_collapse_returns_shape_witness :
  ∃ res, s1_collapse example.two_times example.three_offsets [1; 1; 1]
           (ones_like example.two_times) default_options = Some res ∧
         length res = shape0 example.two_times ∧
         Forall (λ row, length row = shape1 example.two_times) res.
Proof. apply s1_collapse_returns_shape. repeat split; simpl; lia. Defined.

(** The time offset of a candidate after clamping. *)
Lemma candidate_time arr x y off :
  (1 ≤ shape2 arr)%nat →
  (- ((Z.of_nat (shape2 arr) - 1) `div` 2) ≤ (candidate arr x y off).1.2
   ≤ (Z.of_nat (shape2 arr) - 1) `div` 2)%Z.
Proof.
  intros Hd. destruct off as [[dx dy] dz]. unfold candidate.
  assert (0 ≤ (Z.of_nat (shape2 arr) - 1) `div` 2)%Z by (apply Z.div_pos; lia).
  remember ((Z.of_nat (shape2 arr) - 1) `div` 2)%Z as z_adj.
  unfold clamp.
  repeat match goal with
         | |- context [(?a <? ?b)%Z] => destruct (Z.ltb_spec a b)
         | |- context [(?a >? ?b)%Z] => destruct (Z.gtb_spec a b)
         end; simpl; lia.
Qed.

Lemma candidate_shape arr arr' x y off :
  shape0 arr = shape0 arr' → shape1 arr = shape1 arr' →
  shape2 arr = shape2 arr' →
  candidate arr x y off = candidate arr' x y off.
Proof. intros E0 E1 E2. unfold candidate. by rewrite E0, E1, E2. Qed.

Lemma getitem3_off_time a b ox oy oz :
  Nat.even (shape2 a) = true → (1 ≤ shape2 a)%nat →
  agree_off_time (shape2 a / 2) a b →
  (- ((Z.of_nat (shape2 a) - 1) `div` 2) ≤ oz
   ≤ (Z.of_nat (shape2 a) - 1) `div` 2)%Z →
  getitem3 a ox oy oz = getitem3 b ox oy oz.
Proof.
  intros Hev Hd (E0 & E1 & E2 & Hag) Hz. unfold getitem3.
  rewrite <- E0, <- E1, <- E2.
  destruct (axis_index (shape0 a) ox) as [i|]; [|done].
  destruct (axis_index (shape1 a) oy) as [j|]; [|done].
  destruct (axis_index (shape2 a) oz) as [k|] eqn:Ek; [|done]. simpl.
  f_equal. apply Hag.
  apply Nat.even_spec in Hev as [h Hh].
  assert (E : (shape2 a / 2 = h)%nat).
  { rewrite Hh. rewrite Nat.mul_comm. apply Nat.div_mul. done. }
  rewrite E.
  assert (Ez : ((Z.of_nat (shape2 a) - 1) `div` 2 = Z.of_nat h - 1)%Z).
  { symmetry. apply (Z.div_unique _ _ _ 1); lia. }
  rewrite Ez in Hz. unfold axis_index in Ek.
  destruct (Z.ltb_spec oz 0);
    destruct (_ && _) eqn:Eb; try done; injection Ek as <-; lia.
Qed.

Lemma slot_off_time arr arr' fw fw' off ws o x y n :
  Nat.even (shape2 arr) = true → (1 ≤ shape2 arr)%nat →
  shape2 fw = shape2 arr →
  agree_off_time (shape2 arr / 2) arr arr' →
  agree_off_time (shape2 arr / 2) fw fw' →
  slot (inputs arr off ws fw) o x y n = slot (inputs arr' off ws fw') o x y n.
Proof.
  intros Hev Hd Hfd Ha Hf. unfold slot. cbn [inputs m_arr m_offsets m_weights m_feather].
  destruct (off !! n) as [c|]; [|done]. cbn [mbind option_bind].
  rewrite <- (candidate_shape arr arr') by apply Ha.
  pose proof (candidate_time arr x y c Hd) as Hz.
  destruct (candidate arr x y c) as [[[ox oy] oz] outside]. cbn [fst snd] in Hz.
  rewrite <- (getitem3_off_time arr arr') by done.
  rewrite <- (getitem3_off_time fw fw'); [done|by rewrite Hfd..].
Qed.

(** X6. On a stack with an even number of time steps the time step in
    the middle (index depth / 2) is never read: two stacks, and two
    arrays of feather weights, that differ at that time step only give
    the same result. *)
Theorem even_depth_ignores_middle arr arr' fw fw' off ws o :
  Nat.even (shape2 arr) = true → (1 ≤ shape2 arr)%nat →
  shape2 fw = shape2 arr →
  agree_off_time (shape2 arr / 2) arr arr' →
  agree_off_time (shape2 arr / 2) fw fw' →
  s1_collapse arr off ws fw o = s1_collapse arr' off ws fw' o.
Proof.
  intros Hev Hd Hfd Ha Hf. rewrite !s1_collapse_eq.
  destruct Ha as (E0 & E1 & E2 & Hag). rewrite <- E0, <- E1. f_equal.
  apply mapM_ext. intros x. apply mapM_ext. intros y.
  unfold pixel_out. rewrite !gather_eq. cbn [inputs m_offsets].
  f_equal. f_equal. apply mapM_ext. intros n.
  by apply slot_off_time.
Qed.

Lemma even_depth_ignores_middle_witness :
  s1_collapse two_times_a [(0, 0, 0); (0, 0, 1); (0, 0, -1)]%Z [1; 1; 1]
    (ones_like two_times_a) default_options =
  s1_collapse two_times_b [(0, 0, 0); (0, 0, 1); (0, 0, -1)]%Z [1; 1; 1]
    (ones_like two_times_b) default_options.
Proof.
  apply even_depth_ignores_middle.
  - reflexivity.
  - simpl; lia.
  - reflexivity.
  - repeat split. intros [|[|x]] [|[|y]] [|[|[|z]]] Hz; try done.
  - repeat split.
Defined.

(** ** The range of the result *)

Lemma axis_index_Some_lt n i k : axis_index n i = Some k → (k < n)%nat.
Proof.
  unfold axis_index. destruct (Z.ltb_spec i 0);
    destruct (_ && _) eqn:Eb; try done; intros [= <-]; lia.
Qed.

Lemma getitem3_Some_inv a x y z v :
  getitem3 a x y z = Some v →
  ∃ i j k, (i < shape0 a)%nat ∧ (j < shape1 a)%nat ∧ (k < shape2 a)%nat ∧
           v = item a i j k.
Proof.
  unfold getitem3.
  destruct (axis_index (shape0 a) x) as [i|] eqn:Ei; [|done].
  destruct (axis_index (shape1 a) y) as [j|] eqn:Ej; [|done].
  destruct (axis_index (shape2 a) z) as [k|] eqn:Ek; [|done].
  simpl. intros [= <-]. exists i, j, k.
  repeat split; by eapply axis_index_Some_lt.
Qed.

(** The values and the weights of the contributions. *)
Lemma slot_inv arr off ws fw o x y n v wt :
  slot (inputs arr off ws fw) o x y n = Some (Some (v, wt)) →
  (∃ i j k, (i < shape0 arr)%nat ∧ (j < shape1 arr)%nat ∧ (k < shape2 arr)%nat ∧
            v = item arr i j k) ∧
  ∃ w i j k, ws !! n = Some w ∧
             (i < shape0 fw)%nat ∧ (j < shape1 fw)%nat ∧ (k < shape2 fw)%nat ∧
             wt = w * item fw i j k.
Proof.
  unfold slot. cbn [inputs m_arr m_offsets m_weights m_feather].
  destruct (off !! n) as [c|]; [|done]. cbn [mbind option_bind].
  destruct (candidate arr x y c) as [[[ox oy] oz] outside].
  destruct (getitem3 arr ox oy oz) as [value|] eqn:Ev; [|done].
  cbn [mbind option_bind].
  destruct (outside || _); [done|].
  destruct (ws !! n) as [w|]; [|done]. cbn [mbind option_bind].
  destruct (getitem3 fw ox oy oz) as [f|] eqn:Ef; [|done].
  cbn [mbind option_bind]. intros [= <- <-]. split.
  - by apply getitem3_Some_inv in Ev.
  - apply getitem3_Some_inv in Ef as (i & j & k & ? & ? & ? & ->).
    by exists w, i, j, k.
Qed.

Lemma take_elem (a : list Q) idx b v :
  np.take a idx = Some b → v ∈ b → v ∈ a.
Proof.
  unfold np.take. intros Hm Hv. apply mapM_Some in Hm.
  apply list_elem_of_lookup in Hv as [i Hi].
  destruct (Forall2_lookup_r _ _ _ _ _ Hm Hi) as (j & _ & Hj).
  by eapply list_elem_of_lookup_2.
Qed.

Lemma median_between a lo hi r :
  Forall (λ v, lo <= v ∧ v <= hi) a → np.median a = Some r →
  lo <= r ∧ r <= hi.
Proof.
  intros Ha. unfold np.median.
  assert (Hs : ∀ i v, np.sort a !! i = Some v → lo <= v ∧ v <= hi).
  { intros i v Hi. apply list_elem_of_lookup_2 in Hi. rewrite sort_perm in Hi.
    by apply (proj1 (Forall_forall _ _) Ha). }
  cbv zeta. remember (length (np.sort a)) as n.
  destruct (Nat.even n).
  - destruct (np.sort a !! (n / 2 - 1)%nat) as [u|] eqn:Eu; [|done].
    cbn [mbind option_bind].
    destruct (np.sort a !! (n / 2)%nat) as [v|] eqn:Ev; [|done].
    cbn [mbind option_bind]. case_decide; [done|]. intros [= <-].
    apply Hs in Eu, Ev. split.
    + apply Qle_shift_div_l; lra.
    + apply Qle_shift_div_r; lra.
  - apply Hs.
Qed.

Lemma sumQ_nonneg l : Forall (λ w, 0 <= w) l → 0 <= sumQ l.
Proof. induction 1; unfold sumQ in *; simpl; lra. Qed.

(** The value computed from scratch arrays whose values lie in a range
    and whose weights are not negative lies in the range. *)
Lemma aggregate_between o h lo hi v :
  length (hood_weights h) = length (hood_values h) →
  weight_sum h == sumQ (hood_weights h) →
  Forall (λ w, 0 <= w) (hood_weights h) →
  Forall (λ v, lo <= v ∧ v <= hi) (hood_values h) →
  aggregate o h = Some (Some v) → lo <= v ∧ v <= hi.
Proof.
  intros Hlen Hsum Hw Hv. unfold aggregate.
  destruct (Qlt_le_dec 0 (weight_sum h)) as [Hpos|]; [|done].
  destruct (weighted o).
  - destruct (hood_quantile _ _ _) as [r|] eqn:Hr; [|done].
    simpl. intros [= <-].
    assert (Hinv : 0 <= / weight_sum h) by (apply Qinv_le_0_compat; lra).
    destruct (hood_quantile_range (hood_values h)
                ((λ w, w / weight_sum h) <$> hood_weights h) (quantile o) lo hi)
      as (r' & Hr' & Hb); try done.
    + intros E. rewrite E in Hlen. apply nil_length_inv in Hlen.
      rewrite Hlen in Hsum. unfold sumQ in Hsum. simpl in Hsum. lra.
    + by rewrite length_fmap.
    + apply Forall_fmap. eapply Forall_impl; [exact Hw|]. simpl. intros w Hw0.
      unfold Qdiv. apply Qmult_le_0_compat; done.
    + change (fmap (λ w, w / weight_sum h) (hood_weights h))
        with (map (λ w, w / weight_sum h) (hood_weights h)).
      rewrite sumQ_scale, <- Hsum. apply Qlt_shift_div_l; lra.
    + rewrite Hr in Hr'. by injection Hr' as <-.
  - destruct (np.take _ _) as [sel|] eqn:Hsel; [|done]. cbn [mbind option_bind].
    destruct (np.median sel) as [r|] eqn:Hr; [|done]. simpl. intros [= <-].
    eapply median_between; [|exact Hr].
    apply Forall_forall. intros u Hu.
    apply (proj1 (Forall_forall _ _) Hv). by eapply take_elem.
Qed.

(** X7. With kernel weights and feather weights that are not negative,
    every value of the result is the value the result was created with,
    or lies in every range that holds the samples of the stack and 0. *)
Theorem s1_collapse_between arr off ws fw o lo hi res :
  Forall (λ w, 0 <= w) ws →
  (∀ x y z, (x < shape0 fw)%nat → (y < shape1 fw)%nat → (z < shape2 fw)%nat →
     0 <= item fw x y z) →
  (∀ x y z, (x < shape0 arr)%nat → (y < shape1 arr)%nat → (z < shape2 arr)%nat →
     lo <= item arr x y z ∧ item arr x y z <= hi) →
  lo <= 0 → 0 <= hi →
  s1_collapse arr off ws fw o = Some res →
  Forall (Forall (λ v, v = initial_value o ∨ (lo <= v ∧ v <= hi))) res.
Proof.
  intros Hws Hfw Harr Hlo Hhi Hres.
  rewrite s1_collapse_eq in Hres.
  destruct (mapM _ (seq 0 (shape0 arr))) as [vss|] eqn:Hvss; [|done].
  injection Hres as <-. apply mapM_Some in Hvss.
  apply Forall_fmap, Forall_forall. intros vs Hvs.
  apply list_elem_of_lookup in Hvs as [x Hx].
  destruct (Forall2_lookup_r _ _ _ _ _ Hvss Hx) as (x' & _ & Hrow).
  apply mapM_Some in Hrow.
  apply Forall_fmap, Forall_forall. intros r Hr.
  apply list_elem_of_lookup in Hr as [y Hy].
  destruct (Forall2_lookup_r _ _ _ _ _ Hrow Hy) as (y' & _ & Hpix).
  destruct r as [v|]; [right|by left]. simpl.
  unfold pixel_out in Hpix. rewrite gather_eq in Hpix.
  cbn [inputs m_offsets] in Hpix.
  destruct (mapM _ (seq 0 (length off))) as [slots|] eqn:Hslots; [|done].
  cbn [mbind option_bind] in Hpix. apply mapM_Some in Hslots.
  assert (Hslot : ∀ s, s ∈ slots →
            match s with
            | Some (v, wt) => (lo <= v ∧ v <= hi) ∧ 0 <= wt
            | None => True
            end).
  { intros s Hs. apply list_elem_of_lookup in Hs as [n Hn].
    destruct (Forall2_lookup_r _ _ _ _ _ Hslots Hn) as (n' & _ & Hsl).
    destruct s as [[u wt]|]; [|done].
    apply slot_inv in Hsl as [(i & j & k & ? & ? & ? & ->)
                                (w & i' & j' & k' & Hw & ? & ? & ? & ->)].
    split; [by apply Harr|].
    apply Qmult_le_0_compat; [|by apply Hfw].
    apply (proj1 (Forall_forall _ _) Hws). by eapply list_elem_of_lookup_2. }
  eapply aggregate_between; [| | | |exact Hpix]; cbn [hood_values hood_weights weight_sum].
  - by rewrite !length_map.
  - rewrite foldl_add_weight. lra.
  - apply Forall_forall. intros w Hw.
    apply list_elem_of_fmap_1 in Hw as (s & -> & Hs). apply Hslot in Hs.
    destruct s as [[u wt]|]; simpl; [tauto|lra].
  - apply Forall_forall. intros u Hu.
    apply list_elem_of_fmap_1 in Hu as (s & -> & Hs). apply Hslot in Hs.
    destruct s as [[u wt]|]; simpl; [tauto|lra].
Qed.

Lemma s1_collapse_between_witness :
  ∃ res,
    s1_collapse example.two_rows [(0, 0, 0); (1, 0, 0)]%Z [1; 1]
      (ones_like example.two_rows) default_options = Some res ∧
    Forall (Forall (λ v, v = initial_value default_options ∨ (0 <= v ∧ v <= 7)))
      res.
Proof.
  eexists. split; [vm_compute; reflexivity|].
  eapply (s1_collapse_between example.two_rows [(0, 0, 0); (1, 0, 0)]%Z [1; 1]
            (ones_like example.two_rows)).
  - repeat (constructor; [vm_compute; discriminate|]). constructor.
  - intros x y z _ _ _. vm_compute. discriminate.
  - intros [|[|x]] [|y] [|z] Hx Hy Hz; simpl in Hx, Hy, Hz; try lia;
      split; vm_compute; discriminate.
  - vm_compute. discriminate.
  - vm_compute. discriminate.
  - vm_compute. reflexivity.
Defined.

(** ** The scale of the kernel weights and of the feather weights *)











(** ** The staged files of a run in chunks *)

Lemma chunk_loop_from arr fwo off ws tmp uid k nd res cs :
  (∀ cl c w, c ∈ cs →
     chunk_body arr fwo off ws tmp uid k nd 1 cl c w =
     (inr (cl ++ [chunk_file tmp uid c]), staged tmp uid k res w c)) →
  ∀ cl w,
  for_each_M (chunk_body arr fwo off ws tmp uid k nd 1) cs cl w =
  (inr (cl ++ (chunk_file tmp uid <$> cs)), foldl (staged tmp uid k res) w cs).
Proof.
  induction cs as [|c cs IH]; intros Hbody cl w; simpl.
  - by rewrite app_nil_r.
  - rewrite bind_run, Hbody by (by left).
    rewrite IH by (intros; apply Hbody; by right).
    by rewrite <- app_assoc.
Qed.

Lemma staged_calls tmp uid k res cs : ∀ w,
  calls (foldl (staged tmp uid k res) w cs) = calls w.
Proof. induction cs as [|c cs IH]; intros w; simpl; [done|]. by rewrite IH. Qed.

(** A run in chunks, every turn of the chunk loop staging the rows it
    keeps of [res]: what is written, and the files after the run. *)
Lemma process_aligned_chunked_from ck rta raa uid al out tmp k master nd
    fwr arr fwo off ws res w :
  ck (length al) = (off, ws) → rta al = inr arr →
  match fwr, fwo with
  | Some f, Some a => rta f = inr a
  | None, None => True
  | _, _ => False
  end →
  raa al = true → (1 < k)%Z →
  (∀ cl c w, (Z.of_nat c < k)%Z →
     chunk_body arr fwo off ws tmp uid k nd 1 cl c w =
     (inr (cl ++ [chunk_file tmp uid c]), staged tmp uid k res w c)) →
  ∃ w', process_aligned ck rta raa uid al out tmp k master nd fwr w = (inr out, w') ∧
        rasters w' = rasters w ++
          [(out, master,
            mask_nodata
              (concat ((λ c, rows_between (kept_lo k (length res) c)
                               (kept_hi k (length res) c) res) <$>
                       seq 0 (Z.to_nat k))) nd)] ∧
        calls w' = calls w ∧
        (∀ c, (Z.of_nat c < k)%Z →
           files w' !! chunk_file tmp uid c =
           Some (rows_between (kept_lo k (length res) c)
                   (kept_hi k (length res) c) res)) ∧
        (∀ path, (∀ c, (Z.of_nat c < k)%Z → chunk_file tmp uid c ≠ path) →
           files w' !! path = files w !! path).
Proof.
  intros Hck Harr Hfw Haligned Hk Hbody.
  unfold process_aligned. rewrite Hck. rewrite bind_run. rewrite Harr.
  cbn [lift]. rewrite bind_run.
  assert (Hf : (match fwr with
                | Some f => a ← lift (rta f); mret (Some a)
                | None => mret None
                end) w = (inr fwo, w)).
  { destruct fwr as [f|], fwo as [a|]; try done.
    by rewrite bind_run, Hfw. }
  rewrite Hf. rewrite Haligned. cbn [negb].
  destruct (Z.ltb_spec 1 k) as [_|]; [|lia].
  rewrite bind_run. cbn [print]. rewrite bind_run.
  change (3 `div` 2)%Z with 1%Z.
  assert (Hcs : ∀ c, c ∈ seq 0 (Z.to_nat k) → (Z.of_nat c < k)%Z).
  { intros c Hc. apply elem_of_seq in Hc. lia. }
  rewrite (chunk_loop_from arr fwo off ws tmp uid k nd res)
    by (intros; apply Hbody; by apply Hcs).
  rewrite bind_run. cbn [print]. rewrite bind_run. rewrite app_nil_l.
  rewrite (merge_loop tmp uid k res); last first.
  { apply Forall_forall. intros c Hc. cbn [files]. by apply staged_files. }
  cbn [print array_to_raster mret M_ret]. rewrite !bind_run.
  cbn [print array_to_raster mret M_ret files rasters calls stdout].
  rewrite app_nil_l.
  eexists. split; [done|]. cbn [rasters calls files].
  split; [by rewrite staged_rasters|].
  split; [by rewrite staged_calls|].
  split.
  - intros c Hc. apply staged_files. apply elem_of_seq. lia.
  - intros path Hpath. rewrite staged_files_ne; [done|].
    intros c Hc. by apply Hpath, Hcs.
Qed.

(** X9. With feather rasters, a kernel that reaches one row up and down
    at most and a number of chunks from 2 to the number of rows, the run
    in chunks writes the result of the stencil on the whole stack with
    the feather array read from the rasters. *)
Theorem chunked_run_uses_feather ck rta raa uid al out tmp k master nd
    f arr fwa off ws w :
  ck (length al) = (off, ws) → rta al = inr arr → rta f = inr fwa →
  raa al = true →
  well_shaped arr off ws fwa → radius_one off →
  (2 ≤ k ≤ Z.of_nat (shape0 arr))%Z →
  ∃ res w',
    s1_collapse arr off ws fwa (driver_options nd) = Some res ∧
    process_aligned ck rta raa uid al out tmp k master nd (Some f) w =
      (inr out, w') ∧
    rasters w' = rasters w ++ [(out, master, mask_nodata res nd)].
Proof.
  intros Hck Harr Hf Haligned Hwf Hrad Hk.
  destruct (s1_collapse_is_Some arr off ws fwa (driver_options nd) Hwf)
    as [res Hres].
  destruct (process_aligned_chunked ck rta raa uid al out tmp k master nd
              (Some f) arr (Some fwa) off ws res w) as (w' & Hrun & Hw');
    try done.
  by exists res, w'.
Qed.

Lemma chunked_run_uses_feather_witness :
  ∃ res w',
    s1_collapse example.two_rows [(0, 0, 0)%Z] [1] example.two_rows_feather
      (driver_options (-9999)) = Some res ∧
    process_aligned example.kernel example.read_two_rows example.aligned "u"
      ["a.tif"] "out.tif" "tmp/" 2 "master.tif" (-9999) (Some ["feather.tif"])
      example.empty_world = (inr "out.tif", w') ∧
    rasters w' =
      rasters example.empty_world ++
      [("out.tif", "master.tif", mask_nodata res (-9999))].
Proof.
  apply chunked_run_uses_feather; try reflexivity.
  - repeat split; simpl; lia.
  - repeat constructor; simpl; lia.
  - simpl; lia.
Defined.

(** X10. A run in chunks leaves its staged files behind: after the run
    the file of chunk [c] holds the rows of the result from
    [c * (rows // chunks)] up to [(c + 1) * (rows // chunks)], up to the
    last row for the last chunk; every other file is as it was, and no
    call to the raster library is made. *)
Theorem chunked_run_leaves_files ck rta raa uid al out tmp k master nd
    fwr arr fwo off ws w :
  ck (length al) = (off, ws) → rta al = inr arr →
  match fwr, fwo with
  | Some f, Some a => rta f = inr a
  | None, None => True
  | _, _ => False
  end →
  raa al = true →
  well_shaped arr off ws (feather_or_ones arr fwo) → radius_one off →
  (2 ≤ k ≤ Z.of_nat (shape0 arr))%Z →
  ∃ res w',
    s1_collapse arr off ws (feather_or_ones arr fwo) (driver_options nd) = Some res ∧
    process_aligned ck rta raa uid al out tmp k master nd fwr w = (inr out, w') ∧
    calls w' = calls w ∧
    (∀ c, (Z.of_nat c < k)%Z →
       files w' !! chunk_file tmp uid c =
       Some (rows_between (kept_lo k (shape0 arr) c) (kept_hi k (shape0 arr) c) res)) ∧
    (∀ path, (∀ c, (Z.of_nat c < k)%Z → chunk_file tmp uid c ≠ path) →
       files w' !! path = files w !! path).
Proof.
  intros Hck Harr Hfw Haligned Hwf Hrad Hk.
  destruct (s1_collapse_is_Some arr off ws _ (driver_options nd) Hwf)
    as [res Hres].
  assert (Hbody : ∀ cl c w0, (Z.of_nat c < k)%Z →
            chunk_body arr fwo off ws tmp uid k nd 1 cl c w0 =
            (inr (cl ++ [chunk_file tmp uid c]), staged tmp uid k res w0 c)).
  { intros cl c w0 Hc. by apply chunk_body_run. }
  assert (Hk1 : (1 < k)%Z) by lia.
  destruct (process_aligned_chunked_from ck rta raa uid al out tmp k master nd
              fwr arr fwo off ws res w Hck Harr Hfw Haligned Hk1 Hbody)
    as (w' & Hrun & _ & Hcalls & Hfiles & Hne).
  exists res, w'. rewrite (res_length arr fwo off ws nd res Hres) in Hfiles.
  done.
Qed.

Lemma chunked_run_leaves_files_witness :
  ∃ res w',
    s1_collapse example.two_rows [(0, 0, 0)%Z] [1]
      (feather_or_ones example.two_rows None) (driver_options (-9999)) = Some res ∧
    process_aligned example.kernel example.read_two_rows example.aligned "u"
      ["a.tif"] "out.tif" "tmp/" 2 "master.tif" (-9999) None
      example.empty_world = (inr "out.tif", w') ∧
    calls w' = calls example.empty_world ∧
    (∀ c, (Z.of_nat c < 2)%Z →
       files w' !! chunk_file "tmp/" "u" c =
       Some (rows_between (kept_lo 2 (shape0 example.two_rows) c)
               (kept_hi 2 (shape0 example.two_rows) c) res)) ∧
    (∀ path, (∀ c, (Z.of_nat c < 2)%Z → chunk_file "tmp/" "u" c ≠ path) →
       files w' !! path = files example.empty_world !! path).
Proof.
  apply (chunked_run_leaves_files example.kernel example.read_two_rows
           example.aligned "u" ["a.tif"] "out.tif" "tmp/" 2 "master.tif" (-9999)
           None example.two_rows None [(0, 0, 0)%Z] [1]).
  - reflexivity.
  - reflexivity.
  - done.
  - reflexivity.
  - repeat split; vm_compute; lia.
  - repeat constructor; simpl; lia.
  - simpl; lia.
Defined.

(** ** More chunks than rows *)

Lemma rows_between_nil {A} lo hi : rows_between lo hi (@nil A) = [].
Proof. unfold rows_between. by rewrite drop_nil, take_nil. Qed.

Lemma slice_list_short {A} (l : list A) s e :
  (length l ≤ 1)%nat → (s = 0 ∨ s = 1)%Z →
  (s = 1 ∨ e = Z.of_nat (length l) - 1)%Z →
  slice_list l s e = [].
Proof.
  intros Hl Hs He. unfold slice_list.
  destruct l as [|a [|b l]]; [by rewrite drop_nil, take_nil| |simpl in Hl; lia].
  simpl length in *. destruct Hs as [-> | ->].
  - destruct He as [He | ->]; [lia|]. reflexivity.
  - change (slice_bound 1 1) with 1%nat. simpl drop. apply take_nil.
Qed.

Section too_many_chunks.
Variables (arr : ndarray3) (fwo : option ndarray3).
Variables (off : list (Z * Z * Z)) (ws : list Q).
Variables (tmp uid : string) (k : Z) (nd : Q).

Hypothesis Hwf : well_shaped arr off ws (feather_or_ones arr fwo).
Hypothesis Hk : (2 ≤ k)%Z.
Hypothesis Hrows : (Z.of_nat (shape0 arr) < k)%Z.

(** The chunk size is 0: every turn of the chunk loop collapses at most
    one row and stages no row. *)
Lemma chunk_body_run_empty cl (c : nat) w :
  (Z.of_nat c < k)%Z →
  chunk_body arr fwo off ws tmp uid k nd 1 cl c w =
  (inr (cl ++ [chunk_file tmp uid c]), staged tmp uid k [] w c).
Proof.
  intros Hc. unfold chunk_body. rewrite bind_run. cbn [print].
  unfold staged. rewrite rows_between_nil.
  rewrite Z.div_small by lia. rewrite !Z.mul_0_r.
  set (cs := if decide (c = 0%nat) then (0%Z, false) else ((0 - 1)%Z, true)).
  set (ce := if decide (Z.of_nat c = (k - 1)%Z) then (Z.of_nat (shape0 arr), false)
             else ((0 + 1)%Z, true)).
  destruct Hwf as (Hd & Hf0 & Hf1 & Hf2 & Hlw).
  assert (Hcs : (shape0 (slice_rows arr cs.1 ce.1) ≤ 1)%nat ∧
                ((if cs.2 then 1 else 0) = 0 ∨ (if cs.2 then 1 else 0) = 1)%Z ∧
                ((if cs.2 then 1 else 0)%Z = 1%Z ∨ ce.2 = true)).
  { subst cs ce.
    destruct (decide (c = 0%nat)) as [Hc0|Hc0];
      destruct (decide (Z.of_nat c = (k - 1)%Z)) as [Hl|Hl]; cbn [fst snd];
      try lia;
      (split; [|split; [lia|by (left + right)]]);
      unfold slice_rows, slice_bound; cbn [shape0];
      repeat match goal with
             | |- context [(?a <? ?b)%Z] => destruct (Z.ltb_spec a b)
             end; lia. }
  destruct cs as [chunk_start cut_start].
  destruct ce as [chunk_end cut_end]. cbn [fst snd] in Hcs.
  destruct Hcs as (Hrows1 & Hos & Hoe).
  set (arr_chunk := slice_rows arr chunk_start chunk_end) in *.
  set (weights_chunk := match fwo with
                        | Some fw0 => slice_rows fw0 chunk_start chunk_end
                        | None => ones_like arr_chunk
                        end).
  assert (Hwfc : well_shaped arr_chunk off ws weights_chunk).
  { subst weights_chunk arr_chunk.
    destruct fwo as [fw0|]; cbn [feather_or_ones] in *.
    - repeat split; try done. unfold slice_rows. cbn [shape0]. by rewrite Hf0.
    - repeat split; done. }
  destruct (s1_collapse_is_Some _ _ _ _ (driver_options nd) Hwfc) as [resc Hresc].
  rewrite bind_run. cbn [print]. rewrite bind_run.
  unfold s1_collapse_call. fold (driver_options nd). rewrite Hresc.
  cbn [mret M_ret].
  rewrite bind_run. cbn [np_save mret M_ret files rasters calls stdout].
  pose proof (s1_collapse_shape _ _ _ _ _ _ Hresc) as [Hlc _].
  rewrite slice_list_short; [done|lia|done|].
  destruct Hoe as [Hoe|Hoe]; [by left|right]. by rewrite Hoe.
Qed.

End too_many_chunks.

(** X11. With more chunks than the stack has rows (and at least two
    chunks) the chunk size [rows // chunks] is 0: every chunk is trimmed
    to nothing and the array handed to [array_to_raster] has no rows;
    [array_to_raster] being taken to accept it, the run returns
    normally. *)
Theorem too_many_chunks_write_nothing ck rta raa uid al out tmp k master nd
    fwr arr fwo off ws w :
  ck (length al) = (off, ws) → rta al = inr arr →
  match fwr, fwo with
  | Some f, Some a => rta f = inr a
  | None, None => True
  | _, _ => False
  end →
  raa al = true →
  well_shaped arr off ws (feather_or_ones arr fwo) →
  (2 ≤ k)%Z → (Z.of_nat (shape0 arr) < k)%Z →
  ∃ w', process_aligned ck rta raa uid al out tmp k master nd fwr w = (inr out, w') ∧
        rasters w' = rasters w ++ [(out, master, mask_nodata [] nd)].
Proof.
  intros Hck Harr Hfw Haligned Hwf Hk Hrows.
  assert (Hbody : ∀ cl c w0, (Z.of_nat c < k)%Z →
            chunk_body arr fwo off ws tmp uid k nd 1 cl c w0 =
            (inr (cl ++ [chunk_file tmp uid c]), staged tmp uid k [] w0 c)).
  { intros cl c w0 Hc. by apply chunk_body_run_empty. }
  assert (Hk1 : (1 < k)%Z) by lia.
  destruct (process_aligned_chunked_from ck rta raa uid al out tmp k master nd
              fwr arr fwo off ws [] w Hck Harr Hfw Haligned Hk1 Hbody)
    as (w' & Hrun & Hw' & _).
  exists w'. split; [done|]. rewrite Hw'.
  assert (E : ∀ cs : list nat,
            concat ((λ c, rows_between (kept_lo k (length (@nil (list Q))) c)
                            (kept_hi k (length (@nil (list Q))) c) []) <$> cs)
            = @nil (list Q)).
  { induction cs as [|c cs IH]; [done|].
    rewrite fmap_cons. cbn [concat]. by rewrite rows_between_nil, IH. }
  by rewrite E.
Qed.

Lemma too_many_chunks_write_nothing_witness :
  ∃ w',
    process_aligned example.kernel example.read_two_rows example.aligned "u"
      ["a.tif"] "out.tif" "tmp/" 3 "master.tif" (-9999) None
      example.empty_world = (inr "out.tif", w') ∧
    rasters w' =
      rasters example.empty_world ++
      [("out.tif", "master.tif", mask_nodata [] (-9999))].
Proof.
  apply (too_many_chunks_write_nothing example.kernel example.read_two_rows
           example.aligned "u" ["a.tif"] "out.tif" "tmp/" 3 "master.tif" (-9999)
           None example.two_rows None [(0, 0, 0)%Z] [1]).
  - reflexivity.
  - reflexivity.
  - done.
  - reflexivity.
  - repeat split; vm_compute; lia.
  - lia.
  - simpl; lia.
Defined.

(** ** What a run writes *)

Lemma keeps_rasters_ret {A} (a : A) : keeps_rasters (mret a).
Proof. by intros w r w' [= <- <-]. Qed.

Lemma keeps_rasters_raise {A} e : keeps_rasters (@raise A e).
Proof. by intros w r w' [= <- <-]. Qed.

Lemma keeps_rasters_bind {A B} (m : M A) (f : A → M B) :
  keeps_rasters m → (∀ a, keeps_rasters (f a)) → keeps_rasters (m ≫= f).
Proof.
  intros Hm Hf w r w'. rewrite bind_run.
  destruct (m w) as [[e|a] w1] eqn:E.
  - intros [= <- <-]. by eapply Hm.
  - intros H. apply Hf in H. apply Hm in E. congruence.
Qed.

Lemma keeps_rasters_lift {A} (r : string + A) : keeps_rasters (lift r).
Proof. intros w r' w'. destruct r; by intros [= <- <-]. Qed.

Lemma keeps_rasters_print s : keeps_rasters (print s).
Proof. by intros w r w' [= <- <-]. Qed.

Lemma keeps_rasters_record_call c : keeps_rasters (record_call c).
Proof. by intros w r w' [= <- <-]. Qed.

Lemma keeps_rasters_np_save path a : keeps_rasters (np_save path a).
Proof. by intros w r w' [= <- <-]. Qed.

Lemma keeps_rasters_np_load path : keeps_rasters (np_load path).
Proof.
  intros w r w'. unfold np_load. destruct (files w !! path); by intros [= <- <-].
Qed.

Lemma keeps_rasters_for_each_M {S I} (body : S → I → M S) l :
  (∀ s i, keeps_rasters (body s i)) → ∀ s, keeps_rasters (for_each_M body l s).
Proof.
  intros Hb. induction l as [|i l IH]; intros s; simpl.
  - apply keeps_rasters_ret.
  - apply keeps_rasters_bind; [apply Hb|apply IH].
Qed.

Lemma keeps_rasters_s1_collapse_call arr off ws fw o :
  keeps_rasters (s1_collapse_call arr off ws fw o).
Proof.
  unfold s1_collapse_call. destruct fw; [|apply keeps_rasters_raise].
  destruct (s1_collapse _ _ _ _ _);
    [apply keeps_rasters_ret|apply keeps_rasters_raise].
Qed.

Create HintDb keeps.
#[local] Hint Resolve keeps_rasters_ret keeps_rasters_raise keeps_rasters_lift
  keeps_rasters_print keeps_rasters_record_call keeps_rasters_np_save
  keeps_rasters_np_load keeps_rasters_s1_collapse_call : keeps.

Ltac keeps :=
  repeat first
    [ apply keeps_rasters_bind; [|intros ?]
    | solve [auto with keeps]
    | apply keeps_rasters_for_each_M; intros ? ? ].

Lemma keeps_rasters_chunk_body arr fwo off ws tmp uid k nd co cl c :
  keeps_rasters (chunk_body arr fwo off ws tmp uid k nd co cl c).
Proof.
  unfold chunk_body.
  apply keeps_rasters_bind; [auto with keeps|intros _].
  destruct (decide (c = 0%nat)), (decide (Z.of_nat c = (k - 1)%Z)); keeps.
Qed.

Lemma keeps_rasters_clip_body rr ri cr pe stem total tmp master skip st it :
  keeps_rasters (clip_body rr ri cr pe stem total tmp master skip st it).
Proof.
  unfold clip_body, progress. destruct st as [clipped reprojected], it as [idx img].
  apply keeps_rasters_bind; [auto with keeps|intros _].
  destruct (skip && _).
  - destruct reprojected; keeps.
  - apply keeps_rasters_bind; [auto with keeps|intros r].
    apply keeps_rasters_bind; [auto with keeps|intros _].
    destruct (negb _); keeps.
Qed.

Lemma writes_on_return_bind {A} (m : M A) (f : A → M string) out master :
  keeps_rasters m → (∀ a, writes_on_return (f a) out master) →
  writes_on_return (m ≫= f) out master.
Proof.
  intros Hm Hf w r w'. rewrite bind_run.
  destruct (m w) as [[e|a] w1] eqn:E.
  - intros [= <- <-]. by eapply Hm.
  - intros H. apply Hf in H. apply Hm in E. by rewrite E in H.
Qed.

Lemma writes_on_return_raise e out master :
  writes_on_return (raise e) out master.
Proof. by intros w r w' [= <- <-]. Qed.

(** Writing the raster and returning its path. *)
Lemma writes_on_return_write a master out :
  writes_on_return (_ ← array_to_raster a master out; mret out) out master.
Proof.
  intros w r w'. rewrite bind_run. cbn [array_to_raster mret M_ret].
  intros [= <- <-]. split; [done|]. by exists a.
Qed.

Lemma writes_on_return_process_aligned ck rta raa uid al out tmp k master nd fw :
  writes_on_return (process_aligned ck rta raa uid al out tmp k master nd fw)
    out master.
Proof.
  unfold process_aligned. destruct (ck (length al)) as [off ws].
  apply writes_on_return_bind; [auto with keeps|intros arr].
  apply writes_on_return_bind.
  { destruct fw; keeps. }
  intros fwa. destruct (negb _); [apply writes_on_return_raise|].
  destruct (1 <? k)%Z.
  - apply writes_on_return_bind; [auto with keeps|intros _].
    apply writes_on_return_bind.
    { apply keeps_rasters_for_each_M. intros. apply keeps_rasters_chunk_body. }
    intros cl.
    apply writes_on_return_bind; [auto with keeps|intros _].
    apply writes_on_return_bind; [keeps|intros merged].
    apply writes_on_return_bind; [auto with keeps|intros _].
    apply writes_on_return_write.
  - apply writes_on_return_bind; [auto with keeps|intros _].
    apply writes_on_return_bind; [auto with keeps|intros res].
    apply writes_on_return_bind; [auto with keeps|intros _].
    apply writes_on_return_write.
Qed.

Lemma writes_on_return_mosaic_s1 ck rta raa uid rr ri cr ar cp pe stem
    v out tmp master nd k fb fd skip :
  writes_on_return
    (mosaic_s1 ck rta raa uid rr ri cr ar cp pe stem
       v out tmp master nd k fb fd skip) out master.
Proof.
  unfold mosaic_s1. destruct v; try apply writes_on_return_raise.
  case_decide; [apply writes_on_return_raise|].
  apply writes_on_return_bind.
  { apply keeps_rasters_for_each_M. intros. apply keeps_rasters_clip_body. }
  intros st.
  apply writes_on_return_bind; [auto with keeps|intros _].
  apply writes_on_return_bind; [auto with keeps|intros aligned].
  apply writes_on_return_bind; [auto with keeps|intros _].
  apply writes_on_return_bind.
  { destruct fb; keeps. }
  intros feather.
  apply writes_on_return_bind; [auto with keeps|intros _].
  apply writes_on_return_process_aligned.
Qed.



(** ** Runs of mosaic_s1 that cannot succeed *)

Lemma always_raises_raise {A} e : always_raises (@raise A e).
Proof. intros w. by exists e, w. Qed.

Lemma always_raises_bind_l {A B} (m : M A) (f : A → M B) :
  always_raises m → always_raises (m ≫= f).
Proof.
  intros Hm w. destruct (Hm w) as (e & w' & E). exists e, w'.
  by rewrite bind_run, E.
Qed.

Lemma always_raises_bind_r {A B} (m : M A) (f : A → M B) :
  (∀ a, always_raises (f a)) → always_raises (m ≫= f).
Proof.
  intros Hf w. rewrite bind_run. destruct (m w) as [[e|a] w1].
  - by exists e, w1.
  - apply Hf.
Qed.

(** In one piece and with feather rasters [process_aligned] raises. *)
Lemma always_raises_process_aligned ck rta raa uid al out tmp k master nd f :
  (k ≤ 1)%Z →
  always_raises (process_aligned ck rta raa uid al out tmp k master nd (Some f)).
Proof.
  intros Hk. unfold process_aligned. destruct (ck (length al)) as [off ws].
  apply always_raises_bind_r. intros arr.
  apply always_raises_bind_r. intros fwa.
  destruct (negb _); [apply always_raises_raise|].
  destruct (Z.ltb_spec 1 k); [lia|].
  apply always_raises_bind_r. intros _.
  apply always_raises_bind_l. apply always_raises_raise.
Qed.

Lemma always_raises_bind_post {A B} (Q : A → Prop) (m : M A) (f : A → M B) :
  (∀ w a w', m w = (inr a, w') → Q a) → (∀ a, Q a → always_raises (f a)) →
  always_raises (m ≫= f).
Proof.
  intros Hm Hf w. rewrite bind_run. destruct (m w) as [[e|a] w1] eqn:E.
  - by exists e, w1.
  - apply Hf. by eapply Hm.
Qed.

Lemma always_raises_mosaic_s1 ck rta raa uid rr ri cr ar cp pe stem
    v out tmp master nd k fd skip :
  (k ≤ 1)%Z →
  always_raises
    (mosaic_s1 ck rta raa uid rr ri cr ar cp pe stem
       v out tmp master nd k true fd skip).
Proof.
  intros Hk. unfold mosaic_s1. destruct v; try apply always_raises_raise.
  case_decide; [apply always_raises_raise|].
  apply always_raises_bind_r. intros st.
  apply always_raises_bind_r. intros _.
  apply always_raises_bind_r. intros al.
  apply always_raises_bind_r. intros _.
  apply (always_raises_bind_post is_Some).
  - intros w a w'. rewrite bind_run. cbn [print]. rewrite bind_run.
    destruct (cp al tmp fd skip) as [msg|f]; cbn [lift]; [done|].
    rewrite bind_run. cbn [record_call mret M_ret]. by intros [= <- _].
  - intros a [f ->]. apply always_raises_bind_r. intros _.
    by apply always_raises_process_aligned.
Qed.

(** X13. With [chunks] at most 1 and [feather_borders] set, which are
    the defaults, [mosaic_s1] never returns: whatever its input and
    whatever the raster library returns, the run ends with an exception
    and no raster is written. *)
Theorem default_run_never_returns ck rta raa uid rr ri cr ar cp pe stem
    v out tmp master nd k fd skip w :
  (k ≤ 1)%Z →
  ∃ e w',
    mosaic_s1 ck rta raa uid rr ri cr ar cp pe stem
      v out tmp master nd k true fd skip w = (inl e, w') ∧
    rasters w' = rasters w.
Proof.
  intros Hk.
  destruct (always_raises_mosaic_s1 ck rta raa uid rr ri cr ar cp pe stem
              v out tmp master nd k fd skip Hk w) as (e & w' & Hrun).
  exists e, w'. split; [done|].
  by apply (writes_on_return_mosaic_s1 _ _ _ _ _ _ _ _ _ _ _ _ _ _ _ _ _ _ _ _
              _ _ _ Hrun).
Qed.

Lemma default_run_never_returns_witness :
  ∃ e w',
    mosaic_s1 example.kernel example.read_two_rows example.aligned "u"
      example.reproject example.intersect example.clip example.align
      example.proximity example.no_file example.stem
      (PyList ["a.tif"; "b.tif"]) "out.tif" "tmp/" "master.tif" (-9999) 1
      true 5000 false example.empty_world = (inl e, w') ∧
    rasters w' = rasters example.empty_world.
Proof. apply default_run_never_returns. lia. Defined.

(** ** The unbound variable of the clipping loop *)

Lemma raises_only_bind_post {A B} (P : exn → Prop) (Q : A → Prop)
    (m : M A) (f : A → M B) :
  raises_only P m → (∀ w a w', m w = (inr a, w') → Q a) →
  (∀ a, Q a → raises_only P (f a)) → raises_only P (m ≫= f).
Proof.
  intros Hm HQ Hf w e w'. rewrite bind_run.
  destruct (m w) as [[e0|a] w0] eqn:E.
  - intros [= <- <-]. eapply Hm, E.
  - apply Hf. by eapply HQ.
Qed.

Lemma raises_only_for_each_M_inv {S I} (P : exn → Prop) (Inv : S → Prop)
    (body : S → I → M S) l :
  (∀ s i, Inv s → raises_only P (body s i)) →
  (∀ s i w s' w', body s i w = (inr s', w') → Inv s') →
  ∀ s, Inv s → raises_only P (for_each_M body l s).
Proof.
  intros Hb Hinv. induction l as [|i l IH]; intros s Hs; simpl.
  - apply raises_only_ret.
  - apply (raises_only_bind_post P Inv); [by apply Hb|apply Hinv|apply IH].
Qed.

Lemma raises_only_process_aligned_of (P : exn → Prop)
    ck rta raa uid al out tmp chunks master nd fw :
  P (Exception "Rasters not aligned") → P TypingError → P IndexError →
  (∀ msg, P (ExternalError msg)) → (∀ p, P (FileNotFoundError p)) →
  raises_only P (process_aligned ck rta raa uid al out tmp chunks master nd fw).
Proof.
  intros HA HT HI HX HF.
  unfold process_aligned. destruct (ck (length al)) as [offsets weights].
  apply raises_only_bind; [by apply raises_only_lift|intros arr].
  apply raises_only_bind.
  { destruct fw; [|apply raises_only_ret].
    apply raises_only_bind; [by apply raises_only_lift|intros; apply raises_only_ret]. }
  intros fwa. destruct (negb _); [by apply raises_only_raise|].
  destruct (1 <? chunks)%Z.
  - apply raises_only_bind; [auto with raises|intros _].
    apply raises_only_bind.
    { apply raises_only_for_each_M. intros cl c. unfold chunk_body.
      apply raises_only_bind; [auto with raises|intros _].
      repeat case_decide; cbv beta iota zeta;
        (apply raises_only_bind; [auto with raises|intros _]);
        (apply raises_only_bind; [by apply raises_only_s1_collapse_call|intros r]);
        (apply raises_only_bind; [auto with raises|intros _]);
        apply raises_only_ret. }
    intros cl. apply raises_only_bind; [auto with raises|intros _].
    apply raises_only_bind.
    { apply raises_only_for_each_M. intros mg c.
      apply raises_only_bind; [by apply raises_only_np_load|intros; apply raises_only_ret]. }
    intros mg. apply raises_only_bind; [auto with raises|intros _].
    apply raises_only_bind; [auto with raises|intros _]. apply raises_only_ret.
  - apply raises_only_bind; [auto with raises|intros _].
    apply raises_only_bind; [by apply raises_only_s1_collapse_call|intros r].
    apply raises_only_bind; [auto with raises|intros _].
    apply raises_only_bind; [auto with raises|intros _]. apply raises_only_ret.
Qed.

(** A turn of the clipping loop that returns leaves [reprojected]
    bound. *)
Lemma clip_body_binds rr ri cr pe stem total tmp master skip st it w st' w' :
  clip_body rr ri cr pe stem total tmp master skip st it w = (inr st', w') →
  is_Some st'.2.
Proof.
  unfold clip_body, progress. destruct st as [clipped reprojected], it as [idx img].
  rewrite bind_run. cbn [print].
  destruct (skip && _).
  - destruct reprojected as [r|]; [|done].
    rewrite !bind_run. cbn [record_call print mret M_ret]. rewrite !bind_run.
    cbn [record_call print mret M_ret]. by intros [= <- _].
  - rewrite bind_run. destruct (rr img master) as [msg|r]; cbn [lift]; [done|].
    rewrite bind_run. cbn [record_call].
    destruct (negb _).
    + rewrite !bind_run. cbn [record_call print mret M_ret]. rewrite !bind_run.
      cbn [record_call print mret M_ret]. rewrite !bind_run.
      cbn [record_call print mret M_ret]. by intros [= <- _].
    + rewrite bind_run. destruct (cr r master _) as [msg|c]; cbn [lift]; [done|].
      rewrite !bind_run. cbn [record_call print mret M_ret]. rewrite !bind_run.
      cbn [record_call print mret M_ret]. by intros [= <- _].
Qed.

(** A turn of the clipping loop raises the error of the unbound variable
    only when it takes a completed image with [reprojected] unbound. *)
Lemma clip_body_unbound rr ri cr pe stem total tmp master skip st it :
  is_Some st.2 ∨ skip && pe (tmp +:+ stem it.2 +:+ "_clipped.tif") = false →
  raises_only (λ e, ∀ name, e ≠ UnboundLocalError name)
    (clip_body rr ri cr pe stem total tmp master skip st it).
Proof.
  intros Hst.
  unfold clip_body. destruct st as [clipped reprojected], it as [idx img].
  cbn [fst snd] in Hst.
  apply raises_only_bind; [apply raises_only_print|intros _].
  destruct (skip && pe _) eqn:Eskip.
  - destruct reprojected.
    + apply raises_only_bind; [auto with raises|intros _].
      apply raises_only_bind; [apply raises_only_print|intros _].
      apply raises_only_ret.
    + destruct Hst as [[? [=]]|[=]].
  - apply raises_only_bind; [by apply raises_only_lift|intros r].
    apply raises_only_bind; [auto with raises|intros _].
    destruct (negb _).
    + apply raises_only_bind; [auto with raises|intros _].
      apply raises_only_bind; [auto with raises|intros _].
      apply raises_only_bind; [apply raises_only_print|intros _].
      apply raises_only_bind; [auto with raises|intros _].
      apply raises_only_ret.
    + apply raises_only_bind; [by apply raises_only_lift|intros c].
      apply raises_only_bind; [auto with raises|intros _].
      apply raises_only_bind; [auto with raises|intros _].
      apply raises_only_bind; [apply raises_only_print|intros _].
      apply raises_only_ret.
Qed.

(** X14. Resuming a run: with [skip_completed] set and the clipped file
    of the first image present, [mosaic_s1] ends at the first image with
    the error of the unbound variable [reprojected], before any call to
    the raster library; in every other case (the option not set, or the
    first clipped file absent) no run ends with that error. *)
Theorem resumed_run_unbound_variable ck rta raa uid rr ri cr ar cp pe stem
    img rest out tmp master nd k fb fd skip w :
  let first := tmp +:+ stem img +:+ "_clipped.tif" in
  let run := mosaic_s1 ck rta raa uid rr ri cr ar cp pe stem
               (PyList (img :: rest)) out tmp master nd k fb fd skip w in
  (1 ≤ length rest)%nat →
  (skip = true → pe first = true →
   run.1 = inl (UnboundLocalError "reprojected") ∧
   rasters run.2 = rasters w ∧ calls run.2 = calls w ∧ files run.2 = files w) ∧
  (skip && pe first = false →
   ∀ e name, run.1 = inl e → e ≠ UnboundLocalError name).
Proof.
  intros first run Hrest. subst run first. split.
  - intros -> Hpe.
    match goal with |- context [(?m w).1] =>
      assert (E : ∃ w1, m w = (inl (UnboundLocalError "reprojected"), w1) ∧
                        rasters w1 = rasters w ∧ calls w1 = calls w ∧
                        files w1 = files w)
    end.
    { unfold mosaic_s1. rewrite decide_False by (simpl; lia).
      rewrite bind_run. rewrite imap_cons. cbn [for_each_M].
      rewrite bind_run. unfold clip_body at 1. rewrite bind_run.
      unfold progress. cbn [print]. rewrite Hpe. cbn [andb raise].
      eexists. split; [done|]. done. }
    destruct E as (w1 & -> & ? & ? & ?). done.
  - intros Hskip e name He.
    match type of He with (?m w).1 = _ =>
      destruct (m w) as [r w'] eqn:E; simpl in He; subst r; revert name;
      revert E; generalize w, e, w';
      change (raises_only (λ e, ∀ name, e ≠ UnboundLocalError name) m)
    end.
    unfold mosaic_s1. rewrite decide_False by (simpl; lia).
    apply raises_only_bind.
    { rewrite imap_cons. cbn [for_each_M].
      apply (raises_only_bind_post _ (λ st, is_Some st.2)).
      - apply clip_body_unbound. by right.
      - intros ? ? ?. apply clip_body_binds.
      - intros st Hst. apply (raises_only_for_each_M_inv _ (λ st, is_Some st.2)).
        + intros s i Hs. apply clip_body_unbound. by left.
        + intros s i w0 s' w0'. apply clip_body_binds.
        + done. }
    intros st.
    apply raises_only_bind; [auto with raises|intros _].
    apply raises_only_bind; [by apply raises_only_lift|intros al].
    apply raises_only_bind; [auto with raises|intros _].
    apply raises_only_bind.
    { destruct fb; [|apply raises_only_ret].
      apply raises_only_bind; [auto with raises|intros _].
      apply raises_only_bind; [by apply raises_only_lift|intros f].
      apply raises_only_bind; [auto with raises|intros _]. apply raises_only_ret. }
    intros f. apply raises_only_bind; [auto with raises|intros _].
    by apply raises_only_process_aligned_of.
Qed.

Lemma resumed_run_unbound_variable_witness :
  let run skip :=
    mosaic_s1 example.kernel example.read_two_rows example.aligned "u"
      example.reproject example.intersect example.clip example.align
      example.proximity (λ _, true) example.stem
      (PyList ["a.tif"; "b.tif"]) "out.tif" "tmp/" "master.tif" (-9999) 2
      true 5000 skip example.empty_world in
  ((run true).1 = inl (UnboundLocalError "reprojected") ∧
   rasters (run true).2 = rasters example.empty_world ∧
   calls (run true).2 = calls example.empty_world ∧
   files (run true).2 = files example.empty_world) ∧
  (∀ e name, (run false).1 = inl e → e ≠ UnboundLocalError name).
Proof.
  intros run. split.
  - apply (resumed_run_unbound_variable example.kernel example.read_two_rows
             example.aligned "u" example.reproject example.intersect
             example.clip example.align example.proximity (λ _, true)
             example.stem "a.tif" ["b.tif"] "out.tif" "tmp/" "master.tif"
             (-9999) 2 true 5000 true example.empty_world);
      [simpl; lia|reflexivity|reflexivity].
  - apply (resumed_run_unbound_variable example.kernel example.read_two_rows
             example.aligned "u" example.reproject example.intersect
             example.clip example.align example.proximity (λ _, true)
             example.stem "a.tif" ["b.tif"] "out.tif" "tmp/" "master.tif"
             (-9999) 2 true 5000 false example.empty_world);
      [simpl; lia|reflexivity].
Defined.

(** ** The clipping loop *)

Ltac run_M :=
  repeat first
    [ rewrite bind_run
    | progress cbn [print record_call mret M_ret lift files rasters calls stdout] ].




(** ** rasters_are_aligned *)

Section rasters_are_aligned_facts.
Import core_raster.

Variable open_raster : string → string + dataset.
Variable is_raster : string → bool.
Variable is_same : string → string → bool.

Lemma differs_same a b t : Qeq_bool a b = true → differs a b t = false.
Proof. intros E. unfold differs. by rewrite E. Qed.

Lemma Qabs_eq_bool a b : Qeq_bool a b = true → Qeq_bool (Qabs a) (Qabs b) = true.
Proof. rewrite !Qeq_bool_iff. by intros ->. Qed.

(** With [same_extent] the comparison does not depend on the
    threshold. *)
Lemma compare_same_extent sd sn t1 t2 d0 d :
  (compare is_same true sd sn t1 (metadata_of d0) (metadata_of d)).2 =
  (compare is_same true sd sn t2 (metadata_of d0) (metadata_of d)).2.
Proof.
  unfold compare. cbn [metadata_of name projection_wkt pixel_width pixel_height
    x_min y_max transform width height datatype nodata_value andb].
  destruct (negb (String.eqb _ _)); [destruct (is_same _ _)|]; cbn [negb]; try done.
  all: destruct (transform_eqb (ds_transform d) (ds_transform d0)) eqn:Et.
  all: try (unfold transform_eqb in Et;
            repeat (apply andb_prop in Et as [Et ?]);
            rewrite !differs_same by (done || by apply Qabs_eq_bool); done).
  all: cbn [negb];
       repeat match goal with
              | |- context [if differs ?a ?b ?t then _ else _] =>
                  destruct (differs a b t)
              end; done.
Qed.

Lemma aligned_body_same_extent sd sn t1 t2 s it :
  read_base s →
  (aligned_body open_raster is_same true sd sn t1 s it).2 =
  (aligned_body open_raster is_same true sd sn t2 s it).2 ∧
  ∀ s', (aligned_body open_raster is_same true sd sn t1 s it).2 = Continue s' →
        read_base s'.
Proof.
  intros Hs. unfold aligned_body, raster_to_metadata. destruct it as [index raster].
  destruct (open_raster raster) as [msg|d]; [done|].
  case_decide.
  - split; [done|]. intros s' [= <-] b [= <-]. by exists d.
  - destruct s as [b|]; [|done]. destruct (Hs b eq_refl) as [d0 ->].
    pose proof (compare_same_extent sd sn t1 t2 d0 d) as Hc.
    destruct (compare is_same true sd sn t1 _ _) as [out1 go1],
      (compare is_same true sd sn t2 _ _) as [out2 go2].
    simpl in Hc. subst go2. destruct go1; simpl; [|done].
    split; [done|]. by intros s' [= <-].
Qed.

Lemma for_each_out_same_extent sd sn t1 t2 l : ∀ s,
  read_base s →
  (for_each_out (aligned_body open_raster is_same true sd sn t1) l s).2 =
  (for_each_out (aligned_body open_raster is_same true sd sn t2) l s).2.
Proof.
  induction l as [|it l IH]; intros s Hs; [done|]. simpl.
  destruct (aligned_body_same_extent sd sn t1 t2 s it Hs) as [Hb Hinv].
  destruct (aligned_body _ _ _ _ _ t1 s it) as [out1 r1],
    (aligned_body _ _ _ _ _ t2 s it) as [out2 r2].
  simpl in Hb. subst r2. destruct r1 as [e|b|s']; try done.
  specialize (IH s' (Hinv s' eq_refl)).
  destruct (for_each_out _ l s') as [o1 q1],
    (for_each_out (aligned_body _ _ _ _ _ t2) l s') as [o2 q2]. done.
Qed.

(** X16. With [same_extent] set, which is the default, the answer of
    [rasters_are_aligned] does not depend on the threshold: the
    transforms are compared exactly, so pixel sizes and origins that
    differ by less than the threshold are still reported as not aligned
    (only the lines printed may differ). *)
Theorem threshold_without_effect rasters same_dtype same_nodata t1 t2 :
  (rasters_are_aligned open_raster is_raster is_same rasters
     true same_dtype same_nodata t1).2 =
  (rasters_are_aligned open_raster is_raster is_same rasters
     true same_dtype same_nodata t2).2.
Proof.
  unfold rasters_are_aligned.
  assert (H : ∀ l,
    (match for_each_out (aligned_body open_raster is_same true same_dtype
                           same_nodata t1) l None with
     | (out, Raised e) => (out, inl e)
     | (out, Returned b) => (out, inr b)
     | (out, Continue _) => (out, inr true)
     end).2 =
    (match for_each_out (aligned_body open_raster is_same true same_dtype
                           same_nodata t2) l None with
     | (out, Raised e) => (out, inl e)
     | (out, Returned b) => (out, inr b)
     | (out, Continue _) => (out, inr true)
     end).2).
  { intros l.
    pose proof (for_each_out_same_extent same_dtype same_nodata t1 t2 l None) as E.
    destruct (for_each_out _ l None) as [o1 q1],
      (for_each_out (aligned_body _ _ _ _ _ t2) l None) as [o2 q2].
    simpl in E. rewrite <- E by (by intros b). by destruct q1. }
  destruct rasters as [|r [|r' rest]]; [apply H|done|apply H].
Qed.

(** The comparison with fewer options set succeeds when the comparison
    with more options does. *)
Lemma compare_fewer_options se sd sn se' sd' sn' t b m :
  implb se' se = true → implb sd' sd = true → implb sn' sn = true →
  (compare is_same se sd sn t b m).2 = true →
  (compare is_same se' sd' sn' t b m).2 = true.
Proof.
  intros Hse Hsd Hsn. unfold compare.
  destruct (negb (String.eqb _ _)); [destruct (is_same _ _)|]; cbn [negb]; try done.
  all: repeat match goal with
              | |- context [if differs ?a ?b ?t then _ else _] =>
                  destruct (differs a b t); [done|]
              end.
  all: destruct (transform_eqb _ _), (height m =? height b)%Z,
         (width m =? width b)%Z, (String.eqb (datatype m) (datatype b)),
         (nodata_eqb _ _);
       destruct se, se', sd, sd', sn, sn'; done.
Qed.

Lemma for_each_out_fewer_options se sd sn se' sd' sn' t l : ∀ s s',
  implb se' se = true → implb sd' sd = true → implb sn' sn = true →
  (for_each_out (aligned_body open_raster is_same se sd sn t) l s).2 =
    Continue s' →
  (for_each_out (aligned_body open_raster is_same se' sd' sn' t) l s).2 =
    Continue s'.
Proof.
  induction l as [|it l IH]; intros s s' Hse Hsd Hsn; [done|]. simpl.
  unfold aligned_body at 1 3. destruct it as [index raster].
  destruct (raster_to_metadata open_raster raster) as [e|meta]; [done|].
  case_decide.
  - specialize (IH (Some meta) s' Hse Hsd Hsn).
    destruct (for_each_out _ l (Some meta)) as [o1 q1],
      (for_each_out (aligned_body _ _ se' sd' sn' t) l (Some meta)) as [o2 q2].
    exact IH.
  - destruct s as [b|]; [|done].
    pose proof (compare_fewer_options se sd sn se' sd' sn' t b meta Hse Hsd Hsn)
      as Hc.
    destruct (compare is_same se sd sn t b meta) as [out1 go1],
      (compare is_same se' sd' sn' t b meta) as [out2 go2].
    simpl in Hc. destruct go1; [|done]. rewrite Hc by done.
    specialize (IH (Some b) s' Hse Hsd Hsn).
    destruct (for_each_out _ l (Some b)) as [o1 q1],
      (for_each_out (aligned_body _ _ se' sd' sn' t) l (Some b)) as [o2 q2].
    exact IH.
Qed.

(** The loop never ends with [return True]. *)
Lemma for_each_out_not_true se sd sn t l : ∀ s,
  (for_each_out (aligned_body open_raster is_same se sd sn t) l s).2 ≠
  Returned true.
Proof.
  induction l as [|it l IH]; intros s; [done|]. simpl.
  unfold aligned_body at 1. destruct it as [index raster].
  destruct (raster_to_metadata open_raster raster) as [e|meta]; [done|].
  case_decide.
  - specialize (IH (Some meta)).
    by destruct (for_each_out _ l (Some meta)) as [o1 q1].
  - destruct s as [b|]; [|done].
    destruct (compare is_same se sd sn t b meta) as [out1 go1].
    destruct go1; [|done]. specialize (IH (Some b)).
    by destruct (for_each_out _ l (Some b)) as [o1 q1].
Qed.

(** X17. The options only make [rasters_are_aligned] stricter: rasters
    that are reported aligned stay so when [same_extent], [same_dtype]
    or [same_nodata] is switched off. *)
Theorem aligned_with_fewer_options rasters se sd sn se' sd' sn' t :
  implb se' se = true → implb sd' sd = true → implb sn' sn = true →
  (rasters_are_aligned open_raster is_raster is_same rasters se sd sn t).2 =
    inr true →
  (rasters_are_aligned open_raster is_raster is_same rasters se' sd' sn' t).2 =
    inr true.
Proof.
  intros Hse Hsd Hsn. unfold rasters_are_aligned.
  assert (H : ∀ l,
    (match for_each_out (aligned_body open_raster is_same se sd sn t) l None with
     | (out, Raised e) => (out, inl e)
     | (out, Returned b) => (out, inr b)
     | (out, Continue _) => (out, inr true)
     end).2 = inr true →
    (match for_each_out (aligned_body open_raster is_same se' sd' sn' t) l None with
     | (out, Raised e) => (out, inl e)
     | (out, Returned b) => (out, inr b)
     | (out, Continue _) => (out, inr true)
     end).2 = inr true).
  { intros l.
    pose proof (for_each_out_fewer_options se sd sn se' sd' sn' t l None) as E.
    pose proof (for_each_out_not_true se sd sn t l None) as N.
    destruct (for_each_out _ l None) as [o1 q1]. simpl in E, N.
    destruct q1 as [e|b|s']; simpl; try done.
    - intros [= ->]. done.
    - intros _. specialize (E s' Hse Hsd Hsn eq_refl).
      destruct (for_each_out _ l None) as [o2 q2]. simpl in E. by subst q2. }
  destruct rasters as [|r [|r' rest]]; [apply H|done|apply H].
Qed.

Lemma differs_close a b t : 0 <= t → differs a b t = false → Qabs (a - b) <= t.
Proof.
  intros Ht. unfold differs. destruct (Qeq_bool a b) eqn:E; simpl.
  - intros _. apply Qeq_bool_iff in E.
    assert (E0 : a - b == 0) by (rewrite E; ring).
    assert (E1 : Qabs (a - b) == 0) by (by rewrite (Qabs_wd _ _ E0)).
    by rewrite E1.
  - destruct (Qle_bool _ t) eqn:E'; [|done]. intros _. by apply Qle_bool_iff.
Qed.

Lemma compare_close se sd sn t b m :
  0 <= t → (compare is_same se sd sn t b m).2 = true → close t m b.
Proof.
  intros Ht. unfold compare, close.
  destruct (negb (String.eqb _ _)); [destruct (is_same _ _)|]; cbn [negb]; try done.
  all: destruct (differs (pixel_width m) _ t) eqn:E1; [done|];
       destruct (differs (pixel_height m) _ t) eqn:E2; [done|];
       destruct (differs (x_min m) _ t) eqn:E3; [done|];
       destruct (differs (y_max m) _ t) eqn:E4; [done|];
       intros _; repeat split; by apply differs_close.
Qed.

Lemma close_refl t m : 0 <= t → close t m m.
Proof.
  intros Ht. unfold close.
  assert (E : ∀ a, Qabs (a - a) <= t).
  { intros a. assert (E0 : a - a == 0) by ring.
    assert (E1 : Qabs (a - a) == 0) by (by rewrite (Qabs_wd _ _ E0)).
    by rewrite E1. }
  by repeat split.
Qed.

Lemma close_pair t m m' b : close t m b → close t m' b → close (2 * t) m m'.
Proof.
  assert (E : ∀ x y z, Qabs (x - z) <= t → Qabs (y - z) <= t →
                       Qabs (x - y) <= 2 * t).
  { intros x y z Hx Hy.
    assert (E0 : x - y == (x - z) + (z - y)) by ring.
    rewrite (Qabs_wd _ _ E0).
    eapply Qle_trans; [apply Qabs_triangle|].
    assert (E1 : Qabs (z - y) == Qabs (y - z)).
    { rewrite <- Qabs_opp. apply Qabs_wd. ring. }
    rewrite E1. lra. }
  intros (? & ? & ? & ?) (? & ? & ? & ?). repeat split; by eapply E.
Qed.

(** After the first turn, a loop that reaches its end has read every
    raster and found it close to the first one. *)
Lemma for_each_out_close se sd sn t b l : ∀ (g : nat → nat) out s',
  0 <= t → (∀ i, g i ≠ 0%nat) →
  for_each_out (aligned_body open_raster is_same se sd sn t)
    (imap (λ i r, (g i, r)) l) (Some b) = (out, Continue s') →
  ∀ r, r ∈ l → ∃ d, open_raster r = inr d ∧ close t (metadata_of d) b.
Proof.
  induction l as [|r0 l IH]; intros g out s' Ht Hg Hrun r Hr.
  { by apply elem_of_nil in Hr. }
  rewrite imap_cons in Hrun.
  change (imap ((λ (i : nat) (r : string), (g i, r)) ∘ S) l)
    with (imap (λ (i : nat) (r : string), ((g ∘ S) i, r)) l) in Hrun.
  simpl in Hrun. unfold aligned_body at 1, raster_to_metadata in Hrun.
  destruct (open_raster r0) as [msg|d] eqn:Ed; [done|].
  rewrite decide_False in Hrun by apply Hg.
  pose proof (compare_close se sd sn t b (metadata_of d) Ht) as Hc.
  destruct (compare is_same se sd sn t b (metadata_of d)) as [out1 go1].
  destruct go1; [|done]. simpl in Hc.
  destruct (for_each_out _ _ (Some b)) as [o1 q1] eqn:Erest.
  injection Hrun as <- ->.
  apply elem_of_cons in Hr as [->|Hr].
  - exists d. split; [done|]. by apply Hc.
  - eapply (IH (g ∘ S)); [done| |exact Erest|done].
    intros i. apply Hg.
Qed.

(** X18. What the answer [True] means: every raster of the list could
    be opened and has pixel sizes and an origin within the threshold of
    those of the first raster; two rasters of the list are within twice
    the threshold of each other. *)
Theorem aligned_is_relative_to_first rasters se sd sn t out :
  0 <= t → (2 ≤ length rasters)%nat →
  rasters_are_aligned open_raster is_raster is_same rasters se sd sn t =
    (out, inr true) →
  ∃ r0 d0,
    rasters !! 0%nat = Some r0 ∧ open_raster r0 = inr d0 ∧
    (∀ r, r ∈ rasters →
       ∃ d, open_raster r = inr d ∧ close t (metadata_of d) (metadata_of d0)) ∧
    (∀ r r' d d', r ∈ rasters → r' ∈ rasters →
       open_raster r = inr d → open_raster r' = inr d' →
       close (2 * t) (metadata_of d) (metadata_of d')).
Proof.
  intros Ht Hlen Hrun.
  destruct rasters as [|r0 [|r1 rest]]; [simpl in Hlen; lia..|].
  unfold rasters_are_aligned in Hrun.
  remember (r1 :: rest) as l eqn:El. rewrite imap_cons in Hrun.
  cbn [for_each_out] in Hrun.
  destruct (aligned_body open_raster is_same se sd sn t None (0%nat, r0))
    as [out0 q0] eqn:Eb.
  unfold aligned_body, raster_to_metadata in Eb.
  destruct (open_raster r0) as [msg|d0] eqn:Ed0.
  { injection Eb as <- <-. done. }
  rewrite decide_True in Eb by done. injection Eb as <- <-.
  pose proof (for_each_out_not_true se sd sn t (imap (pair ∘ S) l)
                (Some (metadata_of d0))) as N.
  destruct (for_each_out _ _ (Some (metadata_of d0))) as [o1 q1] eqn:Erest.
  simpl in N.
  destruct q1 as [e|b|s']; [done|by injection Hrun as _ ->|].
  assert (Hall : ∀ r, r ∈ r0 :: l →
            ∃ d, open_raster r = inr d ∧ close t (metadata_of d) (metadata_of d0)).
  { intros r Hr. apply elem_of_cons in Hr as [->|Hr].
    - exists d0. split; [done|]. by apply close_refl.
    - by eapply (for_each_out_close se sd sn t (metadata_of d0) l S o1 s'). }
  exists r0, d0. split; [done|]. split; [done|]. split; [done|].
  intros r r' d d' Hr Hr' Hd Hd'.
  destruct (Hall r Hr) as (d1 & E1 & C1), (Hall r' Hr') as (d2 & E2 & C2).
  rewrite Hd in E1. rewrite Hd' in E2. injection E1 as <-. injection E2 as <-.
  by eapply close_pair.
Qed.

End rasters_are_aligned_facts.

Lemma aligned_with_fewer_options_witness :
  (core_raster.rasters_are_aligned core_raster.open_example
     core_raster.is_raster_example String.eqb ["a.tif"; "b.tif"]
     false false false (1 # 1000)).2 = inr true.
Proof.
  apply (aligned_with_fewer_options core_raster.open_example
           core_raster.is_raster_example String.eqb ["a.tif"; "b.tif"]
           false true false false false false (1 # 1000)); reflexivity.
Defined.

Lemma aligned_is_relative_to_first_witness :
  ∃ r0 d0,
    ["a.tif"; "b.tif"] !! 0%nat = Some r0 ∧
    core_raster.open_example r0 = inr d0 ∧
    (∀ r, r ∈ ["a.tif"; "b.tif"] →
       ∃ d, core_raster.open_example r = inr d ∧
            core_raster.close (1 # 1000) (core_raster.metadata_of d)
              (core_raster.metadata_of d0)) ∧
    (∀ r r' d d', r ∈ ["a.tif"; "b.tif"] → r' ∈ ["a.tif"; "b.tif"] →
       core_raster.open_example r = inr d → core_raster.open_example r' = inr d' →
       core_raster.close (2 * (1 # 1000)) (core_raster.metadata_of d)
         (core_raster.metadata_of d')).
Proof.
  apply (aligned_is_relative_to_first core_raster.open_example
           core_raster.is_raster_example String.eqb ["a.tif"; "b.tif"]
           false false false (1 # 1000) []).
  - vm_compute. discriminate.
  - simpl. lia.
  - reflexivity.
Defined.

(** On the two rasters of the example, whose pixel widths differ by a
    tenth of the threshold: aligned without [same_extent], not aligned
    with it. *)
Example same_extent_is_exact :
  (core_raster.rasters_are_aligned core_raster.open_example
     core_raster.is_raster_example String.eqb ["a.tif"; "b.tif"]
     false false false (1 # 1000)).2 = inr true ∧
  (core_raster.rasters_are_aligned core_raster.open_example
     core_raster.is_raster_example String.eqb ["a.tif"; "b.tif"]
     true false false (1 # 1000)).2 = inr false.
Proof. split; reflexivity. Qed.

(** ** The layer a time offset reads *)

(** X19. The time offset of a kernel entry is used as an index of the
    time axis: a candidate in range reads the layer [dz] of the stack
    for [dz >= 0], the centre of the kernel reading the first layer, and
    the layer [depth + dz], counted from the end, for [dz < 0]; the
    feather weight is read at the same place. *)
Theorem time_offset_is_layer_index arr off ws fw o x y n dx dy dz :
  well_shaped arr off ws fw →
  (x < shape0 arr)%nat → (y < shape1 arr)%nat →
  off !! n = Some (dx, dy, dz) → ¬ out_of_range arr x y (dx, dy, dz) →
  let i := Z.to_nat (Z.of_nat x + dx) in
  let j := Z.to_nat (Z.of_nat y + dy) in
  let k := Z.to_nat (dz `mod` Z.of_nat (shape2 arr)) in
  ∃ w, ws !! n = Some w ∧
       slot (inputs arr off ws fw) o x y n =
       if nodata o && Qeq_bool (item arr i j k) (nodata_value o) then Some None
       else Some (Some (item arr i j k, w * item fw i j k)).
Proof.
  intros (Hd & Hf0 & Hf1 & Hf2 & Hlw) Hx Hy Hn Hin i j k.
  destruct (candidate_spec arr x y dx dy dz Hx Hy Hd)
    as (ox & oy & oz & outside & Hc & Hox & Hoy & _ & _ & Hok).
  destruct (Hok Hin) as (-> & -> & -> & ->).
  destruct (lookup_lt_is_Some_2 ws n) as [w Hw].
  { rewrite Hlw. by eapply lookup_lt_Some. }
  exists w. split; [done|].
  assert (Hz : (- ((Z.of_nat (shape2 arr) - 1) `div` 2) ≤ dz
                ≤ (Z.of_nat (shape2 arr) - 1) `div` 2)%Z).
  { unfold out_of_range in Hin. lia. }
  assert (Hk : axis_index (shape2 arr) dz = Some k).
  { subst k. remember (Z.of_nat (shape2 arr)) as D.
    assert (0 ≤ (D - 1) `div` 2 ∧ 2 * ((D - 1) `div` 2) ≤ D - 1)%Z as [H0 H1].
    { split; [apply Z.div_pos; lia|apply Z.mul_div_le; lia]. }
    destruct (decide (dz < 0)%Z).
    - rewrite HeqD, axis_index_wrap by lia. do 2 f_equal. rewrite <- HeqD.
      apply (Z.mod_unique _ _ (-1)); lia.
    - rewrite HeqD, axis_index_in_range by lia. do 2 f_equal.
      rewrite <- HeqD. symmetry. apply Z.mod_small. lia. }
  assert (Hg : ∀ a, shape0 a = shape0 arr → shape1 a = shape1 arr →
                    shape2 a = shape2 arr →
                    getitem3 a (Z.of_nat x + dx) (Z.of_nat y + dy) dz =
                    Some (item a i j k)).
  { intros a E0 E1 E2. unfold getitem3. rewrite E0, E1, E2.
    rewrite (axis_index_in_range (shape0 arr)) by lia.
    rewrite (axis_index_in_range (shape1 arr)) by lia.
    by rewrite Hk. }
  unfold slot. cbn [inputs m_arr m_offsets m_weights m_feather].
  rewrite Hn. cbn [mbind option_bind]. rewrite Hc.
  rewrite (Hg arr) by done. cbn [mbind option_bind orb].
  destruct (nodata o && _); [done|].
  rewrite Hw. cbn [mbind option_bind]. by rewrite (Hg fw).
Qed.

Lemma time_offset_is_layer_index_witness :
  let arr := of_lists [[[5; 6; 7]]] in
  let i := Z.to_nat (Z.of_nat 0 + 0) in
  let k := Z.to_nat ((-1) `mod` Z.of_nat (shape2 arr)) in
  ∃ w, [1; 2] !! 1%nat = Some w ∧
       slot (inputs arr [(0, 0, 0); (0, 0, -1)]%Z [1; 2] (ones_like arr))
         default_options 0 0 1 =
       if nodata default_options &&
          Qeq_bool (item arr i i k) (nodata_value default_options)
       then Some None
       else Some (Some (item arr i i k, w * item (ones_like arr) i i k)).
Proof.
  intros arr i k.
  pose proof (time_offset_is_layer_index arr [(0, 0, 0); (0, 0, -1)]%Z [1; 2]
                (ones_like arr) default_options 0 0 1 0 0 (-1)) as H.
  cbv zeta in H. apply H; clear H.
  - repeat split; simpl; lia.
  - simpl; lia.
  - simpl; lia.
  - reflexivity.
  - unfold out_of_range. vm_compute. intros [H|[H|H]]; apply H; split; discriminate.
Defined.

(** ** A whole run of mosaic_s1 *)



(** ** A single sample *)

Lemma take_lookup (a : list Q) idx b i :
  np.take a idx = Some b → b !! i = idx !! i ≫= (a !!.).
Proof.
  unfold np.take. intros H. apply mapM_Some in H.
  destruct (idx !! i) as [k|] eqn:Ek; simpl.
  - destruct (Forall2_lookup_l _ _ _ _ _ H Ek) as (v & Hv & Hk). by rewrite Hv.
  - apply lookup_ge_None. apply lookup_ge_None in Ek.
    by rewrite <- (Forall2_length _ _ _ H).
Qed.

(** The sum of the first entries of an array whose entries are 0 but
    for the entry [w] at index [p]. *)
Lemma sumQ_take_single (l : list Q) p w :
  l !! p = Some w → (∀ i u, i ≠ p → l !! i = Some u → u == 0) →
  ∀ k, sumQ (take k l) == if decide (p < k)%nat then w else 0.
Proof.
  revert p. induction l as [|a l IH]; intros p Hp Hz k; [done|].
  destruct k as [|k].
  { destruct (decide (p < 0)%nat); [lia|]. reflexivity. }
  simpl. unfold sumQ in *. simpl. destruct p as [|p].
  - injection Hp as ->. rewrite decide_True by lia.
    assert (E : foldr Qplus 0 (take k l) == 0).
    { clear IH. revert k. induction l as [|b l IHl]; intros k.
      - by rewrite take_nil.
      - destruct k as [|k]; [done|]. simpl.
        rewrite IHl.
        + rewrite (Hz 1%nat b) by done. reflexivity.
        + intros i u Hi Hu. destruct i as [|i]; [done|].
          apply (Hz (S (S i))); [lia|done]. }
    rewrite E. ring.
  - rewrite (Hz 0%nat a) by done.
    rewrite (IH p Hp); last first.
    { intros i u Hi Hu. apply (Hz (S i)); [lia|done]. }
    destruct (decide (p < k)%nat), (decide (S p < S k)%nat); try lia; ring.
Qed.

Lemma knots_lookup (g : Q → Q → Q) (cs sw sd : list Q) i x f :
  zip (zip_with g cs sw) sd !! i = Some (x, f) →
  ∃ c u, cs !! i = Some c ∧ sw !! i = Some u ∧ sd !! i = Some f ∧ x = g c u.
Proof.
  intros H. apply lookup_zip_with_Some in H as (x' & f' & E & Hx & Hf).
  injection E as <- <-.
  apply lookup_zip_with_Some in Hx as (c & u & -> & Hc & Hu).
  by exists c, u.
Qed.

(** With one positive weight, on the value [v], and all the other
    weights 0, the quantile 1/2 is [v]. *)
Lemma hood_quantile_single values weights n v w :
  length weights = length values →
  values !! n = Some v → weights !! n = Some w → 0 < w →
  (∀ i u, i ≠ n → weights !! i = Some u → u == 0) →
  hood_quantile values weights (1 # 2) = Some v.
Proof.
  intros Hlen Hv Hw Hpos Hz.
  assert (Hne : values ≠ []) by (by intros ->).
  destruct (hood_quantile_unfold values weights Hne Hlen)
    as (sw & T & Hp & Hsw & HT & HTs & Hq).
  rewrite Hq. clear Hq.
  pose proof (argsort_perm values) as Hidx.
  pose proof (take_argsort values) as Hsd.
  set (idx := np.argsort values) in *.
  set (sd := np.sort values) in *.
  assert (Hnd : NoDup idx) by (rewrite Hidx; apply NoDup_seq).
  assert (Hn : n ∈ idx).
  { rewrite Hidx. apply elem_of_seq. apply lookup_lt_Some in Hv. lia. }
  apply list_elem_of_lookup in Hn as [p Hp'].
  assert (Hswp : sw !! p = Some w).
  { rewrite (take_lookup _ _ _ p Hsw), Hp'. done. }
  assert (Hsdp : sd !! p = Some v).
  { rewrite (take_lookup _ _ _ p Hsd), Hp'. done. }
  assert (Hswz : ∀ i u, i ≠ p → sw !! i = Some u → u == 0).
  { intros i u Hi Hu. rewrite (take_lookup _ _ _ i Hsw) in Hu.
    destruct (idx !! i) as [k|] eqn:Ek; [|done]. simpl in Hu.
    apply (Hz k); [|done]. intros ->. apply Hi.
    by apply (NoDup_lookup idx i p n). }
  pose proof (sumQ_take_single sw p w Hswp Hswz) as Hsum.
  assert (HTw : T == w).
  { rewrite HTs, <- (sumQ_perm _ _ Hp).
    rewrite <- (take_ge sw (length sw)) by lia. rewrite Hsum.
    rewrite decide_True; [reflexivity|]. by eapply lookup_lt_Some. }
  set (g := λ c u : Q, (c - (1 # 2) * u) / T).
  set (knots := zip (zip_with g (np.cumsum sw) sw) sd).
  assert (Hknot : ∀ i x f, knots !! i = Some (x, f) →
            sd !! i = Some f ∧
            x == if decide (i < p)%nat then 0
                 else if decide (i = p) then 1 # 2 else 1).
  { intros i x f Hi. apply knots_lookup in Hi as (c & u & Hc & Hu & Hf & ->).
    split; [done|]. apply cumsum_from_lookup in Hc. rewrite Hsum in Hc.
    unfold g. rewrite Hc, HTw.
    destruct (decide (i < p)%nat).
    - rewrite decide_False by lia. rewrite (Hswz i u) by (done || lia).
      field. lra.
    - destruct (decide (i = p)) as [->|].
      + rewrite decide_True by lia. rewrite Hswp in Hu. injection Hu as <-.
        field. lra.
      + rewrite decide_True by lia. rewrite (Hswz i u) by done. field. lra. }
  assert (Hlsw : length sw = length sd).
  { unfold sd. rewrite sort_length, Hp. done. }
  assert (Hlk : length knots = length sd).
  { unfold knots, np.cumsum.
    rewrite length_zip_with, length_zip_with, cumsum_from_length. lia. }
  assert (Hpk : is_Some (knots !! p)).
  { apply lookup_lt_is_Some. rewrite Hlk. by eapply lookup_lt_Some. }
  destruct Hpk as [[xp fp] Hkp].
  destruct (Hknot p xp fp Hkp) as [Hfp Hxp].
  rewrite Hsdp in Hfp. injection Hfp as <-.
  rewrite decide_False, decide_True in Hxp by lia.
  unfold np.interp. rewrite decide_True; last first.
  { unfold np.cumsum. rewrite length_zip_with, cumsum_from_length. lia. }
  fold g. fold knots.
  destruct knots as [|[x0 f0] rest] eqn:Ek; [done|].
  assert (Hl : ((x0, f0) :: rest) !! length rest = Some (List.last rest (x0, f0)))
    by apply last_default_lookup.
  destruct (List.last rest (x0, f0)) as [xl fl].
  destruct (Hknot _ _ _ Hl) as [_ Hxl].
  destruct (Hknot 0%nat x0 f0 eq_refl) as [_ Hx0].
  assert (Hpl : (p ≤ length rest)%nat).
  { apply lookup_lt_Some in Hkp. simpl in Hkp. lia. }
  assert (E1 : Qle_bool (1 # 2) xl = true).
  { apply Qle_bool_iff. rewrite Hxl.
    destruct (decide (length rest < p)%nat); [lia|].
    destruct (decide (length rest = p)); [lra|]. by vm_compute. }
  assert (E2 : Qle_bool x0 (1 # 2) = true).
  { apply Qle_bool_iff. rewrite Hx0.
    destruct (decide (0 < p)%nat); [by vm_compute|].
    rewrite decide_True by lia. lra. }
  rewrite E1, E2. cbn [negb]. f_equal.
  rewrite (interp_search_at (1 # 2) p rest x0 f0 xp v Hkp).
  - destruct (((x0, f0) :: rest) !! S p) as [[xn fn]|]; [|done].
    assert (E : Qeq_bool xp (1 # 2) = true) by (by apply Qeq_bool_iff).
    by rewrite E.
  - intros i xi fi Hi Hki. destruct (Hknot i xi fi Hki) as [_ Hxi].
    rewrite Hxi. destruct (decide (i < p)%nat); [by vm_compute|].
    rewrite decide_True by lia. lra.
  - destruct (((x0, f0) :: rest) !! S p) as [[xn fn]|] eqn:En; [|done].
    destruct (Hknot _ _ _ En) as [_ Hxn]. rewrite Hxn.
    rewrite decide_False, decide_False by lia. reflexivity.
Qed.

(** X21. A position with one sample: when one kernel entry contributes,
    with a positive weight, and every other entry is skipped, the median
    (quantile 1/2, the default) written at the position is the sample of
    that entry, the slots of the skipped entries notwithstanding. *)
Theorem single_sample_is_kept arr off ws fw o x y n v wt :
  well_shaped arr off ws fw →
  (x < shape0 arr)%nat → (y < shape1 arr)%nat →
  weighted o = true → quantile o = 1 # 2 →
  slot (inputs arr off ws fw) o x y n = Some (Some (v, wt)) → 0 < wt →
  (∀ m, m ≠ n → (m < length off)%nat →
     slot (inputs arr off ws fw) o x y m = Some None) →
  ∃ res row, s1_collapse arr off ws fw o = Some res ∧ res !! x = Some row ∧
             row !! y = Some v.
Proof.
  intros Hwf Hx Hy Hweighted Hq Hn Hpos Hothers.
  destruct (s1_collapse_is_Some arr off ws fw o Hwf) as [res Hres].
  destruct (s1_collapse_lookup arr off ws fw o res x y Hres Hx Hy)
    as (r & row & Hpix & Hrow & Hval).
  exists res, row. split; [done|]. split; [done|]. rewrite Hval.
  assert (Hr : r = Some v); [|by rewrite Hr].
  assert (HnN : (n < length off)%nat).
  { unfold slot in Hn. cbn [inputs m_offsets] in Hn.
    destruct (off !! n) eqn:E; [|done]. by eapply lookup_lt_Some. }
  unfold pixel_out in Hpix. rewrite gather_eq in Hpix.
  cbn [inputs m_offsets] in Hpix.
  destruct (mapM _ (seq 0 (length off))) as [slots|] eqn:Hslots; [|done].
  cbn [mbind option_bind] in Hpix. apply mapM_Some in Hslots.
  assert (Hls : length slots = length off).
  { rewrite <- (Forall2_length _ _ _ Hslots). apply length_seq. }
  assert (Hsl : ∀ m s, slots !! m = Some s →
            slot (inputs arr off ws fw) o x y m = Some s).
  { intros m s Hm.
    destruct (Forall2_lookup_r _ _ _ _ _ Hslots Hm) as (m' & Hm' & E).
    apply lookup_seq in Hm' as [-> _]. done. }
  set (hv := map (λ s : option (Q * Q), default 0 (fst <$> s)) slots) in *.
  set (hw := map (λ s : option (Q * Q), default 0 (snd <$> s)) slots) in *.
  assert (Hsn : slots !! n = Some (Some (v, wt))).
  { destruct (lookup_lt_is_Some_2 slots n) as [s Hs]; [lia|].
    rewrite Hs. f_equal. apply Hsl in Hs. congruence. }
  assert (Hhv : hv !! n = Some v).
  { unfold hv. change map with (@fmap list _). by rewrite list_lookup_fmap, Hsn. }
  assert (Hhw : hw !! n = Some wt).
  { unfold hw. change map with (@fmap list _). by rewrite list_lookup_fmap, Hsn. }
  assert (Hhz : ∀ i u, i ≠ n → hw !! i = Some u → u == 0).
  { intros i u Hi Hu. unfold hw in Hu. change map with (@fmap list _) in Hu.
    rewrite list_lookup_fmap in Hu.
    destruct (slots !! i) as [s|] eqn:Es; [|done]. simpl in Hu.
    injection Hu as <-.
    assert (Hi' : (i < length off)%nat).
    { rewrite <- Hls. by eapply lookup_lt_Some. }
    apply Hsl in Es. rewrite Hothers in Es by done. by injection Es as <-. }
  assert (Hsum : foldl add_weight 0 slots == wt).
  { rewrite foldl_add_weight. fold hw.
    rewrite <- (take_ge hw (length hw)) by lia.
    rewrite (sumQ_take_single hw n wt Hhw Hhz).
    rewrite decide_True; [ring|]. by eapply lookup_lt_Some. }
  unfold aggregate in Hpix. cbn [hood_values hood_weights weight_sum] in Hpix.
  destruct (Qlt_le_dec 0 (foldl add_weight 0 slots)) as [_|Hle]; [|lra].
  rewrite Hweighted, Hq in Hpix.
  rewrite (hood_quantile_single hv _ n v (wt / foldl add_weight 0 slots)) in Hpix.
  - by injection Hpix as <-.
  - unfold hv, hw. by rewrite length_fmap, !length_map.
  - done.
  - by rewrite list_lookup_fmap, Hhw.
  - rewrite Hsum. apply Qlt_shift_div_l; lra.
  - intros i u Hi Hu. rewrite list_lookup_fmap in Hu.
    destruct (hw !! i) as [u'|] eqn:Eu; [|done]. simpl in Hu. injection Hu as <-.
    rewrite (Hhz i u' Hi Eu). unfold Qdiv. ring.
Qed.

Lemma single_sample_is_kept_witness :
  ∃ res row,
    s1_collapse example.one_row [(0, 0, 0); (1, 0, 0); (0, 1, 0)]%Z [1; 1; 1]
      (ones_like example.one_row) default_options = Some res ∧
    res !! 0%nat = Some row ∧ row !! 0%nat = Some 5.
Proof.
  apply (single_sample_is_kept example.one_row
           [(0, 0, 0); (1, 0, 0); (0, 1, 0)]%Z [1; 1; 1]
           (ones_like example.one_row) default_options 0 0 0 5 (1 * 1)).
  - repeat split; simpl; lia.
  - simpl; lia.
  - simpl; lia.
  - reflexivity.
  - reflexivity.
  - reflexivity.
  - reflexivity.
  - intros [|[|[|m]]] Hm Hlt; [done|reflexivity|reflexivity|simpl in Hlt; lia].
Defined.

(** ** The keyword that clip_raster does not have *)

Lemma clip_raster_call_rejected body raster clip_geom out_path :
  clip_raster_call body raster clip_geom out_path =
  inl (call_error_message "clip_raster" (UnexpectedKeyword "postfix")).
Proof. reflexivity. Qed.

(** The clipping loop when every call of [clip_raster] is rejected: it
    returns only if no image intersects the master, and it raises the
    error of the reprojection that failed or of the first call. *)
Lemma clip_loop_rejected rr ri body pe stem total tmp master l :
  ∀ (g : nat → nat) acc last w,
  match (for_each_M
           (clip_body rr ri (clip_raster_call body) pe stem total tmp master false)
           (imap (λ i img, (g i, img)) l) (acc, last) w).1 with
  | inr st =>
      ∀ img, img ∈ l → ∃ r, rr img master = inr r ∧ ri r master = false
  | inl e =>
      (∃ img msg, img ∈ l ∧ rr img master = inl msg) ∨
      (e = ExternalError
             (call_error_message "clip_raster" (UnexpectedKeyword "postfix")) ∧
       ∃ img r, img ∈ l ∧ rr img master = inr r ∧ ri r master = true)
  end.
Proof.
  induction l as [|img l IH]; intros g acc last w.
  - simpl. intros img Himg. by apply elem_of_nil in Himg.
  - rewrite imap_cons.
    change (imap ((λ (i : nat) (img : string), (g i, img)) ∘ S) l)
      with (imap (λ (i : nat) (img : string), ((g ∘ S) i, img)) l).
    cbn [for_each_M]. rewrite bind_run.
    unfold clip_body at 1, progress. cbn [andb]. rewrite bind_run. cbn [print].
    rewrite bind_run.
    destruct (rr img master) as [msg|r] eqn:Er; cbn [lift fst].
    { left. exists img, msg. split; [by left|done]. }
    rewrite bind_run. cbn [record_call].
    destruct (ri r master) eqn:Ei; cbn [negb].
    + rewrite bind_run, clip_raster_call_rejected. cbn [lift fst].
      right. split; [done|]. exists img, r. split; [by left|done].
    + run_M.
      match goal with |- context [for_each_M _ _ ?s ?w0] =>
        specialize (IH (g ∘ S) acc (Some r) w0);
        destruct (for_each_M _ _ s w0) as [[e|st] w1]
      end; cbn [fst] in *.
      * destruct IH as [(img' & msg & Hin & Hmsg)|(He & img' & r' & Hin & Hr')].
        -- left. exists img', msg. split; [by right|done].
        -- right. split; [done|]. exists img', r'. split; [by right|done].
      * intros img' Hin. apply elem_of_cons in Hin as [->|Hin]; [|by apply IH].
        by exists r.
Qed.

(** X22. [clip_raster] of [buteo/raster/clip.py] has no parameter
    [postfix], so the call in [mosaic_s1] is rejected before the function
    runs.  With [skip_completed] off, a run returns only if no image,
    reprojected, intersects the master; when the reprojections succeed
    and some image intersects the master, the run ends with the error of
    the unexpected keyword. *)
Theorem clip_raster_call_ends_run ck rta raa uid rr ri body ar cp pe stem
    imgs out tmp master nd k fb fd w :
  let run :=
    mosaic_s1 ck rta raa uid rr ri (clip_raster_call body) ar cp pe stem
      (PyList imgs) out tmp master nd k fb fd false w in
  (∀ p, run.1 = inr p →
     ∀ img, img ∈ imgs → ∃ r, rr img master = inr r ∧ ri r master = false) ∧
  ((2 ≤ length imgs)%nat →
   (∀ img, img ∈ imgs → ∃ r, rr img master = inr r) →
   (∃ img r, img ∈ imgs ∧ rr img master = inr r ∧ ri r master = true) →
   run.1 = inl (ExternalError
                  (call_error_message "clip_raster" (UnexpectedKeyword "postfix")))).
Proof.
  intros run. subst run. unfold mosaic_s1.
  pose proof (clip_loop_rejected rr ri body pe stem (length imgs) tmp master imgs
                (λ i, i) [] None w) as Hloop.
  change (imap (λ (i : nat) (img : string), (i, img)) imgs)
    with (imap pair imgs) in Hloop.
  split.
  - intros p. case_decide; [done|]. rewrite bind_run.
    destruct (for_each_M _ (imap pair imgs) ([], None) w) as [[e|st] w1];
      cbn [fst] in *; [done|]. intros _. exact Hloop.
  - intros Hlen Hall (img & r & Hin & Hr & Hi).
    rewrite decide_False by lia. rewrite bind_run.
    destruct (for_each_M _ (imap pair imgs) ([], None) w) as [[e|st] w1];
      cbn [fst] in *.
    + destruct Hloop as [(img' & msg & Hin' & Hmsg)|[-> _]]; [|done].
      destruct (Hall img' Hin') as [r' Hr']. congruence.
    + destruct (Hloop img Hin) as (r' & Hr' & Hi'). congruence.
Qed.

Lemma clip_raster_call_ends_run_witness :
  let run ri :=
    mosaic_s1 example.kernel example.read_two_rows example.aligned "u"
      example.reproject ri (clip_raster_call example.clip) example.align
      example.proximity example.no_file example.stem
      (PyList ["a.tif"; "b.tif"]) "out.tif" "tmp/" "master.tif" (-9999) 2
      true 5000 false example.empty_world in
  (∀ img, img ∈ ["a.tif"; "b.tif"] →
     ∃ r, example.reproject img "master.tif" = inr r ∧ false = false) ∧
  (run example.intersect).1 =
    inl (ExternalError
           (call_error_message "clip_raster" (UnexpectedKeyword "postfix"))).
Proof.
  intros run. split.
  - apply (proj1 (clip_raster_call_ends_run example.kernel example.read_two_rows
                    example.aligned "u" example.reproject (λ _ _, false)
                    example.clip example.align example.proximity example.no_file
                    example.stem ["a.tif"; "b.tif"] "out.tif" "tmp/" "master.tif"
                    (-9999) 2 true 5000 example.empty_world) "out.tif").
    vm_compute. reflexivity.
  - apply (proj2 (clip_raster_call_ends_run example.kernel example.read_two_rows
                    example.aligned "u" example.reproject example.intersect
                    example.clip example.align example.proximity example.no_file
                    example.stem ["a.tif"; "b.tif"] "out.tif" "tmp/" "master.tif"
                    (-9999) 2 true 5000 example.empty_world)).
    + simpl; lia.
    + intros img _. eexists. reflexivity.
    + exists "a.tif", "a.tif.vrt". split; [by left|]. split; reflexivity.
Defined.
